(** * Neuro-Aug: the stochastic augmentation pipeline

    A shallow embedding of [imgaug.py] (image augmentation on Pillow) and
    [speechaug.py] (audio augmentation on pydub), and the properties of the
    specification that can be settled on it.

    Layout:
    - [Py]        : the Python runtime the two scripts share: exceptions,
                    [try]/[except], [print], the [random] module;
    - [PIL]       : the part of Pillow's [Image] the image script calls;
    - [Imgaug]    : [imgaug.py];
    - [Pydub]     : the part of pydub's [AudioSegment] the audio script calls;
    - [Speechaug] : [speechaug.py];
    - the theorems. *)

From Stdlib Require Import ZArith QArith Qround List String Ascii Bool Lia.
From Stdlib Require Import DecimalString Lqa.
From stdpp Require Import base list strings.

Local Open Scope string_scope.
Local Open Scope list_scope.
Local Open Scope Z_scope.

(* ===================================================================== *)
(** * The Python runtime *)
(* ===================================================================== *)

Module Py.

(** A raised instance of (a subclass of) [Exception]: its class name and its
    message, which is what [f"{e}"] prints.  [BaseException]s that are not
    [Exception]s (KeyboardInterrupt, SystemExit) are not raised by any code
    modelled here. *)
Inductive exn : Type :=
| PyExc (cls msg : string).

Definition exn_msg (e : exn) : string :=
  match e with PyExc _ m => m end.

(** The state a script runs in: its objects and files ([mem], chosen by each
    script), the outcomes that the calls to the [random] module are still
    going to have ([rng]), and the lines printed so far ([stdout]). *)
Record World (Mem : Type) : Type := mkWorld {
  mem : Mem;
  rng : list Z;
  stdout : list string
}.

Arguments mkWorld {Mem} _ _ _.
Arguments mem {Mem} _.
Arguments rng {Mem} _.
Arguments stdout {Mem} _.

Definition set_mem {Mem} (m : Mem) (w : World Mem) : World Mem :=
  mkWorld m (rng w) (stdout w).

Definition set_rng {Mem} (r : list Z) (w : World Mem) : World Mem :=
  mkWorld (mem w) r (stdout w).

(** A computation either raises or returns, and changes the world on the
    way; what it changed before raising stays changed. *)
Definition M (Mem A : Type) : Type := World Mem -> (exn + A) * World Mem.

Definition ret {Mem A} (a : A) : M Mem A := fun w => (inr a, w).

Definition raise {Mem A} (e : exn) : M Mem A := fun w => (inl e, w).

Definition bind {Mem A B} (c : M Mem A) (k : A -> M Mem B) : M Mem B :=
  fun w =>
    match c w with
    | (inl e, w') => (inl e, w')
    | (inr a, w') => k a w'
    end.

Declare Scope py_scope.
Delimit Scope py_scope with py.

Notation "'let*' x ':=' c 'in' k" := (bind c (fun x => k))
  (at level 10, x pattern, c at level 100, k at level 200) : py_scope.

Notation "c ';;;' k" := (bind c (fun _ => k))
  (at level 100, k at level 200, right associativity) : py_scope.

Local Open Scope py_scope.

(** [try: body / except Exception as e: handler e]. *)
Definition try_except {Mem A} (body : M Mem A) (handler : exn -> M Mem A)
  : M Mem A :=
  fun w =>
    match body w with
    | (inl e, w') => handler e w'
    | (inr a, w') => (inr a, w')
    end.

(** [print(line)]. *)
Definition print {Mem} (line : string) : M Mem unit :=
  fun w => (inr tt, mkWorld (mem w) (rng w) (stdout w ++ [line])).

(** Lift a library call that works on values: it returns or raises and
    leaves the world alone. *)
Definition lift {Mem A} (r : exn + A) : M Mem A :=
  match r with
  | inl e => raise e
  | inr a => ret a
  end.

Definition get_mem {Mem} : M Mem Mem := fun w => (inr (mem w), w).

Definition put_mem {Mem} (m : Mem) : M Mem unit :=
  fun w => (inr tt, set_mem m w).

(** [for x in xs: body x]. *)
Fixpoint for_each {Mem A} (xs : list A) (body : A -> M Mem unit)
  : M Mem unit :=
  match xs with
  | [] => ret tt
  | x :: rest => body x ;;; for_each rest body
  end.

(** [for x in xs: v = body x v] for a local variable [v] that a handler
    around the loop can still read: the loop gives back the value [v] has
    when it ends, and the exception when it ended by one. *)
Fixpoint for_var {Mem A V} (xs : list A) (body : A -> V -> M Mem V) (v : V)
  : World Mem -> (V * option exn) * World Mem :=
  fun w =>
    match xs with
    | [] => ((v, None), w)
    | x :: rest =>
        match body x v w with
        | (inl e, w') => ((v, Some e), w')
        | (inr v', w') => for_var rest body v' w'
        end
    end.

(** [for x in xs: v = body x v] where nothing reads [v] after an
    exception. *)
Fixpoint for_acc {Mem A V} (xs : list A) (body : A -> V -> M Mem V) (v : V)
  : M Mem V :=
  match xs with
  | [] => ret v
  | x :: rest => let* v' := body x v in for_acc rest body v'
  end.

(** [outcome c w Q]: run from [w], the computation [c] ends with a result
    and a world that satisfy [Q]. *)
Definition outcome {Mem A} (c : M Mem A) (w : World Mem)
  (Q : exn + A -> World Mem -> Prop) : Prop :=
  Q (fst (c w)) (snd (c w)).

(** A computation that leaves [mem] as it is. *)
Definition pure_mem {Mem A} (c : M Mem A) : Prop :=
  forall w, mem (snd (c w)) = mem w.

(** A computation that prints nothing. *)
Definition silent {Mem A} (c : M Mem A) : Prop :=
  forall w, stdout (snd (c w)) = stdout w.

(** [range(n)]. *)
Definition range (n : nat) : list nat := seq 0 n.

Definition len {A} (l : list A) : Z := Z.of_nat (length l).

(** ** Strings and paths *)

Definition lower_ascii (c : ascii) : ascii :=
  let n := nat_of_ascii c in
  if ((65 <=? n) && (n <=? 90))%nat then ascii_of_nat (n + 32) else c.

(** [s.lower()], on ASCII. *)
Fixpoint lower (s : string) : string :=
  match s with
  | EmptyString => EmptyString
  | String c t => String (lower_ascii c) (lower t)
  end.

(** [s.endswith(suffix)] and [s.endswith(tuple)]. *)
Definition endswith (s suffix : string) : bool :=
  let ls := String.length s in
  let lx := String.length suffix in
  ((lx <=? ls)%nat && String.eqb (substring (ls - lx) lx s) suffix).

Definition endswith_any (s : string) (suffixes : list string) : bool :=
  existsb (endswith s) suffixes.

(** [str(n)] of a natural number. *)
Definition str (n : nat) : string := NilZero.string_of_uint (Nat.to_uint n).

(** [str(n)] of an integer. *)
Definition str_Z (n : Z) : string := NilZero.string_of_int (Z.to_int n).

Definition newline : string := String (ascii_of_nat 10) EmptyString.

(** The calls to [os] and [os.path], which are not modelled. *)
Record OS : Type := mkOS {
  listdir : string -> list string;
  isfile : string -> bool;
  splitext : string -> string * string;
  join : string -> string -> string
}.

(** ** The [random] module

    The generator is not modelled: [rng] lists, call by call, the raw
    outcome each primitive draw is going to have, and an exhausted list
    goes on with zeros.  [_randbelow(n)] reduces its raw outcome to
    [0 .. n-1], so every tape is a possible run and every run is some tape;
    raw outcomes that are uniform over a multiple of [n] make the draw
    uniform. *)

Definition next_raw {Mem} : M Mem Z :=
  fun w =>
    match rng w with
    | [] => (inr 0, w)
    | r :: t => (inr r, set_rng t w)
    end.

Definition _randbelow {Mem} (n : Z) : M Mem Z :=
  let* r := next_raw in ret (r mod n).

(** [randrange(start, stop)], step 1. *)
Definition randrange {Mem} (start stop : Z) : M Mem Z :=
  let width := stop - start in
  if 0 <? width then
    let* r := _randbelow width in ret (start + r)
  else raise (PyExc "ValueError" "empty range for randrange()").

Definition randint {Mem} (a b : Z) : M Mem Z := randrange a (b + 1).

Definition choice {Mem A} (seq : list A) : M Mem A :=
  if len seq =? 0 then
    raise (PyExc "IndexError" "Cannot choose from an empty sequence")
  else
    let* j := _randbelow (len seq) in
    match seq !! Z.to_nat j with
    | Some x => ret x
    | None => raise (PyExc "IndexError" "list index out of range")
    end.

(** [random()]: a multiple of 2^-53 in [0, 1). *)
Definition random {Mem} : M Mem Q :=
  let* r := next_raw in ret (Qmake (r mod 2 ^ 53) (2 ^ 53)).

(** [uniform(a, b)] is [a + (b - a) * random()], here in exact rational
    arithmetic. *)
Definition uniform {Mem} (a b : Q) : M Mem Q :=
  let* u := random in ret (a + (b - a) * u)%Q.

(** [sample(population, k)] for a population of at most 21 elements and
    [k <= 5], where CPython takes the branch that keeps the elements not
    yet selected in [pool[0 : n-i]]:
<<
    pool = list(population)
    for i in range(k):
        j = randbelow(n - i)
        result[i] = pool[j]
        pool[j] = pool[n - i - 1]
>>
    The loop variable is the pair (pool, result). *)
Definition sample_step {Mem A} (n : nat) (i : nat) (st : list A * list A)
  : M Mem (list A * list A) :=
  let '(pool, result) := st in
  let* j := _randbelow (Z.of_nat (n - i)) in
  match pool !! Z.to_nat j, pool !! (n - i - 1)%nat with
  | Some x, Some last =>
      ret (<[Z.to_nat j := last]> pool, result ++ [x])
  | _, _ => raise (PyExc "IndexError" "list index out of range")
  end.

Fixpoint sample_loop {Mem A} (n : nat) (idxs : list nat)
  (st : list A * list A)
  : M Mem (list A * list A) :=
  match idxs with
  | [] => ret st
  | i :: rest => let* st' := sample_step n i st in sample_loop n rest st'
  end.

Definition sample {Mem A} (population : list A) (k : Z) : M Mem (list A) :=
  let n := length population in
  if (0 <=? k) && (k <=? Z.of_nat n) then
    let* st := sample_loop n (range (Z.to_nat k)) (population, []) in
    ret (snd st)
  else
    raise (PyExc "ValueError" "Sample larger than population or is negative").

(** ** Floats

    A Python float is kept as an exact rational or one of the three special
    values; the rounding of binary64 is not modelled.  Where the code
    rounds a product or a quotient to binary64 before it truncates or
    rounds it to an integer, the integer can be the neighbour of the one
    computed here: [int(decay * 1000)], [int(ms * (frame_rate / 1000.0))]
    and [round(1000 * (frames / frame_rate))] can each be off by one at
    values that lie within a rounding error of an integer or of a half.
    The statements about lengths are worded so that they do not depend on
    which of the two integers is taken. *)
Inductive pyfloat : Type :=
| Fin (q : Q)
| PosInf
| NegInf
| NaN.

Definition fneg (x : pyfloat) : pyfloat :=
  match x with
  | Fin q => Fin (- q)%Q
  | PosInf => NegInf
  | NegInf => PosInf
  | NaN => NaN
  end.

Definition fadd (x y : pyfloat) : pyfloat :=
  match x, y with
  | NaN, _ | _, NaN => NaN
  | Fin a, Fin b => Fin (a + b)%Q
  | PosInf, NegInf | NegInf, PosInf => NaN
  | PosInf, _ | _, PosInf => PosInf
  | NegInf, _ | _, NegInf => NegInf
  end.

Definition fsub (x y : pyfloat) : pyfloat := fadd x (fneg y).

(** [int * float]. *)
Definition fmul_int (n : Z) (x : pyfloat) : pyfloat :=
  match x with
  | Fin q => Fin (inject_Z n * q)%Q
  | NaN => NaN
  | PosInf => if n =? 0 then NaN else if 0 <? n then PosInf else NegInf
  | NegInf => if n =? 0 then NaN else if 0 <? n then NegInf else PosInf
  end.

(** [x / n] for an integer [n] that is not zero. *)
Definition fdiv_int (x : pyfloat) (n : Z) : pyfloat :=
  match x with
  | Fin q => Fin (q / inject_Z n)%Q
  | NaN => NaN
  | PosInf => if 0 <? n then PosInf else NegInf
  | NegInf => if 0 <? n then NegInf else PosInf
  end.

(** [int(x)]: truncation towards zero; infinities and NaN raise. *)
Definition int_of_float (x : pyfloat) : exn + Z :=
  match x with
  | Fin q => inr (Z.quot (Qnum q) (Z.pos (Qden q)))
  | NaN => inl (PyExc "ValueError" "cannot convert float NaN to integer")
  | _ => inl (PyExc "OverflowError" "cannot convert float infinity to integer")
  end.

(** [round(x)] of a finite value: to the nearest integer, halves to the
    even one. *)
Definition round_half_even (q : Q) : Z :=
  let f := Qfloor q in
  let twice_frac := (2 * (q - inject_Z f))%Q in
  match (twice_frac ?= 1)%Q with
  | Lt => f
  | Gt => f + 1
  | Eq => if Z.even f then f else f + 1
  end.

(** [l[start:stop]] for a list (or bytes) and two integers. *)
Definition slice_index (n i : Z) : Z :=
  if i <? 0 then Z.max (i + n) 0 else Z.min i n.

Definition py_slice {A} (l : list A) (start stop : Z) : list A :=
  let n := len l in
  let a := slice_index n start in
  let b := slice_index n stop in
  take (Z.to_nat (b - a)) (drop (Z.to_nat a) l).

End Py.

(* ===================================================================== *)
(** * Pillow: the methods of [Image] that [imgaug.py] calls *)
(* ===================================================================== *)

Module PIL.

(** A pixel is the tuple of its band values ([(r, g, b)] in mode RGB); the
    single value of a one-band mode is kept as a tuple of one. *)
Abbreviation Pixel := (list Z) (only parsing).

(** An image: its mode, its size [(width, height)] and its pixel rows,
    [im[y][x]] as in Pillow's storage. *)
Record Image : Type := mkImage {
  mode : string;
  size : nat * nat;
  im : list (list Pixel)
}.

Definition width (img : Image) : nat := fst (size img).
Definition height (img : Image) : nat := snd (size img).

(** Every image Pillow builds holds [height] rows of [width] pixels. *)
Definition wf_image (img : Image) : bool :=
  (length (im img) =? height img)%nat
  && forallb (fun row : list Pixel => (length row =? width img)%nat) (im img).

(** [len(Image.getbands())]. *)
Definition bands (mode : string) : nat :=
  if existsb (String.eqb mode) ["RGB"; "YCbCr"; "LAB"; "HSV"] then 3
  else if existsb (String.eqb mode) ["RGBA"; "CMYK"; "RGBX"; "RGBa"] then 4
  else if existsb (String.eqb mode) ["LA"; "PA"; "La"] then 2
  else 1.

(** The pixel of zeroed storage, which is what a transform leaves where it
    has no source pixel. *)
Definition zero_pixel (mode : string) : Pixel := repeat 0 (bands mode).

(** [pixels[x, y]] through [load()]: [None] stands for IndexError. *)
Definition getpixel (img : Image) (x y : nat) : option Pixel :=
  match im img !! y with
  | Some row => row !! x
  | None => None
  end.

(** [pixels[x, y] = p] through [load()]. *)
Definition putpixel (img : Image) (x y : nat) (p : Pixel) : option Image :=
  match im img !! y with
  | Some row =>
      if (x <? length row)%nat then
        Some (mkImage (mode img) (size img) (<[y := <[x := p]> row]> (im img)))
      else None
  | None => None
  end.

(** The pixel a method of the library reads at a position of the image. *)
Definition px (img : Image) (x y : nat) : Pixel :=
  match getpixel img x y with
  | Some p => p
  | None => zero_pixel (mode img)
  end.

(** A new image whose pixel at [(x, y)] is [f x y]. *)
Definition tabulate (w h : nat) (f : nat -> nat -> Pixel) : list (list Pixel) :=
  map (fun y => map (fun x => f x y) (seq 0 w)) (seq 0 h).

Definition build (mode : string) (w h : nat) (f : nat -> nat -> Pixel) : Image :=
  mkImage mode (w, h) (tabulate w h f).

(** [Image.copy()]. *)
Definition copy (img : Image) : Image := img.

(** [Image.transpose(method)] for the four methods used here or by
    [rotate]. *)
Inductive Transpose : Type :=
| FLIP_LEFT_RIGHT
| ROTATE_90
| ROTATE_180
| ROTATE_270.

Definition transpose (img : Image) (method : Transpose) : Image :=
  let w := width img in
  let h := height img in
  match method with
  | FLIP_LEFT_RIGHT => build (mode img) w h (fun x y => px img (w - 1 - x) y)
  | ROTATE_90 => build (mode img) h w (fun x y => px img (w - 1 - y) x)
  | ROTATE_180 => build (mode img) w h (fun x y => px img (w - 1 - x) (h - 1 - y))
  | ROTATE_270 => build (mode img) h w (fun x y => px img y (h - 1 - x))
  end%nat.

(** [Image.transform(size, Image.AFFINE, (a, b, c, d, e, f))] with the
    default nearest-neighbour resampling and no fill colour: the output
    pixel [(x, y)] is the input pixel at
    [(a (x+1/2) + b (y+1/2) + c, d (x+1/2) + e (y+1/2) + f)], rounded down,
    and zero where that falls outside the input. *)
Definition affine_source (data : Q * Q * Q * Q * Q * Q) (x y : nat) : Z * Z :=
  let '(a, b, c, d, e, f) := data in
  let xc := (inject_Z (Z.of_nat x) + (1 # 2))%Q in
  let yc := (inject_Z (Z.of_nat y) + (1 # 2))%Q in
  (Qfloor (a * xc + b * yc + c), Qfloor (d * xc + e * yc + f)).

Definition transform_AFFINE (img : Image) (size : nat * nat)
  (data : Q * Q * Q * Q * Q * Q) : Image :=
  build (mode img) (fst size) (snd size)
    (fun x y =>
       let '(xin, yin) := affine_source data x y in
       if (0 <=? xin) && (xin <? Z.of_nat (width img))
          && (0 <=? yin) && (yin <? Z.of_nat (height img))
       then px img (Z.to_nat xin) (Z.to_nat yin)
       else zero_pixel (mode img)).

(** [Image.rotate(angle)] for the angles the script draws, with every
    optional argument at its default (nearest neighbour, [expand] false,
    rotation about the centre):
<<
    if angle == 180: return self.transpose(ROTATE_180)
    if angle in (90, 270) and (expand or self.width == self.height):
        return self.transpose(ROTATE_90 if angle == 90 else ROTATE_270)
    angle = -math.radians(angle)
    matrix = [round(cos(angle), 15), round(sin(angle), 15), 0.0,
              round(-sin(angle), 15), round(cos(angle), 15), 0.0]
    matrix[2], matrix[5] = transform(-center[0], -center[1], matrix)
    matrix[2] += center[0]; matrix[5] += center[1]
    return self.transform((w, h), AFFINE, matrix, resample)
>>
    The output of the last branch has the size of the input: the corners
    that turn out of the frame are lost. *)
Inductive QuarterTurn : Type :=
| deg90
| deg180
| deg270.

Definition degrees (t : QuarterTurn) : Z :=
  match t with deg90 => 90 | deg180 => 180 | deg270 => 270 end.

(** [(round(cos(-angle), 15), round(sin(-angle), 15))]. *)
Definition cos_sin_neg (t : QuarterTurn) : Q * Q :=
  match t with
  | deg90 => (0, - (1))%Q
  | deg180 => (- (1), 0)%Q
  | deg270 => (0, 1)%Q
  end.

Definition rotate_matrix (w h : nat) (t : QuarterTurn)
  : Q * Q * Q * Q * Q * Q :=
  let '(cs, sn) := cos_sin_neg t in
  let cx := (inject_Z (Z.of_nat w) / 2)%Q in
  let cy := (inject_Z (Z.of_nat h) / 2)%Q in
  let a := cs in
  let b := sn in
  let d := (- sn)%Q in
  let e := cs in
  let c := (a * (- cx) + b * (- cy) + 0 + cx)%Q in
  let f := (d * (- cx) + e * (- cy) + 0 + cy)%Q in
  (a, b, c, d, e, f).

Definition rotate (img : Image) (t : QuarterTurn) : Image :=
  match t with
  | deg180 => transpose img ROTATE_180
  | _ =>
      if (width img =? height img)%nat then
        transpose img (match t with deg90 => ROTATE_90 | _ => ROTATE_270 end)
      else
        transform_AFFINE img (size img)
          (rotate_matrix (width img) (height img) t)
  end.

(** The calls whose arithmetic is not modelled: each returns a new image
    or raises.
    - [filter_GaussianBlur r img] is
      [img.filter(ImageFilter.GaussianBlur(radius=r))];
    - [Brightness img] and [Contrast img] are the degenerate image that
      building [ImageEnhance.Brightness(img)], [ImageEnhance.Contrast(img)]
      computes;
    - [blend d img f] is [Image.blend(d, img, f)], which is what
      [enhance(f)] returns;
    - [convert_RGB img] is [img.convert('RGB')];
    - [open path] is [Image.open(path)] with its pixels loaded;
    - [save_JPEG img path] is [img.save(path, 'JPEG')]: the exception it
      raises, if any. *)
Record Library : Type := mkLibrary {
  filter_GaussianBlur : Q -> Image -> Py.exn + Image;
  Brightness : Image -> Py.exn + Image;
  Contrast : Image -> Py.exn + Image;
  blend : Image -> Image -> Q -> Py.exn + Image;
  convert_RGB : Image -> Py.exn + Image;
  open : string -> Py.exn + Image;
  save_JPEG : Image -> string -> option Py.exn
}.

End PIL.

(* ===================================================================== *)
(** * imgaug.py *)
(* ===================================================================== *)

Module Imgaug.

Import Py PIL.
Local Open Scope py_scope.

(** Images are objects: a variable holds a reference, [load()] gives
    access to the pixels of the object itself, and a method of the library
    returns a new object.  [files] is what has been saved. *)
Abbreviation ref := nat (only parsing).

Record Mem : Type := mkMem {
  heap : list Image;
  files : list (string * Image)
}.

Definition new_object (v : Image) : M Mem ref :=
  fun w =>
    let m := mem w in
    (inr (length (heap m)), set_mem (mkMem (heap m ++ [v]) (files m)) w).

Definition deref (r : ref) : M Mem Image :=
  fun w =>
    match heap (mem w) !! r with
    | Some v => (inr v, w)
    | None => (inl (PyExc "ReferenceError" "no such object"), w)
    end.

Definition assign (r : ref) (v : Image) : M Mem unit :=
  fun w =>
    let m := mem w in
    (inr tt, set_mem (mkMem (<[r := v]> (heap m)) (files m)) w).

(** [obj.method(...)] for a method that builds a new image. *)
Definition method (r : ref) (f : Image -> exn + Image) : M Mem ref :=
  let* v := deref r in
  let* v' := lift (f v) in
  new_object v'.

(** [pixels[i, j]] and [pixels[i, j] = p], where [pixels = image.load()]. *)
Definition pixel_get (image : ref) (i j : nat) : M Mem Pixel :=
  let* v := deref image in
  match getpixel v i j with
  | Some p => ret p
  | None => raise (PyExc "IndexError" "image index out of range")
  end.

Definition pixel_set (image : ref) (i j : nat) (p : Pixel) : M Mem unit :=
  let* v := deref image in
  match putpixel v i j p with
  | Some v' => assign image v'
  | None => raise (PyExc "IndexError" "image index out of range")
  end.

(** [r, g, b = p]. *)
Definition unpack3 (p : Pixel) : M Mem (Z * Z * Z) :=
  match p with
  | [r; g; b] => ret (r, g, b)
  | _ => raise (PyExc "ValueError" "wrong number of values to unpack")
  end.

Section WithLibrary.

Variable lib : Library.
Variable os : OS.

(** The body of the two loops of [add_noise]. *)
Definition add_noise_pixel (image : ref) (i j : nat) : M Mem unit :=
  let* p := pixel_get image i j in
  let* (r, g, b) := unpack3 p in
  let* noise := randint (-20) 20 in
  pixel_set image i j
    [Z.max 0 (Z.min (r + noise) 255);
     Z.max 0 (Z.min (g + noise) 255);
     Z.max 0 (Z.min (b + noise) 255)].

(** The size of an image never changes, so it is read once. *)
Definition add_noise (image : ref) : M Mem ref :=
  let* v := deref image in
  let* image :=
    (if negb (String.eqb (mode v) "RGB")
     then method image (convert_RGB lib)
     else ret image) in
  let* v := deref image in
  for_each (range (width v)) (fun i =>
    for_each (range (height v)) (fun j =>
      add_noise_pixel image i j)) ;;;
  ret image.

Definition mirror_image (image : ref) : M Mem ref :=
  method image (fun v => inr (transpose v FLIP_LEFT_RIGHT)).

Definition shift_image (image : ref) (shift_x shift_y : Z) : M Mem ref :=
  method image (fun v =>
    inr (transform_AFFINE v (size v)
           (1, 0, inject_Z shift_x, 0, 1, inject_Z shift_y)%Q)).

(** [ImageEnhance.X(img).enhance(random.uniform(0.8, 1.2))]: the enhancer
    is built (its degenerate image computed) before the factor is drawn. *)
Definition enhance (degenerate : Image -> exn + Image) (image : ref)
  : M Mem ref :=
  let* v := deref image in
  let* d := lift (degenerate v) in
  let* factor := uniform (8 # 10) (12 # 10) in
  let* v' := lift (blend lib d v factor) in
  new_object v'.

Definition augmentations : list (ref -> M Mem ref) :=
  [ (fun img =>
       let* radius := uniform (5 # 10) (15 # 10) in
       method img (filter_GaussianBlur lib radius));
    (fun img => enhance (Brightness lib) img);
    (fun img => enhance (Contrast lib) img);
    (fun img => add_noise img);
    (fun img =>
       let* angle := choice [deg90; deg180; deg270] in
       method img (fun v => inr (rotate v angle)));
    (fun img => mirror_image img);
    (fun img =>
       let* shift_x := randint 20 30 in
       let* shift_y := randint (-10) 10 in
       shift_image img shift_x shift_y) ].

(** The two lines that choose the chain. *)
Definition select_augmentations : M Mem (list (ref -> M Mem ref)) :=
  let* num_augmentations := randint 1 4 in
  sample augmentations (Z.min num_augmentations (len augmentations)).

(** [image] is reassigned by the loop, and the handler returns the value
    it has when the exception arrives. *)
Definition augment_image (image : ref) : M Mem ref :=
  let* selected_augmentations := select_augmentations in
  fun w =>
    match for_var selected_augmentations
            (fun augmentation image => augmentation image) image w with
    | ((image, None), w') => ret image w'
    | ((image, Some e), w') =>
        (print ("Error applying augmentation: " +:+ exn_msg e) ;;;
         ret image) w'
    end.

(** [augmented_img.save(output_path, 'JPEG')]. *)
Definition save (image : ref) (path : string) : M Mem unit :=
  let* v := deref image in
  match save_JPEG lib v path with
  | Some e => raise e
  | None =>
      let* m := get_mem in
      put_mem (mkMem (heap m) (files m ++ [(path, v)]))
  end.

(** [img.copy()]. *)
Definition copy_object (img : ref) : M Mem ref :=
  method img (fun v => inr (copy v)).

(** The loop over the copies of one file. *)
Definition make_copies (img : ref) (filename output_folder : string)
  (num_copies : Z) : M Mem unit :=
  for_each (range (Z.to_nat num_copies)) (fun i =>
    let* c := copy_object img in
    let* augmented_img := augment_image c in
    let base_name := fst (splitext os filename) in
    let output_filename :=
      base_name +:+ "_aug_" +:+ str (i + 1) +:+ ".jpg" in
    let output_path := join os output_folder output_filename in
    save augmented_img output_path).

Definition valid_extensions : list string := [".jpg"; ".jpeg"; ".png"; ".bmp"].

(** One round of the loop over the files; the loop variables are the two
    counters [(processed, skipped)]. *)
Definition main_file (input_folder output_folder : string) (num_copies : Z)
  (filename : string) (counters : nat * nat) : M Mem (nat * nat) :=
  let '(processed, skipped) := counters in
  if endswith_any (lower filename) valid_extensions then
    let input_path := join os input_folder filename in
    try_except
      (let* v := lift (open lib input_path) in
       let* img := new_object v in
       make_copies img filename output_folder num_copies ;;;
       let processed := (processed + 1)%nat in
       print ("Processed: " +:+ filename +:+ " (" +:+ str processed +:+ "/"
              +:+ str (length (listdir os input_folder)) +:+ ")") ;;;
       ret (processed, skipped))
      (fun e =>
         print ("Error processing " +:+ filename +:+ ": " +:+ exn_msg e) ;;;
         ret (processed, (skipped + 1)%nat))
  else
    print ("Skipping " +:+ filename +:+ " - not a supported image format") ;;;
    ret (processed, (skipped + 1)%nat).

(** Creating the output folder is not modelled. *)
Definition main (input_folder output_folder : string) (num_copies : Z)
  : M Mem unit :=
  let* (processed, skipped) :=
    for_acc (listdir os input_folder)
      (main_file input_folder output_folder num_copies) (0%nat, 0%nat) in
  print (newline +:+ "Summary: " +:+ str processed +:+ " images processed, "
         +:+ str skipped +:+ " skipped").

End WithLibrary.

End Imgaug.

(* ===================================================================== *)
(** * pydub: the methods of [AudioSegment] that [speechaug.py] calls *)
(* ===================================================================== *)

Module Pydub.

Import Py.
Local Open Scope py_scope.

(** A frame holds one sample for each channel.  The raw data of a segment
    is kept as the list of its frames, so an offset in bytes is an offset
    in frames times the frame width. *)
Abbreviation Frame := (list Z) (only parsing).

Record AudioSegment : Type := mkSegment {
  _data : list Frame;
  sample_width : Z;
  frame_rate : Z;
  channels : Z
}.

Definition raw_data (seg : AudioSegment) : list Frame := _data seg.

(** [seg._spawn(data)] and [seg._spawn(data, overrides={...})]: a new
    segment with the metadata of [seg], overridden. *)
Definition _spawn (seg : AudioSegment) (data : list Frame) : AudioSegment :=
  mkSegment data (sample_width seg) (frame_rate seg) (channels seg).

Definition _spawn_frame_rate (seg : AudioSegment) (data : list Frame)
  (fr : Z) : AudioSegment :=
  mkSegment data (sample_width seg) fr (channels seg).

Definition _spawn_channels (seg : AudioSegment) (data : list Frame)
  (ch : Z) : AudioSegment :=
  mkSegment data (sample_width seg) (frame_rate seg) ch.

Definition _spawn_sample_width (seg : AudioSegment) (data : list Frame)
  (sw : Z) : AudioSegment :=
  mkSegment data sw (frame_rate seg) (channels seg).

(** [seg.frame_count()] and [seg.frame_count(ms=ms)], the latter being
    [ms * (frame_rate / 1000.0)], here the exact product. *)
Definition frame_count (seg : AudioSegment) : Z := len (_data seg).

Definition frame_count_ms (seg : AudioSegment) (ms : Z) : Q :=
  (inject_Z ms * (inject_Z (frame_rate seg) / 1000))%Q.

(** [len(seg)], in milliseconds:
    [round(1000 * (self.frame_count() / self.frame_rate))], here of the
    exact quotient. *)
Definition __len__ (seg : AudioSegment) : exn + Z :=
  if frame_rate seg =? 0 then
    inl (PyExc "ZeroDivisionError" "float division by zero")
  else
    let ms :=
      round_half_even
        (1000 * (inject_Z (frame_count seg) / inject_Z (frame_rate seg)))%Q in
    if ms <? 0 then inl (PyExc "ValueError" "__len__() should return >= 0")
    else inr ms.

(** [seg._parse_position(val)] for an integer [val]:
<<
    if val < 0: val = len(self) - abs(val)
    val = self.frame_count(ms=val)
    return int(val)
>> *)
Definition _parse_position (seg : AudioSegment) (val : Z) : exn + Z :=
  match (if val <? 0
         then match __len__ seg with
              | inl e => inl e
              | inr l => inr (l - Z.abs val)
              end
         else inr val) with
  | inl e => inl e
  | inr val =>
      let q := frame_count_ms seg val in
      inr (Z.quot (Qnum q) (Z.pos (Qden q)))
  end.

(** The frames of silence that [__getitem__] appends:
    [audioop.mul(data[:frame_width], sample_width, 0) * missing_frames],
    for a valid sample width. *)
Definition padding (data : list Frame) (missing_frames : Z) : list Frame :=
  concat (repeat (map (map (fun _ => 0)) (take 1 data))
            (Z.to_nat missing_frames)).

(** [seg[start:stop]] (milliseconds), where [None] is an omitted bound:
<<
    start = millisecond.start if millisecond.start is not None else 0
    end = millisecond.stop if millisecond.stop is not None else len(self)
    start = min(start, len(self))
    end = min(end, len(self))
    start = self._parse_position(start) * self.frame_width
    end = self._parse_position(end) * self.frame_width
    data = self._data[start:end]
    expected_length = end - start
    missing_frames = (expected_length - len(data)) // self.frame_width
    if missing_frames:
        if missing_frames > self.frame_count(ms=2):
            raise TooManyMissingFrames(...)
        silence = audioop.mul(data[:self.frame_width], self.sample_width, 0)
        data += (silence * missing_frames)
    return self._spawn(data)
>> *)
Definition __getitem__ (seg : AudioSegment) (start stop : option Z)
  : exn + AudioSegment :=
  match __len__ seg with
  | inl e => inl e
  | inr l =>
      let start := match start with Some s => s | None => 0 end in
      let stop := match stop with Some s => s | None => l end in
      let start := Z.min start l in
      let stop := Z.min stop l in
      match _parse_position seg start with
      | inl e => inl e
      | inr first =>
          match _parse_position seg stop with
          | inl e => inl e
          | inr last =>
              let data := py_slice (_data seg) first last in
              let expected_length := last - first in
              let missing_frames := expected_length - len data in
              if missing_frames =? 0 then inr (_spawn seg data)
              else if Qle_bool (frame_count_ms seg 2) (inject_Z missing_frames)
                      && negb (Qeq_bool (frame_count_ms seg 2)
                                 (inject_Z missing_frames))
              then inl (PyExc "TooManyMissingFrames"
                          "You should never be filling in more than 2 ms with silence here")
              else inr (_spawn seg (data ++ padding data missing_frames))
          end
      end
  end.

(** [audioop.add(fragment1, fragment2, width)]: the sum sample by sample,
    clipped to the range of the width. *)
Definition clip (width : Z) (v : Z) : Z :=
  let maxval := 2 ^ (8 * width - 1) - 1 in
  let minval := - 2 ^ (8 * width - 1) in
  Z.max minval (Z.min v maxval).

Fixpoint map2 {A B C} (f : A -> B -> C) (l1 : list A) (l2 : list B)
  : list C :=
  match l1, l2 with
  | a :: t1, b :: t2 => f a b :: map2 f t1 t2
  | _, _ => []
  end.

Definition audioop_add (fragment1 fragment2 : list Frame) (width : Z)
  : exn + list Frame :=
  if negb (existsb (Z.eqb width) [1; 2; 3; 4]) then
    inl (PyExc "error" "Size should be 1, 2, 3 or 4")
  else if negb (len fragment1 =? len fragment2) then
    inl (PyExc "error" "Lengths should be the same")
  else
    inr (map2 (map2 (fun a b => clip width (a + b)))
           fragment1 fragment2).

(** The calls whose arithmetic is not modelled.
    - [ratecv data width nchannels inrate outrate] is the data that
      [audioop.ratecv] returns;
    - [lin2lin data width newwidth] is [audioop.lin2lin];
    - [convert_channels data width nchannels newchannels] is the data that
      [set_channels] computes when the number of channels changes;
    - [mul data width factor] is [audioop.mul];
    - [db_to_float db] is [10 ** (db / 20)];
    - [dBFS seg] is the property [seg.dBFS];
    - [noise_segment kind duration tape] is
      [WhiteNoise().to_audio_segment(duration=duration)] for the kind
      ["white"], and so on: the generator draws from [random], so it is
      given the tape and returns what is left of it;
    - [pow x y] is [x ** y] on floats;
    - [from_file path format] is [AudioSegment.from_file(path, format)]
      ([from_mp3], [from_wav] and [from_ogg] are [from_file] with the
      format given);
    - [export seg path format] is [seg.export(path, format=format)]: the
      exception it raises, if any. *)
Record Library : Type := mkLibrary {
  ratecv : list Frame -> Z -> Z -> Z -> Z -> exn + list Frame;
  lin2lin : list Frame -> Z -> Z -> exn + list Frame;
  convert_channels : list Frame -> Z -> Z -> Z -> exn + list Frame;
  mul : list Frame -> Z -> pyfloat -> exn + list Frame;
  db_to_float : pyfloat -> exn + pyfloat;
  dBFS : AudioSegment -> exn + pyfloat;
  noise_segment : string -> Z -> list Z -> (exn + AudioSegment) * list Z;
  pow : pyfloat -> pyfloat -> exn + pyfloat;
  from_file : string -> string -> exn + AudioSegment;
  export : AudioSegment -> string -> string -> option exn
}.

(** A computation on values: it returns or raises. *)
Definition bindE {A B} (r : exn + A) (k : A -> exn + B) : exn + B :=
  match r with
  | inl e => inl e
  | inr a => k a
  end.

Section WithLibrary.

Variable lib : Library.

(** [seg.set_frame_rate(frame_rate)]. *)
Definition set_frame_rate (seg : AudioSegment) (fr : Z) : exn + AudioSegment :=
  if fr =? frame_rate seg then inr seg
  else
    bindE (match _data seg with
           | [] => inr []
           | _ => ratecv lib (_data seg) (sample_width seg) (channels seg)
                    (frame_rate seg) fr
           end)
      (fun converted => inr (_spawn_frame_rate seg converted fr)).

(** [seg.set_channels(channels)]. *)
Definition set_channels (seg : AudioSegment) (ch : Z) : exn + AudioSegment :=
  if ch =? channels seg then inr seg
  else
    bindE (convert_channels lib (_data seg) (sample_width seg) (channels seg) ch)
      (fun converted => inr (_spawn_channels seg converted ch)).

(** [seg.set_sample_width(sample_width)]. *)
Definition set_sample_width (seg : AudioSegment) (sw : Z)
  : exn + AudioSegment :=
  if sw =? sample_width seg then inr seg
  else
    bindE (lin2lin lib (_data seg) (sample_width seg) sw)
      (fun converted => inr (_spawn_sample_width seg converted sw)).

(** [AudioSegment._sync(seg1, seg2)]: both segments brought to the larger
    number of channels, frame rate and sample width of the two. *)
Definition _sync1 (seg : AudioSegment) (ch fr sw : Z) : exn + AudioSegment :=
  bindE (set_channels seg ch) (fun s =>
  bindE (set_frame_rate s fr) (fun s =>
  set_sample_width s sw)).

Definition _sync (seg1 seg2 : AudioSegment)
  : exn + (AudioSegment * AudioSegment) :=
  let ch := Z.max (channels seg1) (channels seg2) in
  let fr := Z.max (frame_rate seg1) (frame_rate seg2) in
  let sw := Z.max (sample_width seg1) (sample_width seg2) in
  bindE (_sync1 seg1 ch fr sw) (fun s1 =>
  bindE (_sync1 seg2 ch fr sw) (fun s2 =>
  inr (s1, s2))).

(** [seg.apply_gain(volume_change)], which is what [seg + number] is, and
    [seg - number] with the number negated. *)
Definition apply_gain (seg : AudioSegment) (volume_change : pyfloat)
  : exn + AudioSegment :=
  bindE (db_to_float lib volume_change) (fun factor =>
  bindE (mul lib (_data seg) (sample_width seg) factor) (fun data =>
  inr (_spawn seg data))).

(** [seg1 + seg2], which is [seg1.append(seg2, crossfade=0)]. *)
Definition append (seg1 seg2 : AudioSegment) : exn + AudioSegment :=
  bindE (_sync seg1 seg2) (fun '(s1, s2) =>
  inr (_spawn s1 (_data s1 ++ _data s2))).

(** [AudioSegment.silent(duration=duration)]: mono, 16 bit, 11025 Hz,
    [int(11025 * (duration / 1000.0))] frames, here of the exact
    product. *)
Definition silent (duration : Z) : AudioSegment :=
  let q := (11025 * (inject_Z duration / 1000))%Q in
  let frames := Z.quot (Qnum q) (Z.pos (Qden q)) in
  mkSegment (repeat [0] (Z.to_nat frames)) 2 11025 1.

(** [seg1.overlay(seg2, position=position)], once, with no gain:
<<
    seg1, seg2 = AudioSegment._sync(self, seg)
    sample_width = seg1.sample_width
    spawn = seg1._spawn
    output.write(seg1[:position]._data)
    seg1 = seg1[position:]._data
    seg2 = seg2._data
    pos = 0
    seg1_len = len(seg1)
    seg2_len = len(seg2)
    while times:                                   # times = 1
        remaining = max(0, seg1_len - pos)
        if seg2_len >= remaining:
            seg2 = seg2[:remaining]
            seg2_len = remaining
            times = 1
        output.write(audioop.add(seg1[pos:pos + seg2_len], seg2, sample_width))
        pos += seg2_len
        times -= 1
    output.write(seg1[pos:])
    return spawn(data=output)
>> *)
Definition overlay (self seg : AudioSegment) (position : Z)
  : exn + AudioSegment :=
  bindE (_sync self seg) (fun '(seg1, seg2) =>
  let sample_width := sample_width seg1 in
  bindE (__getitem__ seg1 None (Some position)) (fun head =>
  bindE (__getitem__ seg1 (Some position) None) (fun tail =>
  let data1 := _data tail in
  let data2 := _data seg2 in
  let pos := 0 in
  let seg1_len := len data1 in
  let seg2_len := len data2 in
  let remaining := Z.max 0 (seg1_len - pos) in
  let data2 :=
    if remaining <=? seg2_len then py_slice data2 0 remaining else data2 in
  let seg2_len :=
    if remaining <=? seg2_len then remaining else seg2_len in
  bindE (audioop_add (py_slice data1 pos (pos + seg2_len)) data2 sample_width)
    (fun added =>
  let pos := pos + seg2_len in
  inr (_spawn seg1 (_data head ++ added ++ py_slice data1 pos (len data1))))))).

End WithLibrary.

End Pydub.

(* ===================================================================== *)
(** * speechaug.py *)
(* ===================================================================== *)

Module Speechaug.

Import Py Pydub.
Local Open Scope py_scope.

(** Segments are immutable: every method of pydub returns a new segment or
    the one it was given, so a variable holds the segment itself.  [Mem] is
    what has been exported. *)
Abbreviation Mem := (list (string * AudioSegment)) (only parsing).

Section WithLibrary.

Variable lib : Library.
Variable os : OS.

(** [Generator().to_audio_segment(duration=duration_ms)]. *)
Definition to_audio_segment (kind : string) (duration_ms : Z)
  : M Mem AudioSegment :=
  fun w =>
    let '(r, tape) := noise_segment lib kind duration_ms (rng w) in
    (r, set_rng tape w).

Definition add_noise (audio : AudioSegment) (noise_type : string)
  (noise_level : pyfloat) : M Mem AudioSegment :=
  let* duration_ms := lift (__len__ audio) in
  try_except
    (let* noise :=
       (if String.eqb noise_type "white" then
          to_audio_segment "white" duration_ms
        else if String.eqb noise_type "pink" then
          to_audio_segment "pink" duration_ms
        else if String.eqb noise_type "brown" then
          to_audio_segment "brown" duration_ms
        else
          raise (PyExc "ValueError" ("Invalid noise type: " +:+ noise_type))) in
     let* l := lift (__len__ audio) in
     if l =? 0 then ret audio
     else
       let* noise_dBFS := lift (dBFS lib noise) in
       let* audio_dBFS := lift (dBFS lib audio) in
       let* noise :=
         lift (apply_gain lib noise
                 (fneg (fsub (fsub noise_dBFS audio_dBFS) noise_level))) in
       lift (overlay lib audio noise 0))
    (fun e =>
       print ("Error adding noise: " +:+ exn_msg e) ;;;
       ret audio).

Definition time_stretch (audio : AudioSegment) (rate : pyfloat)
  : M Mem AudioSegment :=
  try_except
    (let* fr := lift (int_of_float (fmul_int (frame_rate audio) rate)) in
     lift (set_frame_rate lib
             (_spawn_frame_rate audio (raw_data audio) fr)
             (frame_rate audio)))
    (fun e =>
       print ("Error in time stretching: " +:+ exn_msg e) ;;;
       ret audio).

Definition pitch_shift (audio : AudioSegment) (semitones : pyfloat)
  : M Mem AudioSegment :=
  try_except
    (let* ratio := lift (pow lib (Fin 2) (fdiv_int semitones 12)) in
     let* new_sample_rate :=
       lift (int_of_float (fmul_int (frame_rate audio) ratio)) in
     lift (set_frame_rate lib
             (_spawn_frame_rate audio (raw_data audio) new_sample_rate)
             (frame_rate audio)))
    (fun e =>
       print ("Error in pitch shifting: " +:+ exn_msg e) ;;;
       ret audio).

Definition volume_adjust (audio : AudioSegment) (db_change : pyfloat)
  : M Mem AudioSegment :=
  try_except
    (lift (apply_gain lib audio db_change))
    (fun e =>
       print ("Error adjusting volume: " +:+ exn_msg e) ;;;
       ret audio).

Definition reverb_effect (audio : AudioSegment) (decay : pyfloat)
  : M Mem AudioSegment :=
  try_except
    (let orig := audio in
     let* echo := lift (apply_gain lib audio (fneg (Fin 6))) in
     let* delay := lift (int_of_float (fmul_int 1000 decay)) in
     let silence := silent delay in
     let* echo := lift (append lib silence echo) in
     let* result := lift (overlay lib orig echo delay) in
     ret result)
    (fun e =>
       print ("Error adding reverb: " +:+ exn_msg e) ;;;
       ret audio).

Definition augmentations : list (AudioSegment -> M Mem AudioSegment) :=
  [ (fun a =>
       let* noise_type := choice ["white"; "pink"; "brown"] in
       let* noise_level := uniform (- (20)) (- (10)) in
       add_noise a noise_type (Fin noise_level));
    (fun a =>
       let* rate := uniform (9 # 10) (11 # 10) in
       time_stretch a (Fin rate));
    (fun a =>
       let* semitones := uniform (- (2)) 2 in
       pitch_shift a (Fin semitones));
    (fun a =>
       let* db_change := uniform (- (3)) 3 in
       volume_adjust a (Fin db_change));
    (fun a =>
       let* decay := uniform (1 # 10) (5 # 10) in
       reverb_effect a (Fin decay)) ].

(** The two lines that choose the chain. *)
Definition select_augmentations
  : M Mem (list (AudioSegment -> M Mem AudioSegment)) :=
  let* num_effects := randint 1 3 in
  sample augmentations (Z.min num_effects (len augmentations)).

Definition augment_audio (audio : AudioSegment) : M Mem AudioSegment :=
  let* selected_augmentations := select_augmentations in
  let result := audio in
  for_acc selected_augmentations
    (fun augmentation result => augmentation result) result.

(** [seg.export(path, format=format)]. *)
Definition export_to (seg : AudioSegment) (path format : string)
  : M Mem unit :=
  match export lib seg path format with
  | Some e => raise e
  | None => let* m := get_mem in put_mem (m ++ [(path, seg)])
  end.

(** [file_ext[1:]]. *)
Definition tail_of (s : string) : string :=
  match s with
  | EmptyString => EmptyString
  | String _ t => t
  end.

(** The loop over the augmentations of one file. *)
Definition make_augmentations (audio : AudioSegment)
  (filename output_folder base_name file_ext : string)
  (num_augmentations : Z) : M Mem unit :=
  for_each (range (Z.to_nat num_augmentations)) (fun i =>
    try_except
      (let* augmented_audio := augment_audio audio in
       let output_path :=
         join os output_folder
           (base_name +:+ "_aug_" +:+ str (i + 1) +:+ file_ext) in
       export_to augmented_audio output_path (tail_of file_ext))
      (fun e =>
         print ("Error creating augmentation " +:+ str (i + 1) +:+ " for "
                +:+ filename +:+ ": " +:+ exn_msg e))).

Definition valid_extensions : list string := [".mp3"; ".wav"; ".flac"; ".ogg"].

(** The chain of [if]/[elif] that loads the file.  [audio] is a local
    variable of [main]: a round in which no branch is taken reads the clip
    that an earlier round bound, and raises when no round has bound
    one. *)
Definition load (input_path file_ext : string)
  (audio : option AudioSegment) : exn + AudioSegment :=
  if String.eqb file_ext ".mp3" then from_file lib input_path "mp3"
  else if String.eqb file_ext ".wav" then from_file lib input_path "wav"
  else if String.eqb file_ext ".flac" then from_file lib input_path "flac"
  else if String.eqb file_ext ".ogg" then from_file lib input_path "ogg"
  else
    match audio with
    | Some a => inr a
    | None =>
        inl (PyExc "UnboundLocalError"
               "cannot access local variable 'audio' where it is not associated with a value")
    end.

(** One round of the loop over the files; the loop variables are the two
    counters and [audio], [(processed, skipped, audio)].  A round that
    raises before it binds [audio] leaves it as it was. *)
Definition main_file (input_folder output_folder : string)
  (num_augmentations : Z) (total_files : nat) (filename : string)
  (vars : nat * nat * option AudioSegment)
  : M Mem (nat * nat * option AudioSegment) :=
  let '(processed, skipped, audio_var) := vars in
  let input_path := join os input_folder filename in
  let file_ext := lower (snd (splitext os filename)) in
  let loaded := load input_path file_ext audio_var in
  let audio_var :=
    match loaded with
    | inr a => Some a
    | inl _ => audio_var
    end in
  try_except
    (let* audio := lift loaded in
     let base_name := fst (splitext os filename) in
     let output_path :=
       join os output_folder (base_name +:+ "_original" +:+ file_ext) in
     export_to audio output_path (tail_of file_ext) ;;;
     make_augmentations audio filename output_folder base_name file_ext
       num_augmentations ;;;
     let processed := (processed + 1)%nat in
     print ("Processed: " +:+ filename +:+ " (" +:+ str processed +:+ "/"
            +:+ str total_files +:+ ")") ;;;
     ret (processed, skipped, audio_var))
    (fun e =>
       print ("Error processing " +:+ filename +:+ ": " +:+ exn_msg e) ;;;
       ret (processed, (skipped + 1)%nat, audio_var)).

(** Creating the output folder is not modelled. *)
Definition main (input_folder output_folder : string) (num_augmentations : Z)
  : M Mem unit :=
  let audio_files :=
    List.filter (fun f =>
                   isfile os (join os input_folder f)
                   && endswith_any (lower f) valid_extensions)
      (listdir os input_folder) in
  let total_files := length audio_files in
  print ("Found " +:+ str total_files +:+ " audio files to process") ;;;
  let* (processed, skipped, _) :=
    for_acc audio_files
      (main_file input_folder output_folder num_augmentations total_files)
      (0%nat, 0%nat, None) in
  print (newline +:+ "Summary: " +:+ str processed
         +:+ " audio files processed, " +:+ str skipped +:+ " skipped") ;;;
  print ("Total augmentations created: "
         +:+ str_Z (Z.of_nat processed * num_augmentations)).

End WithLibrary.

End Speechaug.

(* ===================================================================== *)
(** * Instances for concrete runs *)
(* ===================================================================== *)

Module Fixtures.

Import Py.
Local Open Scope py_scope.

(** An [os] whose folder lists nothing and whose paths are
    [folder/name]. *)
Definition os0 : OS :=
  mkOS (fun _ => []) (fun _ => true) (fun name => (name, ""))
    (fun folder name => folder +:+ "/" +:+ name).

(** An instance of the calls to pydub that are not modelled.  The
    statements below hold for every instance; this one stands in where a
    statement is evaluated on a concrete clip.  Its arithmetic is crude: a
    gain of at most -6 dB halves the samples and any other gain keeps
    them, conversions repeat or drop frames, every clip measures -20 dBFS
    and the noise generators give silence. *)
Definition halve (data : list Pydub.Frame) : list Pydub.Frame :=
  map (map (fun v => v / 2)) data.

Definition pydub0 : Pydub.Library :=
  Pydub.mkLibrary
    (fun data _ _ inrate outrate =>
       if (inrate <=? 0) || (outrate <=? 0)
       then inl (PyExc "error" "sampling rate not > 0")
       else
         inr (map (fun i => nth (Z.to_nat (Z.of_nat i * inrate / outrate)) data [])
                (seq 0 (Z.to_nat (len data * outrate / inrate)))))
    (fun data _ _ => inr data)
    (fun data _ _ newchannels =>
       inr (map (fun f => repeat (hd 0 f) (Z.to_nat newchannels)) data))
    (fun data _ factor =>
       match factor with
       | Fin q => inr (if Qle_bool q (1 # 2) then halve data else data)
       | _ => inl (PyExc "ValueError" "cannot convert float NaN to integer")
       end)
    (fun db =>
       match db with
       | Fin q => inr (if Qle_bool q (- (6)) then Fin (1 # 2) else Fin 1)
       | NegInf => inr (Fin 0)
       | _ => inl (PyExc "OverflowError" "Numerical result out of range")
       end)
    (fun _ => inr (Fin (- (20))))
    (fun _ duration tape =>
       (inr (Pydub.mkSegment
               (repeat [0] (Z.to_nat (duration * 44100 / 1000))) 2 44100 1),
        tape))
    (fun _ y =>
       match y with
       | Fin q => if Qeq_bool q 0 then inr (Fin 1)
                  else if Qle_bool 0 q then inr (Fin 2) else inr (Fin (1 # 2))
       | _ => inl (PyExc "OverflowError" "Numerical result out of range")
       end)
    (fun _ _ => inl (PyExc "FileNotFoundError" "No such file or directory"))
    (fun _ _ _ => None).

(** A mono, 16 bit clip at 11025 Hz with the samples [1, 2, ..., n]. *)
Definition ramp (n : nat) : Pydub.AudioSegment :=
  Pydub.mkSegment (map (fun i => [Z.of_nat i + 1]) (seq 0 n)) 2 11025 1.

(** What the instance above makes of [ramp 30] read at 22050 Hz and set
    back to 11025 Hz: every other frame, so the samples [1, 3, ..., 29]. *)
Definition ramp_octave_up : Pydub.AudioSegment :=
  Pydub.mkSegment (map (fun i => [2 * Z.of_nat i + 1]) (seq 0 15)) 2 11025 1.






(** An instance of the calls to Pillow that are not modelled.  Like
    Pillow it refuses to blur or blend an image in a palette or bilevel
    mode ("image has wrong mode") and to write a palette image as JPEG;
    what the calls compute when they succeed is a stand-in: the blur gives
    the image back, the degenerate image is black, the blend is the
    interpolation of the band values rounded down, and the conversion to
    RGB keeps, repeats or drops bands. *)
Definition paletted (img : PIL.Image) : bool :=
  existsb (String.eqb (PIL.mode img)) ["P"; "1"].

Definition wrong_mode : exn := PyExc "ValueError" "image has wrong mode".

Definition to_rgb (p : PIL.Pixel) : PIL.Pixel :=
  match p with
  | [] => [0; 0; 0]
  | [v] => [v; v; v]
  | [v; _] => [v; v; v]
  | r :: g :: b :: _ => [r; g; b]
  end.

Definition pil0 : PIL.Library :=
  PIL.mkLibrary
    (fun _ img => if paletted img then inl wrong_mode else inr img)
    (fun img =>
       inr (PIL.build (PIL.mode img) (PIL.width img) (PIL.height img)
              (fun _ _ => PIL.zero_pixel (PIL.mode img))))
    (fun img =>
       inr (PIL.build (PIL.mode img) (PIL.width img) (PIL.height img)
              (fun _ _ => PIL.zero_pixel (PIL.mode img))))
    (fun d img factor =>
       if paletted img then inl wrong_mode
       else
         inr (PIL.build (PIL.mode img) (PIL.width img) (PIL.height img)
                (fun x y =>
                   Pydub.map2
                     (fun a b =>
                        Z.max 0 (Z.min 255
                          (Qfloor (inject_Z a * (1 - factor)
                                   + inject_Z b * factor)%Q)))
                     (PIL.px d x y) (PIL.px img x y))))
    (fun img =>
       inr (PIL.build "RGB" (PIL.width img) (PIL.height img)
              (fun x y => to_rgb (PIL.px img x y))))
    (fun _ => inl (PyExc "FileNotFoundError" "No such file or directory"))
    (fun img _ =>
       if paletted img then Some (PyExc "OSError" "cannot write mode P as JPEG")
       else None).

(** The same with a writer that never refuses. *)
Definition pil1 : PIL.Library :=
  PIL.mkLibrary (PIL.filter_GaussianBlur pil0) (PIL.Brightness pil0)
    (PIL.Contrast pil0) (PIL.blend pil0) (PIL.convert_RGB pil0)
    (PIL.open pil0) (fun _ _ => None).

(** A library that opens every path as the image [v] and refuses to
    write to the path [bad]. *)
Definition pil_refusing (v : PIL.Image) (bad : string) : PIL.Library :=
  PIL.mkLibrary (PIL.filter_GaussianBlur pil0) (PIL.Brightness pil0)
    (PIL.Contrast pil0) (PIL.blend pil0) (PIL.convert_RGB pil0)
    (fun _ => inr v)
    (fun _ path =>
       if String.eqb path bad then Some (PyExc "OSError" "disk full")
       else None).

(** Two small images: a palette image of two pixels, and an RGB image of
    two by one. *)
Definition palette_2x1 : PIL.Image := PIL.mkImage "P" (2%nat, 1%nat) [[[1]; [2]]].

Definition rgb_2x1 : PIL.Image :=
  PIL.mkImage "RGB" (2%nat, 1%nat) [[[250; 10; 100]; [0; 128; 255]]].

Definition gray_1x1 : PIL.Image :=
  PIL.mkImage "RGB" (1%nat, 1%nat) [[[100; 100; 100]]].

Definition rgb_2x2 : PIL.Image :=
  PIL.mkImage "RGB" (2%nat, 2%nat)
    [[[250; 10; 100]; [0; 128; 255]]; [[1; 2; 3]; [4; 5; 6]]].

(** A world that holds the objects [objs], with nothing saved. *)
Definition img_world (objs : list PIL.Image) (tape : list Z)
  : World Imgaug.Mem :=
  mkWorld (Imgaug.mkMem objs []) tape [].

Definition world0 {Mem} (m : Mem) (tape : list Z) : World Mem :=
  mkWorld m tape [].

(** An [os] whose folder lists three names, one of them not the name of
    an image or of a clip, and that splits every name into [b] and
    [.wav]. *)
Definition os1 : OS :=
  mkOS (fun _ => ["a.PNG"; "notes.txt"; "b.wav"]) (fun _ => true)
    (fun name => ("b", ".wav"))
    (fun folder name => folder +:+ "/" +:+ name).

(** A library that loads [ramp 30] from every path. *)
Definition pydub1 : Pydub.Library :=
  Pydub.mkLibrary (Pydub.ratecv pydub0) (Pydub.lin2lin pydub0)
    (Pydub.convert_channels pydub0) (Pydub.mul pydub0)
    (Pydub.db_to_float pydub0) (Pydub.dBFS pydub0)
    (Pydub.noise_segment pydub0) (Pydub.pow pydub0)
    (fun _ _ => inr (ramp 30)) (Pydub.export pydub0).

(** The run used for C1: a palette image of two pixels; the raw outcomes
    1, 5 and 0 select two kernels, the mirror and then the blur.  The
    mirror returns a new image, the blur refuses a palette image. *)
Definition mirror_then_blur
  : list (Imgaug.ref -> M Imgaug.Mem Imgaug.ref) :=
  [ (fun img => Imgaug.mirror_image img);
    (fun img =>
       let* radius := uniform (5 # 10) (15 # 10) in
       Imgaug.method img (PIL.filter_GaussianBlur pil0 radius)) ].

(** The run used for C7: a clip of 30 frames, 3 ms long; the instance
    measures every clip at -20 dBFS, so for the level -15 the gain is
    -15. *)
Definition silence_3ms : Pydub.AudioSegment :=
  Pydub.mkSegment (repeat [0] 132) 2 44100 1.

End Fixtures.

(* ===================================================================== *)
(** * Vocabulary of the statements about imgaug.py *)
(* ===================================================================== *)

Module ImgaugSpec.

Import Py PIL Imgaug.

(** The objects of a world. *)
Definition hp (w : World Mem) : list Image := heap (mem w).

(** ** Which objects a computation can change

    [keeps n0 c w w']: from [w] to [w'] no object is lost, and the objects
    below [n0] other than [c] are the same.  The objects a kernel may write
    to are [c] and those created since. *)
Definition keeps (n0 : nat) (c : ref) (w w' : World Mem) : Prop :=
  (length (hp w) <= length (hp w'))%nat
  /\ (forall r, (r < n0)%nat -> r <> c -> hp w' !! r = hp w !! r)
  /\ files (mem w') = files (mem w).

Definition writable (n0 : nat) (c cur : ref) : Prop :=
  cur = c \/ (n0 <= cur)%nat.

(** What a kernel does to the objects: it changes none below [n0] but
    [c], and what it returns is an object that later kernels may write
    to. *)
Definition kernel_post (n0 : nat) (c : ref) (w : World Mem)
  (r : exn + ref) (w' : World Mem) : Prop :=
  keeps n0 c w w'
  /\ match r with
     | inr cur' => writable n0 c cur' /\ is_Some (hp w' !! cur')
     | inl _ => True
     end.

Definition kernel_safe (k : ref -> M Mem ref) : Prop :=
  forall n0 c cur w,
    (n0 <= length (hp w))%nat -> writable n0 c cur ->
    outcome (k cur) w (kernel_post n0 c w).

Definition clamp (x : Z) : Z := Z.max 0 (Z.min x 255).

(** The pixel [add_noise] writes for the pixel [p] and the noise [n]. *)
Definition noised (n : Z) (p : Pixel) : Pixel :=
  match p with
  | [r; g; b] => [clamp (r + n); clamp (g + n); clamp (b + n)]
  | _ => p
  end.

(** The noise that the raw outcome [raw] stands for. *)
Definition noise_of (raw : Z) : Z := -20 + raw mod 41.

(** The number of kernels the raw outcome [raw] of the first draw stands
    for. *)
Definition num_of (raw : Z) : Z := 1 + raw mod 4.

(** The chain of the selected kernels, as [augment_image] runs it. *)
Definition chain (sel : list (ref -> M Mem ref)) (image : ref)
  : World Mem -> (ref * option exn) * World Mem :=
  for_var sel (fun augmentation image => augmentation image) image.

(** The world after [k] rounds of the loops on an image of three bands. *)
Definition noised_upto (image : ref) (v : Image) (w : World Mem) (k : nat)
  (w2 : World Mem) : Prop :=
  exists v2,
    w2 = mkWorld (mkMem (<[image := v2]> (hp w)) (files (mem w)))
           (drop k (rng w)) (stdout w)
    /\ mode v2 = mode v /\ size v2 = size v
    /\ forall x y,
         getpixel v2 x y =
           if decide ((x < width v)%nat /\ (y < height v)%nat
                      /\ (x * height v + y < k)%nat)
           then Some (noised (noise_of (nth (x * height v + y) (rng w) 0))
                        (px v x y))
           else getpixel v x y.

(** A pixel of three values between 0 and 255. *)
Definition in_byte_range (p : option Pixel) : Prop :=
  exists r g b,
    p = Some [r; g; b]
    /\ 0 <= r <= 255 /\ 0 <= g <= 255 /\ 0 <= b <= 255.

(** [saved] is what some run of [augment_image] returns when it is given
    an object [c] other than [img] that holds a copy of the image [v],
    while [img] holds [v] before the run and after it. *)
Definition variant_of_copy (lib : Library) (img : ref) (v saved : Image)
  : Prop :=
  exists w1 c r w2,
    c <> img
    /\ hp w1 !! img = Some v
    /\ hp w1 !! c = Some v
    /\ augment_image lib c w1 = (inr r, w2)
    /\ hp w2 !! img = Some v
    /\ hp w2 !! r = Some saved.

(** NoiseInjection as the specification words it, to compare [add_noise]
    with: "for every pixel, for each of R, G, B independently draw integer
    noise ~ U{-20,20}, add to channel, clamp to [0,255]".  Three draws are
    made for each pixel, in the order in which [add_noise] visits the
    pixels. *)
Definition NoiseInjection_independent (v : Image) (tape : list Z)
  : Image * list Z :=
  (build (mode v) (width v) (height v)
     (fun x y =>
        match px v x y with
        | [r; g; b] =>
            let k := (3 * (x * height v + y))%nat in
            [clamp (r + noise_of (nth k tape 0));
             clamp (g + noise_of (nth (k + 1) tape 0));
             clamp (b + noise_of (nth (k + 2) tape 0))]
        | p => p
        end),
   drop (3 * (width v * height v)) tape).

(** The path of the copy [i] (from 0) of the file [filename], and whether
    the driver takes a name for that of an image. *)
Definition copy_path (os : OS) (filename output_folder : string) (i : nat)
  : string :=
  join os output_folder
    (fst (splitext os filename) +:+ "_aug_" +:+ str (i + 1) +:+ ".jpg").

Definition supported (filename : string) : bool :=
  endswith_any (lower filename) valid_extensions.

(** The last line that [main] prints. *)
Definition summary (processed skipped : nat) : string :=
  newline +:+ "Summary: " +:+ str processed +:+ " images processed, "
  +:+ str skipped +:+ " skipped".

End ImgaugSpec.

(* ===================================================================== *)
(** * Vocabulary of the statements about speechaug.py *)
(* ===================================================================== *)

Module SpeechaugSpec.

Import Py Pydub Speechaug.
Local Open Scope string_scope.
Local Open Scope list_scope.
Local Open Scope Z_scope.

(** A kernel that, given a clip with a positive frame rate, returns a clip
    with a positive frame rate and does not raise. *)
Definition kernel_total (k : AudioSegment -> M Mem AudioSegment) : Prop :=
  forall a w,
    0 < frame_rate a ->
    outcome (k a) w (fun r _ => exists a', r = inr a' /\ 0 < frame_rate a').

(** The number of effects the raw outcome [raw] of the first draw stands
    for. *)
Definition num_effects_of (raw : Z) : Z := 1 + raw mod 3.

(** [a] is what some run of [augment_audio] makes of [audio]. *)
Definition augmented_from (lib : Library) (audio a : AudioSegment) : Prop :=
  exists w1 w2, augment_audio lib audio w1 = (inr a, w2).


(** A computation that exports nothing and prints nothing. *)
Definition quiet {A} (c : M Mem A) : Prop :=
  forall w, mem (snd (c w)) = mem w /\ stdout (snd (c w)) = stdout w.

(** What a guarded kernel does with [audio]: it returns a clip and prints
    nothing, or it returns [audio] itself and prints one line, [prefix]
    followed by the message of an exception; it exports nothing. *)
Definition passes_or_logs (prefix : string) (audio : AudioSegment)
  (w : World Mem) (r : exn + AudioSegment) (w' : World Mem) : Prop :=
  mem w' = mem w
  /\ ((exists a, r = inr a /\ stdout w' = stdout w)
      \/ (exists e,
            r = inr audio
            /\ stdout w' = stdout w ++ [prefix +:+ exn_msg e])).

(** The format of [a'] is that of [a], or at least that of [a]. *)
Definition same_format (a a' : AudioSegment) : Prop :=
  frame_rate a' = frame_rate a
  /\ channels a' = channels a
  /\ sample_width a' = sample_width a.

Definition at_least (a a' : AudioSegment) : Prop :=
  frame_rate a <= frame_rate a'
  /\ channels a <= channels a'
  /\ sample_width a <= sample_width a'.

Definition kernel_keeps_format (k : AudioSegment -> M Mem AudioSegment)
  : Prop :=
  forall a w,
    0 < frame_rate a ->
    outcome (k a) w (fun r _ => exists a', r = inr a' /\ at_least a a').

(** From [w] to [w'] at most [n] lines were printed. *)
Definition printed_at_most (n : nat) (w w' : World Mem) : Prop :=
  exists lines, stdout w' = stdout w ++ lines /\ (length lines <= n)%nat.

(** A kernel that prints at most one line. *)
Definition kernel_logs (k : AudioSegment -> M Mem AudioSegment) : Prop :=
  forall a w,
    0 < frame_rate a ->
    outcome (k a) w (fun _ w' => printed_at_most 1 w w').

(** The path of the augmentation [i] (from 0) of a file. *)
Definition augmentation_path (os : OS)
  (output_folder base_name file_ext : string) (i : nat) : string :=
  join os output_folder (base_name +:+ "_aug_" +:+ str (i + 1) +:+ file_ext).

(** The files that the audio driver finds in a folder. *)
Definition audio_files (os : OS) (input_folder : string) : list string :=
  List.filter (fun f =>
                 isfile os (join os input_folder f)
                 && endswith_any (lower f) valid_extensions)
    (listdir os input_folder).

(** The last two lines that [main] prints. *)
Definition audio_summary (processed skipped : nat) : string :=
  newline +:+ "Summary: " +:+ str processed
  +:+ " audio files processed, " +:+ str skipped +:+ " skipped".

Definition total_line (processed : nat) (num_augmentations : Z) : string :=
  "Total augmentations created: "
  +:+ str_Z (Z.of_nat processed * num_augmentations).

End SpeechaugSpec.

(* ===================================================================== *)
(** * Reasoning about computations *)
(* ===================================================================== *)

Module PyFacts.

Import Py.
Local Open Scope py_scope.

Section Outcome.

Context {Mem : Type}.

Lemma outcome_run {A} (c : M Mem A) w Q r w' :
  outcome c w Q -> c w = (r, w') -> Q r w'.
Proof. unfold outcome. intros H E. by rewrite E in H. Qed.

Lemma outcome_weaken {A} (c : M Mem A) w (Q Q' : exn + A -> World Mem -> Prop) :
  outcome c w Q -> (forall r w', Q r w' -> Q' r w') -> outcome c w Q'.
Proof. unfold outcome. auto. Qed.

Lemma outcome_ret {A} (a : A) w (Q : exn + A -> World Mem -> Prop) :
  Q (inr a) w -> outcome (ret a) w Q.
Proof. done. Qed.

Lemma outcome_raise {A} e w (Q : exn + A -> World Mem -> Prop) :
  Q (inl e) w -> outcome (raise e) w Q.
Proof. done. Qed.

Lemma outcome_bind {A B} (c : M Mem A) (k : A -> M Mem B) w
  (Q : exn + B -> World Mem -> Prop) :
  outcome c w (fun r w1 =>
    match r with
    | inl e => Q (inl e) w1
    | inr a => outcome (k a) w1 Q
    end) ->
  outcome (bind c k) w Q.
Proof.
  unfold outcome, bind. destruct (c w) as [[e | a] w1]; simpl; auto.
Qed.

Lemma outcome_lift {A} (r : exn + A) w (Q : exn + A -> World Mem -> Prop) :
  Q r w -> outcome (lift r) w Q.
Proof. destruct r; done. Qed.

Lemma outcome_try_except {A} (body : M Mem A) handler w
  (Q : exn + A -> World Mem -> Prop) :
  outcome body w (fun r w1 =>
    match r with
    | inl e => outcome (handler e) w1 Q
    | inr a => Q (inr a) w1
    end) ->
  outcome (try_except body handler) w Q.
Proof.
  unfold outcome, try_except. destruct (body w) as [[e | a] w1]; simpl; auto.
Qed.

Lemma outcome_print line w (Q : exn + unit -> World Mem -> Prop) :
  Q (inr tt) (mkWorld (mem w) (rng w) (stdout w ++ [line])) ->
  outcome (print line) w Q.
Proof. done. Qed.

(** The next raw outcome is the head of the tape, zero once it is used
    up. *)
Lemma outcome_next_raw w (Q : exn + Z -> World Mem -> Prop) :
  Q (inr (nth 0 (rng w) 0)) (set_rng (drop 1 (rng w)) w) ->
  outcome next_raw w Q.
Proof.
  unfold outcome, next_raw. destruct w as [m [| r t] out]; simpl; auto.
Qed.

Lemma outcome_randbelow n w (Q : exn + Z -> World Mem -> Prop) :
  Q (inr (nth 0 (rng w) 0 mod n)) (set_rng (drop 1 (rng w)) w) ->
  outcome (_randbelow n) w Q.
Proof.
  intros H. unfold _randbelow. apply outcome_bind, outcome_next_raw.
  by apply outcome_ret.
Qed.

Lemma outcome_randint a b w (Q : exn + Z -> World Mem -> Prop) :
  a <= b ->
  Q (inr (a + nth 0 (rng w) 0 mod (b + 1 - a))) (set_rng (drop 1 (rng w)) w) ->
  outcome (randint a b) w Q.
Proof.
  intros Hab H. unfold randint, randrange.
  destruct (Z.ltb_spec 0 (b + 1 - a)); [| lia].
  apply outcome_bind, outcome_randbelow. by apply outcome_ret.
Qed.

Lemma outcome_uniform a b w (Q : exn + Q -> World Mem -> Prop) :
  (forall u, Q (inr u) (set_rng (drop 1 (rng w)) w)) ->
  outcome (uniform a b) w Q.
Proof.
  intros H. unfold uniform, random.
  apply outcome_bind, outcome_bind, outcome_next_raw.
  apply outcome_ret, outcome_ret, H.
Qed.

Lemma outcome_choice {A} (l : list A) w (Q : exn + A -> World Mem -> Prop) :
  l <> [] ->
  (forall x, In x l -> Q (inr x) (set_rng (drop 1 (rng w)) w)) ->
  outcome (choice l) w Q.
Proof.
  intros Hne H. unfold choice, len.
  destruct (Z.eqb_spec (Z.of_nat (length l)) 0) as [E | _].
  { destruct l; [done | simpl in E; lia]. }
  apply outcome_bind, outcome_randbelow.
  set (j := _ mod _).
  assert (Hj : 0 <= j < Z.of_nat (length l)).
  { apply Z.mod_pos_bound. destruct l; [done | simpl; lia]. }
  destruct (l !! Z.to_nat j) as [x |] eqn:E.
  - apply outcome_ret, H. apply list_elem_of_In.
    by apply list_elem_of_lookup_2 in E.
  - apply lookup_ge_None in E. lia.
Qed.

(** Reading an equation between a run and its result. *)
Lemma bind_inr {A B} (c : M Mem A) (k : A -> M Mem B) w b w' :
  bind c k w = (inr b, w') ->
  exists a w1, c w = (inr a, w1) /\ k a w1 = (inr b, w').
Proof.
  unfold bind. destruct (c w) as [[e | a] w1]; [done |]. eauto.
Qed.

Lemma lift_inr {A} (r : exn + A) (w : World Mem) a w' :
  lift r w = (inr a, w') -> r = inr a /\ w' = w.
Proof. destruct r; simpl; [done |]. by intros [= -> ->]. Qed.

Lemma ret_inr {A} (x : A) w a (w' : World Mem) :
  ret x w = (inr a, w') -> a = x /\ w' = w.
Proof. by intros [= -> ->]. Qed.

(** A kernel of the audio script: [try: body / except: print; return
    audio].  It returns what the body returns, or [audio]. *)
Lemma outcome_guarded {A} (body : M Mem A) (line : exn -> string) (audio : A)
  w (P : A -> Prop) :
  P audio ->
  (forall a w1, body w = (inr a, w1) -> P a) ->
  outcome (try_except body (fun e => print (line e) ;;; ret audio)) w
    (fun r _ => exists a, r = inr a /\ P a).
Proof.
  intros Hau Hbody. unfold outcome, try_except.
  destruct (body w) as [[e | a] w1] eqn:E; simpl; eauto.
Qed.

Lemma outcome_of_run {A} (c : M Mem A) w
  (Q : exn + A -> World Mem -> Prop) :
  (forall r w', c w = (r, w') -> Q r w') -> outcome c w Q.
Proof. intros H. unfold outcome. apply H. by destruct (c w). Qed.

(** The loop rule: [I pre w] holds when the rounds for [pre] are done. *)
Lemma outcome_for_each {A} (xs : list A) (body : A -> M Mem unit) w
  (I : list A -> World Mem -> Prop) (E : exn -> World Mem -> Prop) :
  I [] w ->
  (forall pre x suf w1,
      xs = pre ++ x :: suf -> I pre w1 ->
      outcome (body x) w1 (fun r w2 =>
        match r with
        | inl e => E e w2
        | inr _ => I (pre ++ [x]) w2
        end)) ->
  outcome (for_each xs body) w (fun r w' =>
    match r with
    | inl e => E e w'
    | inr _ => I xs w'
    end).
Proof.
  intros H0 Hstep.
  assert (G : forall suf pre w1,
             xs = pre ++ suf -> I pre w1 ->
             outcome (for_each suf body) w1 (fun r w' =>
               match r with inl e => E e w' | inr _ => I xs w' end)).
  { induction suf as [| x suf IH]; intros pre w1 Hxs HI; simpl.
    - apply outcome_ret. rewrite Hxs, app_nil_r. exact HI.
    - apply outcome_bind.
      eapply outcome_weaken; [apply (Hstep pre x suf w1 Hxs HI) |].
      intros [e | []] w2 H2; [exact H2 |].
      apply (IH (pre ++ [x])); [| exact H2].
      by rewrite <- app_assoc. }
  by apply (G xs []).
Qed.

(** [sample] returns [k] elements of the population and only draws. *)
Lemma outcome_sample_loop {A} (P : A -> Prop) (n m : nat) :
  forall (i0 : nat) (pool result : list A) w
         (Q : exn + (list A * list A) -> World Mem -> Prop),
    length pool = n -> (i0 + m <= n)%nat ->
    Forall P pool -> Forall P result ->
    (forall pool' result' w',
        length result' = (length result + m)%nat -> Forall P result' ->
        mem w' = mem w -> stdout w' = stdout w ->
        rng w' = drop m (rng w) ->
        Q (inr (pool', result')) w') ->
    outcome (sample_loop n (seq i0 m) (pool, result)) w Q.
Proof.
  induction m as [| m IH]; intros i0 pool result w Q Hlen Hle HP HR HQ; simpl.
  - apply outcome_ret. apply HQ; auto; lia.
  - apply outcome_bind. unfold sample_step.
    apply outcome_bind, outcome_randbelow.
    set (j := _ mod _).
    assert (Hj : 0 <= j < Z.of_nat (n - i0)).
    { apply Z.mod_pos_bound. lia. }
    destruct (pool !! Z.to_nat j) as [x |] eqn:Ex.
    2:{ apply lookup_ge_None in Ex. lia. }
    destruct (pool !! (n - i0 - 1)%nat) as [last |] eqn:El.
    2:{ apply lookup_ge_None in El. lia. }
    apply outcome_ret. apply IH.
    + by rewrite length_insert.
    + lia.
    + apply Forall_insert; [done |].
      eapply Forall_lookup_1; [exact HP | exact El].
    + apply Forall_app. split; [done |].
      apply List.Forall_cons; [| apply List.Forall_nil].
      eapply Forall_lookup_1; [exact HP | exact Ex].
    + intros pool' result' w' Hl HR' Hm Ho Hr.
      apply HQ; auto.
      * rewrite Hl, length_app. simpl. lia.
      * rewrite Hr. simpl. by rewrite drop_drop.
Qed.

Lemma outcome_sample {A} (P : A -> Prop) (population : list A) k w
  (Q : exn + list A -> World Mem -> Prop) :
  0 <= k <= Z.of_nat (length population) ->
  Forall P population ->
  (forall sel w',
      length sel = Z.to_nat k -> Forall P sel ->
      mem w' = mem w -> stdout w' = stdout w ->
      rng w' = drop (Z.to_nat k) (rng w) ->
      Q (inr sel) w') ->
  outcome (sample population k) w Q.
Proof.
  intros Hk HP HQ. unfold sample.
  destruct (Z.leb_spec 0 k); [| lia].
  destruct (Z.leb_spec k (Z.of_nat (length population))); [| lia].
  simpl. apply outcome_bind. unfold range.
  apply (outcome_sample_loop P (length population));
    [done | lia | done | apply List.Forall_nil |].
  intros pool' result' w' Hl HR Hm Ho Hr. apply outcome_ret.
  simpl. apply HQ; auto.
Qed.

(** ** Computations that leave [mem] as it is *)

Lemma pure_mem_ret {A} (a : A) : pure_mem (Mem := Mem) (ret a).
Proof. done. Qed.

Lemma pure_mem_raise {A} e : pure_mem (Mem := Mem) (A := A) (raise e).
Proof. done. Qed.

Lemma pure_mem_lift {A} (r : exn + A) : pure_mem (Mem := Mem) (lift r).
Proof. by destruct r. Qed.

Lemma pure_mem_print line : pure_mem (Mem := Mem) (print line).
Proof. done. Qed.

Lemma pure_mem_bind {A B} (c : M Mem A) (k : A -> M Mem B) :
  pure_mem c -> (forall a, pure_mem (k a)) -> pure_mem (bind c k).
Proof.
  intros Hc Hk w. unfold bind. specialize (Hc w).
  destruct (c w) as [[e | a] w1]; simpl in *; [done |].
  by rewrite Hk.
Qed.

Lemma pure_mem_try_except {A} (body : M Mem A) handler :
  pure_mem body -> (forall e, pure_mem (handler e)) ->
  pure_mem (try_except body handler).
Proof.
  intros Hb Hh w. unfold try_except. specialize (Hb w).
  destruct (body w) as [[e | a] w1]; simpl in *; [| done].
  by rewrite Hh.
Qed.

Lemma pure_mem_next_raw : pure_mem (Mem := Mem) next_raw.
Proof. intros w. unfold next_raw. by destruct (rng w). Qed.

Lemma pure_mem_randbelow n : pure_mem (Mem := Mem) (_randbelow n).
Proof.
  apply pure_mem_bind; [apply pure_mem_next_raw | intros; apply pure_mem_ret].
Qed.

Lemma pure_mem_randint a b : pure_mem (Mem := Mem) (randint a b).
Proof.
  unfold randint, randrange. destruct (_ <? _); [| apply pure_mem_raise].
  apply pure_mem_bind; [apply pure_mem_randbelow | intros; apply pure_mem_ret].
Qed.

Lemma pure_mem_uniform a b : pure_mem (Mem := Mem) (uniform a b).
Proof.
  unfold uniform, random.
  repeat (apply pure_mem_bind; [| intros]);
    first [apply pure_mem_next_raw | apply pure_mem_ret].
Qed.

Lemma pure_mem_choice {A} (l : list A) : pure_mem (Mem := Mem) (choice l).
Proof.
  unfold choice. destruct (_ =? _); [apply pure_mem_raise |].
  apply pure_mem_bind; [apply pure_mem_randbelow |].
  intros j. destruct (l !! _); [apply pure_mem_ret | apply pure_mem_raise].
Qed.

Lemma pure_mem_sample {A} (population : list A) k :
  pure_mem (Mem := Mem) (sample population k).
Proof.
  unfold sample. destruct (_ && _); [| apply pure_mem_raise].
  apply pure_mem_bind; [| intros; apply pure_mem_ret].
  generalize (population, @nil A). unfold range. generalize 0%nat.
  induction (Z.to_nat k) as [| m IH]; intros i0 st; simpl.
  - apply pure_mem_ret.
  - apply pure_mem_bind; [| intros; apply IH].
    unfold sample_step. destruct st as [pool result].
    apply pure_mem_bind; [apply pure_mem_randbelow |].
    intros j. destruct (pool !! _); [| apply pure_mem_raise].
    destruct (pool !! _); [apply pure_mem_ret | apply pure_mem_raise].
Qed.

Lemma pure_mem_for_acc {A V} (xs : list A) (body : A -> V -> M Mem V) :
  Forall (fun x => forall v, pure_mem (body x v)) xs ->
  forall v, pure_mem (for_acc xs body v).
Proof.
  induction 1 as [| x xs Hx _ IH]; intros v; simpl.
  - apply pure_mem_ret.
  - apply pure_mem_bind; [apply Hx | apply IH].
Qed.

(** The run of [randint]. *)
Lemma run_randint a b (w : World Mem) :
  a <= b ->
  randint a b w
    = (inr (a + nth 0 (rng w) 0 mod (b + 1 - a)),
       set_rng (drop 1 (rng w)) w).
Proof.
  intros Hab.
  pose proof (outcome_randint a b w
                (fun r w' =>
                   (r, w') = (inr (a + nth 0 (rng w) 0 mod (b + 1 - a)),
                              set_rng (drop 1 (rng w)) w)) Hab eq_refl) as H.
  unfold outcome in H. by destruct (randint a b w).
Qed.

(** ** Sampling without replacement

    Putting [y] where [x] was and [x] at the end is a rearrangement of
    putting [y] at the end. *)
Lemma insert_swap_perm {A} (l : list A) (j : nat) (x y : A) :
  l !! j = Some x -> <[j := y]> l ++ [x] ≡ₚ l ++ [y].
Proof.
  revert j. induction l as [| a l IH]; intros [| j] Hj; simpl in *; try done.
  - injection Hj as ->.
    rewrite <- !Permutation_cons_append. apply perm_swap.
  - apply perm_skip, IH, Hj.
Qed.

(** At every round the elements not yet selected, [pool[0 : n-i]], and
    the selected ones are together the population, rearranged. *)
Lemma sample_loop_perm {A} (n m : nat) :
  forall (i0 : nat) (pool result : list A) (w : World Mem) pool' result' w',
    length pool = n -> (i0 + m <= n)%nat ->
    sample_loop n (seq i0 m) (pool, result) w = (inr (pool', result'), w') ->
    length pool' = n
    /\ take (n - (i0 + m)) pool' ++ result' ≡ₚ take (n - i0) pool ++ result.
Proof.
  induction m as [| m IH]; intros i0 pool result w pool' result' w' Hlen Hle;
    simpl.
  - intros [= -> -> ->]. by rewrite Nat.add_0_r.
  - intros Hrun. apply bind_inr in Hrun as ([pool1 result1] & w1 & Hstep & Hrun).
    unfold sample_step in Hstep.
    apply bind_inr in Hstep as (j & w0 & Hj & Hstep).
    assert (Ej : j = nth 0 (rng w) 0 mod Z.of_nat (n - i0)).
    { pose proof (outcome_randbelow (Z.of_nat (n - i0)) w
                    (fun r _ => r = inr (nth 0 (rng w) 0 mod Z.of_nat (n - i0)))
                    eq_refl) as H.
      unfold outcome in H. rewrite Hj in H. simpl in H. by injection H. }
    assert (Hjlt : (Z.to_nat j < n - i0)%nat).
    { pose proof (Z.mod_pos_bound (nth 0 (rng w) 0) (Z.of_nat (n - i0))).
      lia. }
    destruct (pool !! Z.to_nat j) as [x |] eqn:Ex; [| done].
    destruct (pool !! (n - i0 - 1)%nat) as [last |] eqn:El; [| done].
    injection Hstep as <- <- <-.
    apply IH in Hrun as [Hlen' Hperm]; [| by rewrite length_insert | lia].
    split; [done |].
    replace (n - (i0 + S m))%nat with (n - (S i0 + m))%nat by lia.
    rewrite Hperm. clear Hperm IH.
    replace (n - i0)%nat with (S (n - S i0)) by lia.
    replace (n - i0 - 1)%nat with (n - S i0)%nat in El by lia.
    rewrite (take_S_r pool (n - S i0) last El).
    rewrite !app_assoc.
    rewrite <- (app_assoc _ result [x]).
    rewrite (Permutation_app_comm result [x]).
    rewrite app_assoc. apply Permutation_app_tail.
    destruct (decide (Z.to_nat j = n - S i0)%nat) as [E | NE].
    + rewrite E in *. rewrite take_insert_ge by lia.
      assert (x = last) by congruence. by subst.
    + rewrite take_insert_lt by lia.
      apply insert_swap_perm. rewrite lookup_take_lt by lia. exact Ex.
Qed.

(** [sample] returns [k] elements taken from distinct places of the
    population. *)
Lemma sample_submseteq {A} (population : list A) (k : Z) (w : World Mem)
  sel w' :
  sample population k w = (inr sel, w') ->
  sel ⊆+ population /\ length sel = Z.to_nat k.
Proof.
  unfold sample. destruct (_ && _) eqn:Hk; [| done].
  apply andb_prop in Hk as [H0 Hk]. apply Z.leb_le in H0, Hk.
  intros Hrun. apply bind_inr in Hrun as ([pool' result'] & w1 & Hrun & Hret).
  injection Hret as <- <-. simpl.
  pose proof Hrun as Hrun'.
  unfold range in Hrun.
  apply sample_loop_perm in Hrun as [_ Hperm]; [| done | lia].
  rewrite Nat.sub_0_r, firstn_all, app_nil_r in Hperm.
  split.
  - rewrite <- Hperm. apply submseteq_inserts_l. done.
  - pose proof (outcome_sample_loop (fun _ => True) (length population)
                  (Z.to_nat k) 0%nat population [] w
                  (fun r _ => forall p s, r = inr (p, s)
                                -> length s = Z.to_nat k)) as H.
    unfold outcome in H. unfold range in Hrun'. rewrite Hrun' in H.
    simpl in H. eapply H; try done.
    + lia.
    + by apply Forall_forall.
    + intros ? ? ? Hl _ _ _ _ p s [= _ <-]. by rewrite Hl.
Qed.

(** The loop rule for a loop that updates a variable: [I pre v w] holds
    when the rounds for [pre] are done and the variable holds [v]. *)
Lemma outcome_for_acc {A V} (xs : list A) (body : A -> V -> M Mem V) v w
  (I : list A -> V -> World Mem -> Prop) (E : exn -> World Mem -> Prop) :
  I [] v w ->
  (forall pre x suf v1 w1,
      xs = pre ++ x :: suf -> I pre v1 w1 ->
      outcome (body x v1) w1 (fun r w2 =>
        match r with
        | inl e => E e w2
        | inr v2 => I (pre ++ [x]) v2 w2
        end)) ->
  outcome (for_acc xs body v) w (fun r w' =>
    match r with
    | inl e => E e w'
    | inr v' => I xs v' w'
    end).
Proof.
  intros H0 Hstep.
  assert (G : forall suf pre v1 w1,
             xs = pre ++ suf -> I pre v1 w1 ->
             outcome (for_acc suf body v1) w1 (fun r w' =>
               match r with inl e => E e w' | inr v' => I xs v' w' end)).
  { induction suf as [| x suf IH]; intros pre v1 w1 Hxs HI; simpl.
    - apply outcome_ret. rewrite Hxs, app_nil_r. exact HI.
    - apply outcome_bind.
      eapply outcome_weaken; [apply (Hstep pre x suf v1 w1 Hxs HI) |].
      intros [e | v2] w2 H2; [exact H2 |].
      apply (IH (pre ++ [x])); [| exact H2].
      by rewrite <- app_assoc. }
  by apply (G xs []).
Qed.

(** A loop whose round for [x] raises ends there. *)
Lemma for_each_raise {A} (pre : list A) (x : A) (suf : list A)
  (body : A -> M Mem unit) w w1 e w2 :
  for_each pre body w = (inr tt, w1) ->
  body x w1 = (inl e, w2) ->
  for_each (pre ++ x :: suf) body w = (inl e, w2).
Proof.
  revert w. induction pre as [| y pre IH]; intros w Hpre Hx; simpl in *.
  - injection Hpre as <-. unfold bind. by rewrite Hx.
  - unfold bind in *. destruct (body y w) as [[e' | []] w']; [done |].
    by apply IH.
Qed.

(** ** Computations that print nothing *)

Lemma silent_ret {A} (a : A) : silent (Mem := Mem) (ret a).
Proof. done. Qed.

Lemma silent_raise {A} e : silent (Mem := Mem) (A := A) (raise e).
Proof. done. Qed.

Lemma silent_lift {A} (r : exn + A) : silent (Mem := Mem) (lift r).
Proof. by destruct r. Qed.

Lemma silent_bind {A B} (c : M Mem A) (k : A -> M Mem B) :
  silent c -> (forall a, silent (k a)) -> silent (bind c k).
Proof.
  intros Hc Hk w. unfold bind. specialize (Hc w).
  destruct (c w) as [[e | a] w1]; simpl in *; [done |].
  by rewrite Hk.
Qed.

Lemma silent_next_raw : silent (Mem := Mem) next_raw.
Proof. intros w. unfold next_raw. by destruct (rng w). Qed.

Lemma silent_randbelow n : silent (Mem := Mem) (_randbelow n).
Proof.
  apply silent_bind; [apply silent_next_raw | intros; apply silent_ret].
Qed.

Lemma silent_randint a b : silent (Mem := Mem) (randint a b).
Proof.
  unfold randint, randrange. destruct (_ <? _); [| apply silent_raise].
  apply silent_bind; [apply silent_randbelow | intros; apply silent_ret].
Qed.

Lemma silent_uniform a b : silent (Mem := Mem) (uniform a b).
Proof.
  unfold uniform, random.
  repeat (apply silent_bind; [| intros]);
    first [apply silent_next_raw | apply silent_ret].
Qed.

Lemma silent_choice {A} (l : list A) : silent (Mem := Mem) (choice l).
Proof.
  unfold choice. destruct (_ =? _); [apply silent_raise |].
  apply silent_bind; [apply silent_randbelow |].
  intros j. destruct (l !! _); [apply silent_ret | apply silent_raise].
Qed.

Lemma silent_for_each {A} (xs : list A) (body : A -> M Mem unit) :
  (forall x, silent (body x)) -> silent (for_each xs body).
Proof.
  intros Hb. induction xs as [| x xs IH]; simpl.
  - apply silent_ret.
  - apply silent_bind; [apply Hb | intros; apply IH].
Qed.

(** A loop of silent rounds prints nothing, however it ends. *)
Lemma silent_for_var {A V} (xs : list A) (body : A -> V -> M Mem V) :
  Forall (fun x => forall v, silent (body x v)) xs ->
  forall v w, stdout (snd (for_var xs body v w)) = stdout w.
Proof.
  induction 1 as [| x xs Hx _ IH]; intros v w; simpl; [done |].
  specialize (Hx v w).
  destruct (body x v w) as [[e | v'] w1]; simpl in *; [done |].
  by rewrite IH.
Qed.

End Outcome.

Create HintDb pure_mem.

#[export] Hint Resolve pure_mem_ret pure_mem_raise pure_mem_lift
  pure_mem_print pure_mem_next_raw pure_mem_randbelow pure_mem_randint
  pure_mem_uniform pure_mem_choice pure_mem_sample : pure_mem.

(** Split a computation into its steps and close each with the lemmas
    above. *)
Ltac pure_mem_steps :=
  repeat first
    [ solve [auto with pure_mem]
    | apply pure_mem_bind; [| intros]
    | apply pure_mem_try_except; [| intros] ].


(** ** Names and extensions *)

Lemma lower_app (a b : string) : lower (a +:+ b) = lower a +:+ lower b.
Proof. induction a as [| c a IH]; simpl; [done |]. by rewrite IH. Qed.

Lemma length_string_app (a b : string) :
  String.length (a +:+ b) = (String.length a + String.length b)%nat.
Proof. induction a as [| c a IH]; simpl; [done |]. by rewrite IH. Qed.

Lemma substring_whole (b : string) : substring 0 (String.length b) b = b.
Proof. induction b as [| c b IH]; simpl; [done |]. by rewrite IH. Qed.

Lemma substring_suffix (a b : string) :
  substring (String.length a) (String.length b) (a +:+ b) = b.
Proof.
  induction a as [| c a IH]; simpl; [apply substring_whole | exact IH].
Qed.

Lemma endswith_app (a b : string) : endswith (a +:+ b) b = true.
Proof.
  unfold endswith. rewrite length_string_app.
  replace (String.length a + String.length b - String.length b)%nat
    with (String.length a) by lia.
  rewrite substring_suffix, String.eqb_refl.
  apply andb_true_intro. split; [| done]. apply Nat.leb_le. lia.
Qed.

(** A name whose extension, in lower case, is one of [exts] passes the
    filter, whatever the case of its letters. *)
Lemma endswith_any_lower (stem ext : string) (exts : list string) :
  In (lower ext) exts -> endswith_any (lower (stem +:+ ext)) exts = true.
Proof.
  intros Hin. unfold endswith_any. apply existsb_exists.
  exists (lower ext). split; [done |].
  rewrite lower_app. apply endswith_app.
Qed.

End PyFacts.

(* ===================================================================== *)
(** * Properties of the Pillow model *)
(* ===================================================================== *)

Module PILFacts.

Import Py PIL.

Lemma tabulate_length w h f : length (tabulate w h f) = h.
Proof. unfold tabulate. by rewrite length_map, length_seq. Qed.

Lemma tabulate_row w h f (y : nat) :
  (y < h)%nat ->
  tabulate w h f !! y = Some (map (fun x => f x y) (seq 0 w)).
Proof.
  intros Hy. unfold tabulate.
  change (map ?g ?l) with (g <$> l).
  rewrite list_lookup_fmap, lookup_seq_lt by done. reflexivity.
Qed.

Lemma getpixel_build m w h f (x y : nat) :
  (x < w)%nat -> (y < h)%nat -> getpixel (build m w h f) x y = Some (f x y).
Proof.
  intros Hx Hy. unfold getpixel, build; simpl.
  rewrite tabulate_row by done.
  change (map ?g ?l) with (g <$> l).
  rewrite list_lookup_fmap, lookup_seq_lt by done. reflexivity.
Qed.

Lemma px_build m w h f (x y : nat) :
  (x < w)%nat -> (y < h)%nat -> px (build m w h f) x y = f x y.
Proof. intros. unfold px. by rewrite getpixel_build. Qed.

Lemma tabulate_ext w h f g :
  (forall x y, (x < w)%nat -> (y < h)%nat -> f x y = g x y) ->
  tabulate w h f = tabulate w h g.
Proof.
  intros E. unfold tabulate.
  apply map_ext_in. intros y Hy. apply in_seq in Hy.
  apply map_ext_in. intros x Hx. apply in_seq in Hx.
  apply E; lia.
Qed.

Lemma build_ext m w h f g :
  (forall x y, (x < w)%nat -> (y < h)%nat -> f x y = g x y) ->
  build m w h f = build m w h g.
Proof. intros E. unfold build. f_equal. by apply tabulate_ext. Qed.

Lemma wf_build (m : string) w h f : wf_image (build m w h f) = true.
Proof.
  unfold wf_image, build, width, height; simpl.
  rewrite tabulate_length, Nat.eqb_refl. simpl.
  apply forallb_forall. intros row Hin.
  unfold tabulate in Hin. apply in_map_iff in Hin as (y & <- & _).
  rewrite length_map, length_seq. apply Nat.eqb_refl.
Qed.

(** A well-formed image is the table of its own pixels. *)
Lemma wf_is_build img :
  wf_image img = true ->
  img = build (mode img) (width img) (height img) (px img).
Proof.
  destruct img as [m [w h] rows]. unfold wf_image, width, height, build; simpl.
  intros Hwf. apply andb_prop in Hwf as [Hlen Hrows].
  apply Nat.eqb_eq in Hlen. f_equal.
  rewrite forallb_forall in Hrows.
  apply list_eq. intros y.
  destruct (decide (y < h)%nat) as [Hy | Hy].
  - rewrite tabulate_row by done.
    destruct (rows !! y) as [row |] eqn:Erow.
    2:{ apply lookup_ge_None in Erow. lia. }
    f_equal. apply list_eq. intros x.
    assert (Hrow : length row = w).
    { apply Nat.eqb_eq, Hrows. apply list_elem_of_In.
      by apply list_elem_of_lookup_2 in Erow. }
    destruct (decide (x < w)%nat) as [Hx | Hx].
    + change (map ?g ?l) with (g <$> l).
      rewrite list_lookup_fmap, lookup_seq_lt by done. simpl.
      unfold px, getpixel; simpl. rewrite Erow.
      destruct (row !! x) eqn:Ex; [done |].
      apply lookup_ge_None in Ex. lia.
    + rewrite !lookup_ge_None_2; [done | |].
      * rewrite length_map, length_seq. lia.
      * lia.
  - rewrite !lookup_ge_None_2; [done | |].
    + rewrite tabulate_length. lia.
    + lia.
Qed.

(** ** Quarter turns of a square image *)

Lemma rotate_square_90 img :
  width img = height img -> rotate img deg90 = transpose img ROTATE_90.
Proof. intros E. unfold rotate. by rewrite E, Nat.eqb_refl. Qed.

Lemma transpose_90_four img :
  wf_image img = true -> width img = height img ->
  transpose (transpose (transpose (transpose img ROTATE_90) ROTATE_90)
               ROTATE_90) ROTATE_90 = img.
Proof.
  intros Hwf Hsq.
  etransitivity; [| symmetry; exact (wf_is_build img Hwf)].
  destruct img as [m [w h] rows]. unfold width, height in *; simpl in *.
  subst h.
  unfold transpose, width, height; simpl.
  apply build_ext. intros x y Hx Hy.
  rewrite px_build by lia. rewrite px_build by lia. rewrite px_build by lia.
  f_equal; lia.
Qed.

(** ** Flips and half turns *)

Lemma transpose_flip_twice img :
  wf_image img = true ->
  transpose (transpose img FLIP_LEFT_RIGHT) FLIP_LEFT_RIGHT = img.
Proof.
  intros Hwf.
  etransitivity; [| symmetry; exact (wf_is_build img Hwf)].
  destruct img as [m [w h] rows].
  unfold transpose, width, height; simpl.
  apply build_ext. intros x y Hx Hy.
  rewrite px_build by lia. f_equal; lia.
Qed.

Lemma transpose_180_twice img :
  wf_image img = true ->
  transpose (transpose img ROTATE_180) ROTATE_180 = img.
Proof.
  intros Hwf.
  etransitivity; [| symmetry; exact (wf_is_build img Hwf)].
  destruct img as [m [w h] rows].
  unfold transpose, width, height; simpl.
  apply build_ext. intros x y Hx Hy.
  rewrite px_build by lia. f_equal; lia.
Qed.

Lemma transpose_90_270 img :
  wf_image img = true ->
  transpose (transpose img ROTATE_90) ROTATE_270 = img.
Proof.
  intros Hwf.
  etransitivity; [| symmetry; exact (wf_is_build img Hwf)].
  destruct img as [m [w h] rows].
  unfold transpose, width, height; simpl.
  apply build_ext. intros x y Hx Hy.
  rewrite px_build by lia. f_equal; lia.
Qed.

Lemma transpose_270_90 img :
  wf_image img = true ->
  transpose (transpose img ROTATE_270) ROTATE_90 = img.
Proof.
  intros Hwf.
  etransitivity; [| symmetry; exact (wf_is_build img Hwf)].
  destruct img as [m [w h] rows].
  unfold transpose, width, height; simpl.
  apply build_ext. intros x y Hx Hy.
  rewrite px_build by lia. f_equal; lia.
Qed.

Lemma size_transpose_square img t :
  width img = height img -> size (transpose img t) = size img.
Proof.
  destruct img as [m [w h] rows]. unfold width, height; simpl.
  intros ->. by destruct t.
Qed.

Lemma size_rotate img t : size (rotate img t) = size img.
Proof.
  unfold rotate.
  destruct t; try (by destruct img as [m [w h] rows]);
    destruct (width img =? height img)%nat eqn:E;
    try (apply Nat.eqb_eq in E; by apply size_transpose_square);
    by destruct img as [m [w h] rows].
Qed.

Lemma mode_rotate img t : mode (rotate img t) = mode img.
Proof.
  unfold rotate.
  destruct t; try done; by destruct (width img =? height img)%nat.
Qed.

Lemma wf_rotate img t : wf_image (rotate img t) = true.
Proof.
  unfold rotate, transpose, transform_AFFINE.
  destruct t; try apply wf_build;
    destruct (width img =? height img)%nat; apply wf_build.
Qed.

(** ** A translation

    The centre of a pixel moved by whole numbers falls in the pixel
    moved by them. *)
Lemma Qfloor_centre (a b c : Z) :
  Qfloor (1 * (inject_Z a + (1 # 2)) + 0 * (inject_Z b + (1 # 2))
          + inject_Z c)%Q = a + c.
Proof.
  assert (E : (1 * (inject_Z a + (1 # 2)) + 0 * (inject_Z b + (1 # 2))
               + inject_Z c == (2 * (a + c) + 1) # 2)%Q).
  { unfold Qeq, Qplus, Qmult, inject_Z; simpl. lia. }
  rewrite E. unfold Qfloor.
  change (Z.pos 2) with 2.
  rewrite Z.mul_comm, Z.div_add_l by lia. change (1 / 2) with 0. lia.
Qed.

Lemma Qfloor_centre_y (a b c : Z) :
  Qfloor (0 * (inject_Z a + (1 # 2)) + 1 * (inject_Z b + (1 # 2))
          + inject_Z c)%Q = b + c.
Proof.
  assert (E : (0 * (inject_Z a + (1 # 2)) + 1 * (inject_Z b + (1 # 2))
               + inject_Z c == (2 * (b + c) + 1) # 2)%Q).
  { unfold Qeq, Qplus, Qmult, inject_Z; simpl. lia. }
  rewrite E. unfold Qfloor.
  change (Z.pos 2) with 2.
  rewrite Z.mul_comm, Z.div_add_l by lia. change (1 / 2) with 0. lia.
Qed.

Lemma affine_source_shift (sx sy : Z) (x y : nat) :
  affine_source (1, 0, inject_Z sx, 0, 1, inject_Z sy)%Q x y
    = (Z.of_nat x + sx, Z.of_nat y + sy).
Proof.
  unfold affine_source. by rewrite Qfloor_centre, Qfloor_centre_y.
Qed.

End PILFacts.

(* ===================================================================== *)
(** * Properties of imgaug.py *)
(* ===================================================================== *)

Module ImgaugFacts.

Import Py PIL Imgaug ImgaugSpec PyFacts PILFacts.
Local Open Scope py_scope.

(** ** Objects *)

Lemma outcome_new_object v w (Q : exn + ref -> World Mem -> Prop) :
  Q (inr (length (hp w)))
    (set_mem (mkMem (hp w ++ [v]) (files (mem w))) w) ->
  outcome (new_object v) w Q.
Proof. done. Qed.

Lemma outcome_deref r w (Q : exn + Image -> World Mem -> Prop) :
  (forall v, hp w !! r = Some v -> Q (inr v) w) ->
  (hp w !! r = None -> forall e, Q (inl e) w) ->
  outcome (deref r) w Q.
Proof.
  intros HS HN. unfold outcome, deref. fold (hp w).
  destruct (hp w !! r) eqn:E; simpl; auto.
Qed.

Lemma outcome_assign r v w (Q : exn + unit -> World Mem -> Prop) :
  Q (inr tt) (set_mem (mkMem (<[r := v]> (hp w)) (files (mem w))) w) ->
  outcome (assign r v) w Q.
Proof. done. Qed.

Lemma outcome_method r f w (Q : exn + ref -> World Mem -> Prop) :
  (forall v v', hp w !! r = Some v -> f v = inr v' ->
     Q (inr (length (hp w)))
       (set_mem (mkMem (hp w ++ [v']) (files (mem w))) w)) ->
  (forall e, Q (inl e) w) ->
  outcome (method r f) w Q.
Proof.
  intros HS HE. unfold method.
  apply outcome_bind, outcome_deref; [| intros; apply HE].
  intros v Hv. apply outcome_bind.
  destruct (f v) as [e | v'] eqn:Ef; simpl.
  - apply outcome_raise, HE.
  - apply outcome_ret, outcome_new_object. by eapply HS.
Qed.

(** A method of the library that succeeds adds its result to the
    heap. *)
Lemma method_run (r : ref) (f : Image -> exn + Image) (w : World Mem)
  (v v' : Image) :
  hp w !! r = Some v -> f v = inr v' ->
  method r f w
    = (inr (length (hp w)),
       set_mem (mkMem (hp w ++ [v']) (files (mem w))) w).
Proof.
  intros Hv Hf.
  unfold method, bind, deref, lift, new_object, ret, hp in *.
  rewrite Hv, Hf. reflexivity.
Qed.

Lemma keeps_refl n0 c w : keeps n0 c w w.
Proof. repeat split; auto. Qed.

Lemma keeps_trans n0 c w1 w2 w3 :
  keeps n0 c w1 w2 -> keeps n0 c w2 w3 -> keeps n0 c w1 w3.
Proof.
  intros (L1 & H1 & F1) (L2 & H2 & F2). split; [lia | split].
  - intros r Hr Hc. rewrite H2, H1; auto.
  - congruence.
Qed.

Lemma keeps_same_mem n0 c w w' : mem w' = mem w -> keeps n0 c w w'.
Proof. intros E. unfold keeps, hp. rewrite E. auto. Qed.

Lemma keeps_alloc n0 c w v :
  (n0 <= length (hp w))%nat ->
  keeps n0 c w (set_mem (mkMem (hp w ++ [v]) (files (mem w))) w).
Proof.
  intros Hn. repeat split; unfold hp; simpl.
  - rewrite length_app. lia.
  - intros r Hr _. apply lookup_app_l. unfold hp in Hn. lia.
Qed.

Lemma keeps_assign n0 c w cur v :
  writable n0 c cur ->
  keeps n0 c w (set_mem (mkMem (<[cur := v]> (hp w)) (files (mem w))) w).
Proof.
  intros Hw. repeat split; unfold hp; simpl.
  - by rewrite length_insert.
  - intros r Hr Hc. apply list_lookup_insert_ne.
    destruct Hw; [congruence | lia].
Qed.

Lemma method_safe f : kernel_safe (fun img => method img f).
Proof.
  intros n0 c cur w Hn Hw. apply outcome_method.
  - intros v v' _ _. split; [by apply keeps_alloc |].
    split; [right; exact Hn |].
    unfold hp; simpl. rewrite lookup_app_r by done.
    rewrite Nat.sub_diag. by eexists.
  - intros e. split; [apply keeps_refl | done].
Qed.

(** Drawing leaves the objects alone. *)
Lemma kernel_post_set_rng n0 c w t r w' :
  kernel_post n0 c (set_rng t w) r w' -> kernel_post n0 c w r w'.
Proof. done. Qed.

(** ** Pixel access *)

Lemma putpixel_Some v i j p v' :
  putpixel v i j p = Some v' ->
  mode v' = mode v /\ size v' = size v
  /\ getpixel v' i j = Some p
  /\ forall x y, (x, y) <> (i, j) -> getpixel v' x y = getpixel v x y.
Proof.
  unfold putpixel. destruct (im v !! j) as [row |] eqn:Erow; [| done].
  destruct (Nat.ltb_spec i (length row)) as [Hi | Hi]; [| done].
  intros [= <-]. unfold getpixel; simpl.
  assert (Hj : (j < length (im v))%nat) by (by eapply lookup_lt_Some).
  repeat split.
  - rewrite list_lookup_insert_eq by done.
    by rewrite list_lookup_insert_eq.
  - intros x y Hne. destruct (decide (y = j)) as [-> | Hy].
    + rewrite list_lookup_insert_eq by done. rewrite Erow.
      apply list_lookup_insert_ne. congruence.
    + by rewrite list_lookup_insert_ne.
Qed.

Lemma putpixel_is_Some v i j p q :
  getpixel v i j = Some q -> is_Some (putpixel v i j p).
Proof.
  unfold getpixel, putpixel. destruct (im v !! j) as [row |]; [| done].
  intros H. apply lookup_lt_Some in H.
  destruct (Nat.ltb_spec i (length row)); [by eexists | lia].
Qed.

Lemma noise_of_range raw : -20 <= noise_of raw <= 20.
Proof. unfold noise_of. pose proof (Z.mod_pos_bound raw 41). lia. Qed.

Lemma clamp_range x : 0 <= clamp x <= 255.
Proof. unfold clamp. lia. Qed.

(** One round of the inner loop: it draws once, and writes one pixel of
    the object [image]; it raises only where there is no pixel of three
    bands to read. *)
Lemma outcome_add_noise_pixel image i j w
  (Q : exn + unit -> World Mem -> Prop) :
  (forall v r g b v',
      hp w !! image = Some v ->
      getpixel v i j = Some [r; g; b] ->
      putpixel v i j (noised (noise_of (nth 0 (rng w) 0)) [r; g; b]) = Some v' ->
      Q (inr tt)
        (mkWorld (mkMem (<[image := v']> (hp w)) (files (mem w)))
           (drop 1 (rng w)) (stdout w))) ->
  (forall e w',
      mem w' = mem w ->
      ~ (exists v r g b,
            hp w !! image = Some v /\ getpixel v i j = Some [r; g; b]) ->
      Q (inl e) w') ->
  outcome (add_noise_pixel image i j) w Q.
Proof.
  intros HS HE. unfold add_noise_pixel, pixel_get, pixel_set.
  apply outcome_bind, outcome_bind, outcome_deref.
  2:{ intros HN e. apply HE; [done |]. intros (v & r & g & b & Hv & _).
      by rewrite Hv in HN. }
  intros v Hv.
  assert (Hbad : forall p, getpixel v i j = p ->
            (forall r g b, p <> Some [r; g; b]) ->
            ~ (exists v r g b,
                  hp w !! image = Some v /\ getpixel v i j = Some [r; g; b])).
  { intros p Hp Hne (v0 & r & g & b & Hv0 & Hpx).
    rewrite Hv in Hv0. injection Hv0 as <-. rewrite Hp in Hpx.
    by eapply Hne. }
  destruct (getpixel v i j) as [p |] eqn:Ep.
  2:{ apply outcome_raise, HE; [done |].
      eapply Hbad; [reflexivity | intros ? ? ? [=]]. }
  apply outcome_ret, outcome_bind.
  destruct p as [| r [| g [| b [| ? ?]]]];
    try (apply outcome_raise, HE; [done |];
         eapply Hbad; [reflexivity | intros ? ? ? [=]]).
  apply outcome_ret, outcome_bind, outcome_randint; [lia |].
  apply outcome_bind, outcome_deref.
  2:{ intros HN. change (hp (set_rng _ w)) with (hp w) in HN.
      by rewrite Hv in HN. }
  intros v1 Hv1. change (hp (set_rng _ w)) with (hp w) in Hv1.
  assert (v1 = v) as -> by (rewrite Hv in Hv1; by injection Hv1).
  destruct (putpixel_is_Some v i j
              (noised (noise_of (nth 0 (rng w) 0)) [r; g; b]) _ Ep)
    as [v' Hv'].
  unfold noised, noise_of, clamp in Hv'. simpl in Hv'.
  replace (20 + 1 - -20) with 41 by lia.
  rewrite Hv'. apply outcome_assign.
  eapply (HS v r g b v'); eauto.
Qed.

Lemma seq_split_index n pre (x : nat) suf :
  seq 0 n = pre ++ x :: suf -> x = length pre /\ (x < n)%nat.
Proof.
  intros E.
  assert (H : seq 0 n !! length pre = Some x).
  { rewrite E. by rewrite list_lookup_middle. }
  apply lookup_seq in H. lia.
Qed.

(** The two loops of [add_noise] visit the pixels column by column; after
    [k] rounds [Inv k] holds. *)
Lemma outcome_add_noise_loops image (W H : nat) w
  (Inv : nat -> World Mem -> Prop) (E : exn -> World Mem -> Prop) :
  Inv 0%nat w ->
  (forall i j w1, (i < W)%nat -> (j < H)%nat -> Inv (i * H + j)%nat w1 ->
     outcome (add_noise_pixel image i j) w1 (fun r w2 =>
       match r with
       | inl e => E e w2
       | inr _ => Inv (i * H + j + 1)%nat w2
       end)) ->
  outcome
    (for_each (range W) (fun i =>
       for_each (range H) (fun j => add_noise_pixel image i j))) w
    (fun r w' =>
       match r with
       | inl e => E e w'
       | inr _ => Inv (W * H)%nat w'
       end).
Proof.
  intros H0 Hstep.
  eapply outcome_weaken.
  - apply (outcome_for_each (range W) _ w
             (fun pre w1 => Inv (length pre * H)%nat w1) E); [exact H0 |].
    intros pre i suf w1 Hsplit HI.
    apply seq_split_index in Hsplit as [-> Hi].
    eapply outcome_weaken.
    + apply (outcome_for_each (range H) _ w1
               (fun pre' w2 => Inv (length pre * H + length pre')%nat w2) E).
      * by rewrite Nat.add_0_r.
      * intros pre' j suf' w2 Hsplit' HI'.
        apply seq_split_index in Hsplit' as [-> Hj].
        eapply outcome_weaken; [by apply Hstep |].
        intros [e | []] w3; [done |].
        rewrite length_app. simpl. by rewrite Nat.add_assoc.
    + intros [e | []] w2; [done |]. simpl.
      unfold range. rewrite length_seq, length_app. simpl.
      intros HI'. replace ((length pre + 1) * H)%nat
        with (length pre * H + H)%nat by lia. exact HI'.
  - intros [e | []] w'; [done |]. unfold range. by rewrite length_seq.
Qed.

Section WithLibrary.

Variable lib : Library.

(** [add_noise] runs its loops on the object it was given when that is in
    mode RGB, and otherwise on a new object, the converted image; before
    the loops it raises only when it was not given an RGB image. *)
Lemma outcome_add_noise image w (Q : exn + ref -> World Mem -> Prop) :
  (forall image1 w1 v1,
      hp w1 !! image1 = Some v1 ->
      (image1 = image /\ w1 = w /\ mode v1 = "RGB")
      \/ (exists v, hp w !! image = Some v /\ mode v <> "RGB"
                   /\ convert_RGB lib v = inr v1
                   /\ image1 = length (hp w)
                   /\ w1 = set_mem (mkMem (hp w ++ [v1]) (files (mem w))) w) ->
      outcome
        (for_each (range (width v1)) (fun i =>
           for_each (range (height v1)) (fun j =>
             add_noise_pixel image1 i j))) w1
        (fun r w2 =>
           match r with
           | inl e => Q (inl e) w2
           | inr _ => Q (inr image1) w2
           end)) ->
  (forall e,
      ~ (exists v, hp w !! image = Some v /\ mode v = "RGB") ->
      Q (inl e) w) ->
  outcome (add_noise lib image) w Q.
Proof.
  intros HL HE. unfold add_noise.
  apply outcome_bind, outcome_deref.
  2:{ intros HN e. apply HE. intros (v & Hv & _). by rewrite Hv in HN. }
  intros v Hv. apply outcome_bind.
  destruct (String.eqb_spec (mode v) "RGB") as [Hm | Hm]; simpl.
  - apply outcome_ret, outcome_bind, outcome_deref.
    2:{ intros HN. by rewrite Hv in HN. }
    intros v1 Hv1. assert (v1 = v) as -> by congruence.
    apply outcome_bind. eapply outcome_weaken.
    + apply (HL image w v); auto.
    + intros [e | []] w2; [done |]. intros HQ. by apply outcome_ret.
  - apply outcome_method.
    2:{ intros e. apply HE. intros (v0 & Hv0 & Hm0).
        rewrite Hv in Hv0. injection Hv0 as <-. done. }
    intros v0 v1 Hv0 Hconv. assert (v0 = v) as -> by congruence.
    set (w1 := set_mem _ w).
    assert (Hv1 : hp w1 !! length (hp w) = Some v1).
    { unfold w1, hp; simpl. rewrite lookup_app_r by done.
      by rewrite Nat.sub_diag. }
    apply outcome_bind, outcome_deref.
    2:{ intros HN. change (hp w1 !! length (hp w) = None) in HN.
        by rewrite Hv1 in HN. }
    intros v1' Hv1'. change (hp w1 !! length (hp w) = Some v1') in Hv1'.
    assert (v1' = v1) as -> by (rewrite Hv1 in Hv1'; by injection Hv1').
    apply outcome_bind. eapply outcome_weaken.
    + apply (HL (length (hp w)) w1 v1); [done |].
      right. exists v. auto.
    + intros [e | []] w2; [done |]. intros HQ. by apply outcome_ret.
Qed.

Lemma add_noise_safe : kernel_safe (add_noise lib).
Proof.
  intros n0 c cur w Hn Hw. apply outcome_add_noise.
  2:{ intros e _. split; [apply keeps_refl | done]. }
  intros image1 w1 v1 Hv1 Hstart.
  assert (Hk1 : keeps n0 c w w1).
  { destruct Hstart as [(_ & -> & _) | (v & _ & _ & _ & _ & ->)];
      [apply keeps_refl | by apply keeps_alloc]. }
  assert (Hw1 : writable n0 c image1).
  { destruct Hstart as [(-> & _ & _) | (v & _ & _ & _ & -> & _)];
      [done | by right]. }
  eapply outcome_weaken.
  - apply (outcome_add_noise_loops image1 (width v1) (height v1) w1
             (fun _ w2 => keeps n0 c w w2 /\ is_Some (hp w2 !! image1))
             (fun _ w2 => keeps n0 c w w2)).
    + split; [done | by eexists].
    + intros i j w2 _ _ [Hk2 Hsome].
      apply outcome_add_noise_pixel.
      * intros v r g b v' Hv _ _. split.
        -- eapply keeps_trans; [exact Hk2 |]. by apply keeps_assign.
        -- unfold hp; simpl. apply lookup_lt_is_Some.
           rewrite length_insert. by apply lookup_lt_Some in Hv.
      * intros e w3 Hhp _. eapply keeps_trans; [exact Hk2 |].
        by apply keeps_same_mem.
  - intros [e | []] w2; [intros Hk2; by split |].
    intros [Hk2 Hsome]. split; [exact Hk2 | split; [exact Hw1 | exact Hsome]].
Qed.

Lemma enhance_safe degenerate : kernel_safe (enhance lib degenerate).
Proof.
  intros n0 c cur w Hn Hw. unfold enhance.
  assert (HE : forall e, kernel_post n0 c w (inl e : exn + ref) w).
  { intros e. split; [apply keeps_refl | done]. }
  apply outcome_bind, outcome_deref; [| intros; by apply HE].
  intros v Hv. apply outcome_bind.
  destruct (degenerate v) as [e | d]; [by apply outcome_raise, HE |].
  apply outcome_ret, outcome_bind, outcome_uniform. intros factor.
  apply outcome_bind.
  destruct (blend lib d v factor) as [e | v'];
    [by apply outcome_raise, HE |].
  apply outcome_ret, outcome_new_object.
  split; [by apply (keeps_alloc n0 c w) |].
  split; [by right |].
  unfold hp; simpl. rewrite lookup_app_r by done.
  rewrite Nat.sub_diag. by eexists.
Qed.

Lemma augmentations_safe : Forall kernel_safe (augmentations lib).
Proof.
  unfold augmentations.
  repeat apply List.Forall_cons; try apply List.Forall_nil.
  - intros n0 c cur w Hn Hw.
    apply outcome_bind, outcome_uniform. intros radius.
    by apply (method_safe _ n0 c cur (set_rng _ w)).
  - apply enhance_safe.
  - apply enhance_safe.
  - apply add_noise_safe.
  - intros n0 c cur w Hn Hw.
    apply outcome_bind, outcome_choice; [done |]. intros angle _.
    by apply (method_safe _ n0 c cur (set_rng _ w)).
  - apply method_safe.
  - intros n0 c cur w Hn Hw.
    apply outcome_bind, outcome_randint; [lia |].
    apply outcome_bind, outcome_randint; [lia |].
    by apply (method_safe _ n0 c cur (set_rng _ (set_rng _ w))).
Qed.

(** ** What [add_noise] computes *)

Lemma nth_drop_0 (k : nat) (l : list Z) : nth 0 (drop k l) 0 = nth k l 0.
Proof.
  rewrite !nth_lookup, lookup_drop. by rewrite Nat.add_0_r.
Qed.

Lemma world_eta (w : World Mem) :
  w = mkWorld (mkMem (hp w) (files (mem w))) (rng w) (stdout w).
Proof. by destruct w as [[h f] t o]. Qed.

Lemma column_major_inj (H i j x y : nat) :
  (j < H)%nat -> (y < H)%nat -> (x * H + y = i * H + j)%nat ->
  x = i /\ y = j.
Proof.
  intros Hj Hy E.
  destruct (Nat.lt_trichotomy x i) as [L | [-> | L]].
  - pose proof (Nat.mul_le_mono_r (S x) i H L). simpl in *. lia.
  - lia.
  - pose proof (Nat.mul_le_mono_r (S i) x H L). simpl in *. lia.
Qed.

Lemma add_noise_loops_spec image v w :
  hp w !! image = Some v ->
  (forall x y, (x < width v)%nat -> (y < height v)%nat ->
     exists r g b, getpixel v x y = Some [r; g; b]) ->
  outcome
    (for_each (range (width v)) (fun i =>
       for_each (range (height v)) (fun j => add_noise_pixel image i j))) w
    (fun r w' =>
       match r with
       | inl _ => False
       | inr _ => noised_upto image v w (width v * height v) w'
       end).
Proof.
  intros Hv Hread.
  assert (Himg : (image < length (hp w))%nat) by (by eapply lookup_lt_Some).
  apply (outcome_add_noise_loops image (width v) (height v) w
           (noised_upto image v w) (fun _ _ => False)).
  - exists v. rewrite list_insert_id by done. split; [apply world_eta |].
    repeat split. intros x y. destruct (decide _) as [(_ & _ & ?) | _]; [lia | done].
  - intros i j w2 Hi Hj (v2 & -> & Hmode & Hsize & Hpx).
    assert (Hv2 : <[image := v2]> (hp w) !! image = Some v2)
      by (by apply list_lookup_insert_eq).
    assert (Hij : getpixel v2 i j = getpixel v i j).
    { rewrite Hpx. destruct (decide _) as [(_ & _ & ?) | _]; [lia | done]. }
    destruct (Hread i j Hi Hj) as (r & g & b & Hrgb).
    apply outcome_add_noise_pixel.
    + intros v0 r0 g0 b0 v' Hv0 Hget Hput. unfold hp in *; simpl in *.
      rewrite Hv2 in Hv0. injection Hv0 as <-.
      rewrite Hij, Hrgb in Hget. injection Hget as <- <- <-.
      apply putpixel_Some in Hput as (Hm' & Hs' & Hnew & Hold).
      exists v'. rewrite list_insert_insert_eq, drop_drop.
      replace (i * height v + j + 1)%nat with (i * height v + j + 1)%nat
        by done.
      split; [done |]. split; [congruence |]. split; [congruence |].
      intros x y. destruct (decide ((x, y) = (i, j))) as [[= -> ->] | Hne].
      * rewrite Hnew. destruct (decide _) as [_ | Hn]; [| lia].
        rewrite nth_drop_0. unfold px. by rewrite Hrgb.
      * rewrite (Hold x y Hne), Hpx.
        destruct (decide _) as [(Hx & Hy & Hk) | Hn];
          destruct (decide _) as [(Hx' & Hy' & Hk') | Hn']; try done.
        -- exfalso. apply Hn'. repeat split; auto. lia.
        -- exfalso. apply Hn. repeat split; auto.
           destruct (decide (x * height v + y = i * height v + j)%nat) as [E |];
             [| lia].
           apply column_major_inj in E as [-> ->]; done.
    + intros e w' _ Hno. apply Hno. exists v2, r, g, b.
      unfold hp; simpl. split; [done | congruence].
Qed.

Lemma noised_in_byte_range n r g b :
  in_byte_range (Some (noised n [r; g; b])).
Proof.
  exists (clamp (r + n)), (clamp (g + n)), (clamp (b + n)).
  split; [done |]. pose proof clamp_range. auto.
Qed.

Lemma add_noise_loops_range image1 v1 w1 :
  hp w1 !! image1 = Some v1 ->
  outcome
    (for_each (range (width v1)) (fun i =>
       for_each (range (height v1)) (fun j => add_noise_pixel image1 i j))) w1
    (fun r w' =>
       match r with
       | inl _ => True
       | inr _ =>
           exists out, hp w' !! image1 = Some out /\ size out = size v1
             /\ forall x y, (x < width out)%nat -> (y < height out)%nat ->
                  in_byte_range (getpixel out x y)
       end).
Proof.
  intros Hv1.
  eapply outcome_weaken.
  - apply (outcome_add_noise_loops image1 (width v1) (height v1) w1
             (fun k w2 =>
                exists v2, hp w2 !! image1 = Some v2 /\ size v2 = size v1
                  /\ forall x y, (x < width v1)%nat -> (y < height v1)%nat ->
                       (x * height v1 + y < k)%nat ->
                       in_byte_range (getpixel v2 x y))
             (fun _ _ => True)).
    + exists v1. repeat split; auto. intros; lia.
    + intros i j w2 Hi Hj (v2 & Hv2 & Hsize & Hpx).
      apply outcome_add_noise_pixel; [| done].
      intros v0 r g b v' Hv0 Hget Hput.
      rewrite Hv2 in Hv0. injection Hv0 as <-.
      apply putpixel_Some in Hput as (_ & Hs' & Hnew & Hold).
      exists v'. split.
      { unfold hp; simpl. apply list_lookup_insert_eq.
        by eapply lookup_lt_Some. }
      split; [congruence |].
      intros x y Hx Hy Hk.
      destruct (decide ((x, y) = (i, j))) as [[= -> ->] | Hne].
      * rewrite Hnew. apply noised_in_byte_range.
      * rewrite (Hold x y Hne). apply Hpx; auto.
        destruct (decide (x * height v1 + y = i * height v1 + j)%nat) as [E |];
          [| lia].
        apply column_major_inj in E as [-> ->]; done.
  - intros [e | []] w'; [done |].
    intros (out & Hout & Hsize & Hpx). exists out. repeat split; auto.
    intros x y Hx Hy. unfold width, height in *. rewrite Hsize in *.
    apply Hpx; auto. nia.
Qed.

(** On an RGB image whose pixels all have three bands [add_noise] does
    not raise, works on the object it was given and consumes one raw
    outcome for each pixel. *)
Lemma add_noise_rgb image w v :
  hp w !! image = Some v ->
  mode v = "RGB" ->
  (forall x y, (x < width v)%nat -> (y < height v)%nat ->
     exists r g b, getpixel v x y = Some [r; g; b]) ->
  outcome (add_noise lib image) w (fun r w' =>
    r = inr image /\ noised_upto image v w (width v * height v) w').
Proof.
  intros Hv Hmode Hread. apply outcome_add_noise.
  - intros image1 w1 v1 Hv1 [(-> & -> & _) | (v0 & Hv0 & Hm0 & _)].
    + rewrite Hv in Hv1. injection Hv1 as <-.
      eapply outcome_weaken; [by apply add_noise_loops_spec |].
      intros [e | []] w2; [done | auto].
    + rewrite Hv in Hv0. injection Hv0 as <-. done.
  - intros e Hno. exfalso. apply Hno. by exists v.
Qed.

(** ** The composer *)

Lemma outcome_select_augmentations w
  (Q : exn + list (ref -> M Mem ref) -> World Mem -> Prop) :
  (forall sel w',
      len sel = num_of (nth 0 (rng w) 0) ->
      Forall kernel_safe sel ->
      mem w' = mem w -> stdout w' = stdout w ->
      rng w' = drop (S (length sel)) (rng w) ->
      Q (inr sel) w') ->
  outcome (select_augmentations lib) w Q.
Proof.
  intros HQ. unfold select_augmentations.
  apply outcome_bind, outcome_randint; [lia |].
  replace (4 + 1 - 1) with 4 by lia.
  pose proof (Z.mod_pos_bound (nth 0 (rng w) 0) 4 ltac:(lia)) as Hr.
  change (len (augmentations lib)) with 7.
  rewrite Z.min_l by lia.
  apply (outcome_sample kernel_safe).
  - simpl. lia.
  - apply augmentations_safe.
  - intros sel w' Hl HS Hm Ho Hrng. apply HQ; auto.
    + unfold len, num_of. rewrite Hl. lia.
    + rewrite Hrng, Hl. simpl. by rewrite drop_drop.
Qed.

Lemma chain_safe sel :
  Forall kernel_safe sel ->
  forall n0 c cur w cur' oe w',
    (n0 <= length (hp w))%nat -> writable n0 c cur ->
    is_Some (hp w !! cur) ->
    chain sel cur w = ((cur', oe), w') ->
    keeps n0 c w w' /\ writable n0 c cur' /\ is_Some (hp w' !! cur').
Proof.
  unfold chain.
  induction 1 as [| k sel Hk _ IH]; intros n0 c cur w cur' oe w' Hn Hw Hs;
    simpl.
  - intros [= <- <- <-]. split; [apply keeps_refl | done].
  - pose proof (Hk n0 c cur w Hn Hw) as Hpost. unfold outcome in Hpost.
    destruct (k cur w) as [[e | cur1] w1]; simpl in Hpost.
    + intros [= <- <- <-]. destruct Hpost as [Hkeep _].
      split; [done | split; [done |]].
      apply lookup_lt_is_Some. apply lookup_lt_is_Some in Hs.
      destruct Hkeep as [Hl _]. lia.
    + destruct Hpost as (Hkeep & Hw1 & Hs1). intros Hrest.
      apply (IH n0 c) in Hrest as (Hkeep' & Hw' & Hs'); auto.
      * split; [by eapply keeps_trans | done].
      * destruct Hkeep as [Hl _]. lia.
Qed.

Lemma chain_raise (pre : list (ref -> M Mem ref)) (k : ref -> M Mem ref)
  (suf : list (ref -> M Mem ref)) :
  forall image w1 cur w2 e w3,
    for_acc pre (fun augmentation image => augmentation image) image w1
      = (inr cur, w2) ->
    k cur w2 = (inl e, w3) ->
    chain (pre ++ k :: suf) image w1 = ((cur, Some e), w3).
Proof.
  unfold chain.
  induction pre as [| a pre IH]; intros image w1 cur w2 e w3; simpl.
  - intros [= -> ->] Hk. by rewrite Hk.
  - unfold bind. destruct (a image w1) as [[e1 | image1] w1']; [done |].
    intros Hpre Hk. by apply (IH image1 w1' cur w2).
Qed.

Lemma augment_image_unfold image w sel w1 :
  select_augmentations lib w = (inr sel, w1) ->
  augment_image lib image w =
    match chain sel image w1 with
    | ((image', None), w') => (inr image', w')
    | ((image', Some e), w') =>
        (inr image',
         mkWorld (mem w') (rng w')
           (stdout w' ++ ["Error applying augmentation: " +:+ exn_msg e]))
    end.
Proof.
  intros Hsel. unfold augment_image, bind. rewrite Hsel.
  unfold chain. destruct (for_var _ _ _ _) as [[image' [e |]] w']; done.
Qed.

(** [augment_image] always returns an object; it changes none of the
    objects below [n0] but [c]. *)
Lemma augment_image_safe n0 c image w :
  (n0 <= length (hp w))%nat -> writable n0 c image ->
  is_Some (hp w !! image) ->
  outcome (augment_image lib image) w (fun r w' =>
    keeps n0 c w w'
    /\ exists image', r = inr image' /\ is_Some (hp w' !! image')).
Proof.
  intros Hn Hw Hs. unfold augment_image.
  apply outcome_bind, outcome_select_augmentations.
  intros sel w1 _ Hsafe Hmem _ _.
  unfold outcome. fold (chain sel image w1).
  destruct (chain sel image w1) as [[image' oe] w'] eqn:Hc.
  assert (Hhp : hp w1 = hp w) by (unfold hp; by rewrite Hmem).
  apply (chain_safe sel Hsafe n0 c) in Hc as (Hk & _ & Hs');
    [| rewrite ?Hhp; done ..].
  assert (Hk' : keeps n0 c w w').
  { eapply keeps_trans; [| exact Hk]. by apply keeps_same_mem. }
  destruct oe as [e |]; simpl; (split; [exact Hk' |]); by eexists.
Qed.

(** ** The driver *)

Variable os : OS.

(** One copy: the objects that existed before are what they were, and
    what is saved is made from a copy. *)
Lemma make_copies_keeps img v filename output_folder num_copies w :
  hp w !! img = Some v ->
  outcome (make_copies lib os img filename output_folder num_copies) w
    (fun _ w' =>
       hp w' !! img = Some v
       /\ exists added,
           files (mem w') = files (mem w) ++ added
           /\ Forall (fun entry => variant_of_copy lib img v (snd entry)) added).
Proof.
  intros Hv. unfold make_copies.
  set (Inv := fun w1 : World Mem =>
         hp w1 !! img = Some v
         /\ exists added,
             files (mem w1) = files (mem w) ++ added
             /\ Forall (fun entry => variant_of_copy lib img v (snd entry)) added).
  eapply outcome_weaken.
  - apply (outcome_for_each _ _ w (fun _ => Inv) (fun _ => Inv)).
    + split; [done |]. exists []. by rewrite app_nil_r.
    + intros pre i suf w1 _ (Hv1 & added & Hfiles & Hadded).
      apply outcome_bind. unfold copy_object.
      apply outcome_method.
      2:{ intros e. split; [done |]. by exists added. }
      intros v0 v' Hv0 [= <-]. rewrite Hv1 in Hv0. injection Hv0 as <-.
      set (c := length (hp w1)). set (w2 := set_mem _ w1).
      assert (Himg : (img < c)%nat) by (by eapply lookup_lt_Some).
      assert (Hc : hp w2 !! c = Some v).
      { unfold w2, hp, copy; simpl. rewrite lookup_app_r by done.
        by rewrite Nat.sub_diag. }
      apply outcome_bind, outcome_of_run. intros r w3 Hrun.
      pose proof (augment_image_safe (length (hp w2)) c c w2
                    ltac:(done) ltac:(by left) ltac:(by eexists)) as Hsafe.
      apply (outcome_run _ _ _ _ _ Hsafe) in Hrun as Hpost.
      destruct Hpost as ((Hlen & Hsame & Hfiles3) & r' & -> & [saved Hsaved]).
      assert (Hv3 : hp w3 !! img = Some v).
      { rewrite Hsame.
        - unfold w2, hp; simpl. rewrite lookup_app_l by done. exact Hv1.
        - unfold w2, hp; simpl. rewrite length_app. simpl. unfold c, hp in Himg.
          lia.
        - lia. }
      unfold save. apply outcome_bind, outcome_deref.
      2:{ intros HN. by rewrite Hsaved in HN. }
      intros saved' Hsaved'. rewrite Hsaved in Hsaved'. injection Hsaved' as <-.
      destruct (save_JPEG lib saved _) as [e |].
      * apply outcome_raise. split; [done |]. exists added.
        split; [| done]. rewrite Hfiles3. exact Hfiles.
      * unfold outcome, bind, get_mem, put_mem; simpl.
        split; [exact Hv3 |]. exists (added ++ [(join os output_folder
          (fst (splitext os filename) +:+ "_aug_" +:+ str (i + 1) +:+ ".jpg"),
          saved)]).
        split.
        -- rewrite Hfiles3. unfold w2; simpl. rewrite Hfiles.
           by rewrite app_assoc.
        -- apply Forall_app. split; [done |].
           apply List.Forall_cons; [| apply List.Forall_nil].
           simpl. exists w2, c, r', w3.
           assert (hp w2 !! img = Some v).
           { unfold w2, hp; simpl. by rewrite lookup_app_l. }
           repeat split; auto. lia.
  - intros [e | []] w'; auto.
Qed.

End WithLibrary.

End ImgaugFacts.

(* ===================================================================== *)
(** * Properties of the pydub model *)
(* ===================================================================== *)

Module PydubFacts.

Import Py Pydub.

Lemma bindE_inr {A B} (r : exn + A) (k : A -> exn + B) b :
  bindE r k = inr b -> exists a, r = inr a /\ k a = inr b.
Proof. destruct r; simpl; [done | eauto]. Qed.

Section WithLibrary.

Variable lib : Library.

(** ** Metadata *)

Lemma set_frame_rate_meta seg fr s :
  set_frame_rate lib seg fr = inr s ->
  frame_rate s = fr
  /\ sample_width s = sample_width seg /\ channels s = channels seg.
Proof.
  unfold set_frame_rate. destruct (Z.eqb_spec fr (frame_rate seg)) as [-> | _].
  - by intros [= <-].
  - intros H. apply bindE_inr in H as (d & _ & [= <-]). done.
Qed.

Lemma set_channels_meta seg ch s :
  set_channels lib seg ch = inr s ->
  channels s = ch
  /\ sample_width s = sample_width seg /\ frame_rate s = frame_rate seg.
Proof.
  unfold set_channels. destruct (Z.eqb_spec ch (channels seg)) as [-> | _].
  - by intros [= <-].
  - intros H. apply bindE_inr in H as (d & _ & [= <-]). done.
Qed.

Lemma set_sample_width_meta seg sw s :
  set_sample_width lib seg sw = inr s ->
  sample_width s = sw
  /\ channels s = channels seg /\ frame_rate s = frame_rate seg.
Proof.
  unfold set_sample_width.
  destruct (Z.eqb_spec sw (sample_width seg)) as [-> | _].
  - by intros [= <-].
  - intros H. apply bindE_inr in H as (d & _ & [= <-]). done.
Qed.

Lemma _sync1_meta seg ch fr sw s :
  _sync1 lib seg ch fr sw = inr s ->
  channels s = ch /\ frame_rate s = fr /\ sample_width s = sw.
Proof.
  unfold _sync1. intros H.
  apply bindE_inr in H as (s1 & H1 & H).
  apply bindE_inr in H as (s2 & H2 & H3).
  apply set_channels_meta in H1 as (? & ? & ?).
  apply set_frame_rate_meta in H2 as (? & ? & ?).
  apply set_sample_width_meta in H3 as (? & ? & ?).
  repeat split; congruence.
Qed.

(** A segment that already has the metadata asked for is returned as it
    is. *)
Lemma _sync1_same seg :
  _sync1 lib seg (channels seg) (frame_rate seg) (sample_width seg) = inr seg.
Proof.
  unfold _sync1, set_channels, set_frame_rate, set_sample_width.
  rewrite Z.eqb_refl. simpl. rewrite Z.eqb_refl. simpl.
  by rewrite Z.eqb_refl.
Qed.

Lemma _sync_meta seg1 seg2 s1 s2 :
  _sync lib seg1 seg2 = inr (s1, s2) ->
  frame_rate s1 = Z.max (frame_rate seg1) (frame_rate seg2)
  /\ channels s1 = Z.max (channels seg1) (channels seg2)
  /\ sample_width s1 = Z.max (sample_width seg1) (sample_width seg2)
  /\ frame_rate s2 = frame_rate s1
  /\ channels s2 = channels s1
  /\ sample_width s2 = sample_width s1.
Proof.
  unfold _sync. intros H.
  apply bindE_inr in H as (a & Ha & H).
  apply bindE_inr in H as (b & Hb & [= <- <-]).
  apply _sync1_meta in Ha as (? & ? & ?).
  apply _sync1_meta in Hb as (? & ? & ?).
  repeat split; congruence.
Qed.

Lemma __getitem___meta seg start stop s :
  __getitem__ seg start stop = inr s ->
  frame_rate s = frame_rate seg
  /\ channels s = channels seg /\ sample_width s = sample_width seg.
Proof.
  unfold __getitem__.
  destruct (__len__ seg) as [e | l]; [done |].
  destruct (_parse_position seg _) as [e | first]; [done |].
  destruct (_parse_position seg _) as [e | last]; [done |].
  destruct (_ =? 0); [by intros [= <-] |].
  destruct (_ && _); [done | by intros [= <-]].
Qed.

Lemma overlay_meta self seg position r :
  overlay lib self seg position = inr r ->
  frame_rate r = Z.max (frame_rate self) (frame_rate seg)
  /\ channels r = Z.max (channels self) (channels seg)
  /\ sample_width r = Z.max (sample_width self) (sample_width seg).
Proof.
  unfold overlay. intros H.
  apply bindE_inr in H as ([s1 s2] & Hs & H).
  apply bindE_inr in H as (hd & _ & H).
  apply bindE_inr in H as (tl & _ & H).
  apply bindE_inr in H as (added & _ & [= <-]).
  apply _sync_meta in Hs as (? & ? & ? & _). done.
Qed.

Lemma apply_gain_meta seg g r :
  apply_gain lib seg g = inr r ->
  frame_rate r = frame_rate seg
  /\ channels r = channels seg /\ sample_width r = sample_width seg.
Proof.
  unfold apply_gain. intros H.
  apply bindE_inr in H as (f & _ & H).
  apply bindE_inr in H as (d & _ & [= <-]). done.
Qed.

End WithLibrary.

(** ** Lengths *)

Lemma round_half_even_nonneg q : (0 <= q)%Q -> 0 <= round_half_even q.
Proof.
  intros Hq. unfold round_half_even.
  assert (0 <= Qfloor q).
  { change 0 with (Qfloor 0). by apply Qfloor_resp_le. }
  destruct (_ ?= _)%Q; [destruct (Z.even _) | |]; lia.
Qed.

Lemma __len___ok seg :
  0 < frame_rate seg -> exists l, __len__ seg = inr l /\ 0 <= l.
Proof.
  intros Hfr. unfold __len__.
  destruct (Z.eqb_spec (frame_rate seg) 0); [lia |].
  set (q := (1000 * _)%Q).
  assert (Hq : (0 <= q)%Q).
  { unfold q, frame_count, len.
    destruct (frame_rate seg) as [| p | p]; try lia.
    unfold Qle, Qdiv, Qmult, Qinv, inject_Z; simpl. lia. }
  pose proof (round_half_even_nonneg q Hq).
  destruct (Z.ltb_spec (round_half_even q) 0); [lia |]. eauto.
Qed.

(** ** Rounding, positions and slices *)

Lemma floor_cases q L :
  (inject_Z L - (1 # 2) < q)%Q -> (q < inject_Z L + (1 # 2))%Q ->
  Qfloor q = L - 1 \/ Qfloor q = L.
Proof.
  intros H1 H2.
  pose proof (Qfloor_le q) as Hf1. pose proof (Qlt_floor q) as Hf2.
  assert (Qfloor q <= L).
  { destruct (Z_le_gt_dec (Qfloor q) L) as [|Hgt]; [lia|].
    assert (Hle : L + 1 <= Qfloor q) by lia.
    rewrite Zle_Qle in Hle. rewrite inject_Z_plus in Hle.
    change (inject_Z 1) with 1%Q in Hle. exfalso. lra. }
  assert (L - 1 <= Qfloor q).
  { destruct (Z_le_gt_dec (L - 1) (Qfloor q)) as [|Hgt]; [lia|].
    assert (Hle : Qfloor q + 1 <= L - 1) by lia.
    rewrite Zle_Qle in Hle. rewrite inject_Z_plus in Hf2.
    unfold Z.sub in Hle. rewrite !inject_Z_plus in Hle.
    rewrite inject_Z_opp in Hle. change (inject_Z 1) with 1%Q in *. exfalso. lra. }
  lia.
Qed.

Lemma round_half_even_near q L :
  (inject_Z L - (1 # 2) < q)%Q -> (q < inject_Z L + (1 # 2))%Q ->
  round_half_even q = L.
Proof.
  intros H1 H2. unfold round_half_even.
  destruct (floor_cases q L H1 H2) as [E | E]; rewrite E.
  - unfold Z.sub. 
    destruct (_ ?= _)%Q eqn:C;
      [apply Qeq_alt in C | apply Qlt_alt in C | apply Qgt_alt in C];
      rewrite inject_Z_plus, inject_Z_opp in C; change (inject_Z 1) with 1%Q in C;
      try (exfalso; lra). lia.
  - destruct (_ ?= _)%Q eqn:C;
      [apply Qeq_alt in C | apply Qlt_alt in C | apply Qgt_alt in C];
      try (exfalso; lra). reflexivity.
Qed.

Lemma round_half_even_close q :
  (inject_Z (round_half_even q) - (1 # 2) <= q)%Q
  /\ (q <= inject_Z (round_half_even q) + (1 # 2))%Q.
Proof.
  unfold round_half_even.
  pose proof (Qfloor_le q) as Hf1. pose proof (Qlt_floor q) as Hf2.
  rewrite inject_Z_plus in Hf2. change (inject_Z 1) with 1%Q in Hf2.
  destruct (_ ?= _)%Q eqn:E.
  - apply Qeq_alt in E.
    destruct (Z.even _); rewrite ?inject_Z_plus; change (inject_Z 1) with 1%Q; lra.
  - apply Qlt_alt in E. lra.
  - apply Qgt_alt in E. rewrite inject_Z_plus. change (inject_Z 1) with 1%Q. lra.
Qed.

Lemma len_Z n fr L :
  0 < fr ->
  (2 * L - 1) * fr < 2000 * n -> 2000 * n < (2 * L + 1) * fr ->
  round_half_even (1000 * (inject_Z n / inject_Z fr)) = L.
Proof.
  intros Hfr H1 H2. apply round_half_even_near.
  - destruct fr as [| p | p]; try lia.
    unfold Qlt, Qminus, Qplus, Qopp, Qmult, Qdiv, Qinv, inject_Z; simpl.
    lia.
  - destruct fr as [| p | p]; try lia.
    unfold Qlt, Qminus, Qplus, Qopp, Qmult, Qdiv, Qinv, inject_Z; simpl.
    lia.
Qed.

Lemma len_Z_bounds n fr :
  0 < fr ->
  let L := round_half_even (1000 * (inject_Z n / inject_Z fr)) in
  (2 * L - 1) * fr <= 2000 * n <= (2 * L + 1) * fr.
Proof.
  intros Hfr L. destruct (round_half_even_close (1000 * (inject_Z n / inject_Z fr))) as [H1 H2].
  fold L in H1, H2.
  destruct fr as [| p | p]; try lia.
  unfold Qle, Qminus, Qplus, Qopp, Qmult, Qdiv, Qinv, inject_Z in H1, H2; simpl in H1, H2.
  lia.
Qed.

Lemma parse_position_nonneg seg val :
  0 <= val -> 0 <= frame_rate seg ->
  _parse_position seg val = inr (val * frame_rate seg / 1000).
Proof.
  intros Hv Hfr. unfold _parse_position.
  destruct (Z.ltb_spec val 0); [lia |].
  unfold frame_count_ms. f_equal.
  unfold Qmult, Qdiv, Qinv, inject_Z; simpl.
  rewrite Z.quot_div_nonneg by lia. f_equal. lia.
Qed.

Lemma len_py_slice {A} (l : list A) a b :
  0 <= a -> 0 <= b ->
  len (py_slice l a b) = Z.max 0 (Z.min b (len l) - Z.min a (len l)).
Proof.
  intros Ha Hb. unfold py_slice, slice_index, len.
  destruct (Z.ltb_spec a 0); [lia |]. destruct (Z.ltb_spec b 0); [lia |].
  rewrite length_take, length_drop. lia.
Qed.

Lemma len_padding data m :
  data <> [] -> 0 <= m -> len (padding data m) = m.
Proof.
  intros Hne Hm. unfold padding, len.
  destruct data as [| f data]; [done |]. simpl.
  induction (Z.to_nat m) as [| k IH] eqn:E in m, Hm |- *; simpl.
  - lia.
  - specialize (IH (m - 1) ltac:(lia) ltac:(lia)). lia.
Qed.

Lemma __len___inv seg L :
  0 < frame_rate seg -> __len__ seg = inr L ->
  0 <= L
  /\ (2 * L - 1) * frame_rate seg <= 2000 * frame_count seg
  /\ 2000 * frame_count seg <= (2 * L + 1) * frame_rate seg.
Proof.
  intros Hfr. unfold __len__.
  destruct (Z.eqb_spec (frame_rate seg) 0); [lia |].
  destruct (Z.ltb_spec (round_half_even (1000 * (inject_Z (frame_count seg) / inject_Z (frame_rate seg)))) 0); [done |].
  intros [= <-]. split; [done |].
  by apply len_Z_bounds.
Qed.

Lemma __len___near seg L :
  0 < frame_rate seg -> 0 <= L ->
  (2 * L - 1) * frame_rate seg < 2000 * frame_count seg ->
  2000 * frame_count seg < (2 * L + 1) * frame_rate seg ->
  __len__ seg = inr L.
Proof.
  intros Hfr HL H1 H2. unfold __len__.
  destruct (Z.eqb_spec (frame_rate seg) 0); [lia |].
  rewrite (len_Z _ _ L) by done.
  destruct (Z.ltb_spec L 0); [lia | done].
Qed.

Lemma div_1000_bounds x : 1000 * (x / 1000) <= x < 1000 * (x / 1000) + 1000.
Proof.
  pose proof (Z.div_mod x 1000 ltac:(lia)).
  pose proof (Z.mod_pos_bound x 1000 ltac:(lia)). lia.
Qed.

Lemma __getitem___head seg p L hd :
  0 <= p -> 0 < frame_rate seg -> __len__ seg = inr L ->
  __getitem__ seg None (Some p) = inr hd ->
  len (_data hd) = Z.min p L * frame_rate seg / 1000.
Proof.
  intros Hp Hfr Hlen. destruct (__len___inv seg L Hfr Hlen) as (HL & Hlo & Hhi).
  unfold __getitem__. rewrite Hlen.
  rewrite Z.min_l by lia.
  rewrite !parse_position_nonneg by lia.
  change (0 * frame_rate seg / 1000) with 0.
  set (P := Z.min p L * frame_rate seg / 1000).
  assert (HP : 0 <= P) by (apply Z.div_pos; [apply Z.mul_nonneg_nonneg |]; lia).
  pose proof (len_py_slice (_data seg) 0 P ltac:(lia) HP) as Hs.
  fold (frame_count seg) in Hs.
  assert (HN : 0 <= frame_count seg) by (unfold frame_count, len; lia).
  destruct (Z.eqb_spec (P - 0 - len (py_slice (_data seg) 0 P)) 0) as [E | E].
  - intros [= <-]. simpl. lia.
  - destruct (_ && _); [done |]. intros [= <-]. simpl.
    unfold len at 1. rewrite length_app.
    assert (Hdata : py_slice (_data seg) 0 P <> []).
    { intros Hnil. rewrite Hnil in Hs, E. unfold len in Hs at 1, E.
      simpl in Hs, E.
      assert (frame_count seg = 0) by lia.
      assert (L = 0) by nia.
      subst L. unfold P in E. rewrite Z.min_r in E by lia.
      change (0 * frame_rate seg / 1000) with 0 in E. lia. }
    pose proof (len_padding _ (P - 0 - len (py_slice (_data seg) 0 P)) Hdata ltac:(lia)) as Hpad.
    unfold frame_count, len in *. lia.
Qed.

Lemma __getitem___tail seg p L tl :
  0 <= p -> 0 < frame_rate seg -> __len__ seg = inr L ->
  __getitem__ seg (Some p) None = inr tl ->
  len (_data tl)
  = L * frame_rate seg / 1000 - Z.min p L * frame_rate seg / 1000.
Proof.
  intros Hp Hfr Hlen. destruct (__len___inv seg L Hfr Hlen) as (HL & Hlo & Hhi).
  unfold __getitem__. rewrite Hlen.
  rewrite (Z.min_id L).
  rewrite !parse_position_nonneg by lia.
  set (P := Z.min p L * frame_rate seg / 1000).
  set (F := L * frame_rate seg / 1000).
  assert (HP : 0 <= P) by (apply Z.div_pos; [apply Z.mul_nonneg_nonneg |]; lia).
  assert (HPF : P <= F).
  { apply Z.div_le_mono; [lia |]. apply Z.mul_le_mono_nonneg_r; lia. }
  pose proof (len_py_slice (_data seg) P F HP ltac:(lia)) as Hs.
  fold (frame_count seg) in Hs.
  assert (HN : 0 <= frame_count seg) by (unfold frame_count, len; lia).
  destruct (Z.eqb_spec (F - P - len (py_slice (_data seg) P F)) 0) as [E | E].
  - intros [= <-]. simpl. lia.
  - destruct (_ && _); [done |]. intros [= <-]. simpl.
    unfold len at 1. rewrite length_app.
    assert (HPN : P < frame_count seg).
    { destruct (Z.eq_dec (Z.min p L) L) as [Em | Em].
      - exfalso. unfold P, F in *. rewrite Em in *. lia.
      - assert (Hp' : Z.min p L <= L - 1) by lia.
        pose proof (div_1000_bounds (Z.min p L * frame_rate seg)) as HbP.
        fold P in HbP.
        assert (Z.min p L * frame_rate seg <= (L - 1) * frame_rate seg)
          by (apply Z.mul_le_mono_nonneg_r; lia).
        lia. }
    assert (Hdata : py_slice (_data seg) P F <> []).
    { intros Hnil. rewrite Hnil in Hs, E. unfold len in Hs at 1, E.
      simpl in Hs, E. lia. }
    pose proof (len_padding _ (F - P - len (py_slice (_data seg) P F)) Hdata
                  ltac:(lia)) as Hpad.
    unfold frame_count, len in *. lia.
Qed.

Lemma length_map2 {A B C} (f : A -> B -> C) l1 l2 :
  length (map2 f l1 l2) = Nat.min (length l1) (length l2).
Proof.
  revert l2. induction l1 as [| a l1 IH]; intros [| b l2]; simpl; auto.
Qed.

Lemma audioop_add_len f1 f2 width added :
  audioop_add f1 f2 width = inr added -> len added = len f1.
Proof.
  unfold audioop_add. destruct (negb _); [done |].
  destruct (Z.eqb_spec (len f1) (len f2)) as [E | E]; [| done]. simpl.
  intros [= <-]. unfold len in *. rewrite length_map2.
  rewrite Nat.min_l by lia. done.
Qed.

Section Overlay.

Variable lib : Library.

Lemma _sync_left_same self seg s1 s2 :
  channels seg <= channels self ->
  frame_rate seg <= frame_rate self ->
  sample_width seg <= sample_width self ->
  _sync lib self seg = inr (s1, s2) -> s1 = self.
Proof.
  intros Hc Hf Hw. unfold _sync.
  rewrite !Z.max_l by lia. rewrite _sync1_same. simpl.
  intros H. apply bindE_inr in H as (b & _ & [= <- _]). done.
Qed.

Lemma overlay_frame_count self seg p L r :
  channels seg <= channels self ->
  frame_rate seg <= frame_rate self ->
  sample_width seg <= sample_width self ->
  0 <= p -> 0 < frame_rate self -> __len__ self = inr L ->
  overlay lib self seg p = inr r ->
  frame_count r = L * frame_rate self / 1000
  /\ frame_rate r = frame_rate self.
Proof.
  intros Hc Hf Hw Hp Hfr Hlen. unfold overlay.
  intros H. apply bindE_inr in H as ([s1 s2] & Hs & H).
  apply _sync_left_same in Hs as ->; [| done ..].
  apply bindE_inr in H as (hd & Hhd & H).
  apply bindE_inr in H as (tl & Htl & H).
  apply bindE_inr in H as (added & Hadd & [= <-]).
  apply (__getitem___head self p L hd Hp Hfr Hlen) in Hhd.
  apply (__getitem___tail self p L tl Hp Hfr Hlen) in Htl.
  apply audioop_add_len in Hadd.
  split; [| done].
  unfold frame_count; simpl.
  assert (HT : 0 <= len (_data tl)) by (unfold len; lia).
  assert (HE : 0 <= len (_data s2)) by (unfold len; lia).
  rewrite Z.sub_0_r in *. rewrite Z.max_r in * by lia.
  unfold len at 1. rewrite !length_app.
  destruct (Z.leb_spec (len (_data tl)) (len (_data s2))).
  - rewrite len_py_slice in Hadd by lia.
    pose proof (len_py_slice (_data tl) (0 + len (_data tl)) (len (_data tl))
                  ltac:(lia) ltac:(lia)) as Hrest.
    unfold len in *. lia.
  - rewrite len_py_slice in Hadd by lia.
    pose proof (len_py_slice (_data tl) (0 + len (_data s2)) (len (_data tl))
                  ltac:(lia) ltac:(lia)) as Hrest.
    unfold len in *. lia.
Qed.

End Overlay.

End PydubFacts.

(* ===================================================================== *)
(** * Properties of speechaug.py *)
(* ===================================================================== *)

Module SpeechaugFacts.

Import Py Pydub Speechaug SpeechaugSpec PyFacts PydubFacts.
Local Open Scope py_scope.

Section WithLibrary.

Variable lib : Library.

(** ** No kernel raises *)

Lemma time_stretch_total rate : kernel_total (fun a => time_stretch lib a rate).
Proof.
  intros a w Hfr. unfold time_stretch.
  apply outcome_guarded; [done |].
  intros a' w1 H.
  apply bind_inr in H as (fr & w2 & _ & H).
  apply lift_inr in H as [H _].
  apply set_frame_rate_meta in H as (-> & _). exact Hfr.
Qed.

Lemma pitch_shift_total semitones :
  kernel_total (fun a => pitch_shift lib a semitones).
Proof.
  intros a w Hfr. unfold pitch_shift.
  apply outcome_guarded; [done |].
  intros a' w1 H.
  apply bind_inr in H as (ratio & w2 & _ & H).
  apply bind_inr in H as (fr & w3 & _ & H).
  apply lift_inr in H as [H _].
  apply set_frame_rate_meta in H as (-> & _). exact Hfr.
Qed.

Lemma volume_adjust_total db_change :
  kernel_total (fun a => volume_adjust lib a db_change).
Proof.
  intros a w Hfr. unfold volume_adjust.
  apply outcome_guarded; [done |].
  intros a' w1 H. apply lift_inr in H as [H _].
  apply apply_gain_meta in H as (-> & _). exact Hfr.
Qed.

Lemma reverb_effect_total decay :
  kernel_total (fun a => reverb_effect lib a decay).
Proof.
  intros a w Hfr. unfold reverb_effect.
  apply outcome_guarded; [done |].
  intros a' w1 H.
  apply bind_inr in H as (echo & w2 & _ & H).
  apply bind_inr in H as (delay & w3 & _ & H).
  apply bind_inr in H as (echo' & w4 & _ & H).
  apply bind_inr in H as (result & w5 & H & H').
  apply ret_inr in H' as [-> _].
  apply lift_inr in H as [H _].
  apply overlay_meta in H as (-> & _). lia.
Qed.

Lemma add_noise_total noise_type noise_level :
  kernel_total (fun a => add_noise lib a noise_type noise_level).
Proof.
  intros a w Hfr. unfold add_noise.
  destruct (__len___ok a Hfr) as (l & Hl & _). rewrite Hl.
  apply outcome_bind, outcome_lift.
  apply outcome_guarded; [done |].
  intros a' w1 H.
  apply bind_inr in H as (noise & w2 & _ & H).
  apply bind_inr in H as (l' & w3 & _ & H).
  destruct (l' =? 0).
  - by apply ret_inr in H as [-> _].
  - apply bind_inr in H as (nd & w4 & _ & H).
    apply bind_inr in H as (ad & w5 & _ & H).
    apply bind_inr in H as (noise' & w6 & _ & H).
    apply lift_inr in H as [H _].
    apply overlay_meta in H as (-> & _). lia.
Qed.

Lemma augmentations_total : Forall kernel_total (augmentations lib).
Proof.
  unfold augmentations.
  repeat apply List.Forall_cons; try apply List.Forall_nil.
  - intros a w Hfr.
    apply outcome_bind, outcome_choice; [done |]. intros noise_type _.
    apply outcome_bind, outcome_uniform. intros noise_level.
    by apply add_noise_total.
  - intros a w Hfr. apply outcome_bind, outcome_uniform. intros rate.
    by apply time_stretch_total.
  - intros a w Hfr. apply outcome_bind, outcome_uniform. intros semitones.
    by apply pitch_shift_total.
  - intros a w Hfr. apply outcome_bind, outcome_uniform. intros db_change.
    by apply volume_adjust_total.
  - intros a w Hfr. apply outcome_bind, outcome_uniform. intros decay.
    by apply reverb_effect_total.
Qed.

(** ** No kernel touches the exported files *)

Lemma pure_mem_to_audio_segment kind duration :
  pure_mem (to_audio_segment lib kind duration).
Proof.
  intros w. unfold to_audio_segment. by destruct (noise_segment _ _ _ _).
Qed.

Lemma augmentations_pure :
  Forall (fun k => forall a, pure_mem (k a)) (augmentations lib).
Proof.
  unfold augmentations.
  repeat apply List.Forall_cons; try apply List.Forall_nil; intros a;
    unfold add_noise, time_stretch, pitch_shift, volume_adjust, reverb_effect;
    repeat first
      [ solve [auto using pure_mem_to_audio_segment with pure_mem]
      | apply pure_mem_bind; [| intros]
      | apply pure_mem_try_except; [| intros]
      | match goal with
        | |- pure_mem (if ?b then _ else _) => destruct b
        end ].
Qed.

(** ** The composer *)

Lemma outcome_select_effects w
  (Q : exn + list (AudioSegment -> M Mem AudioSegment) -> World Mem -> Prop) :
  (forall sel w',
      len sel = num_effects_of (nth 0 (rng w) 0) ->
      Forall kernel_total sel ->
      Forall (fun k => forall a, pure_mem (k a)) sel ->
      mem w' = mem w -> stdout w' = stdout w ->
      rng w' = drop (S (length sel)) (rng w) ->
      Q (inr sel) w') ->
  outcome (select_augmentations lib) w Q.
Proof.
  intros HQ. unfold select_augmentations.
  apply outcome_bind, outcome_randint; [lia |].
  replace (3 + 1 - 1) with 3 by lia.
  pose proof (Z.mod_pos_bound (nth 0 (rng w) 0) 3 ltac:(lia)) as Hr.
  change (len (augmentations lib)) with 5.
  rewrite Z.min_l by lia.
  apply (outcome_sample
           (fun k => kernel_total k /\ forall a, pure_mem (k a))).
  - simpl. lia.
  - pose proof augmentations_total as Ht.
    pose proof augmentations_pure as Hp.
    rewrite Forall_forall in *. intros k Hk. auto.
  - intros sel w' Hl HS Hm Ho Hrng.
    apply HQ; auto.
    + unfold len, num_effects_of. rewrite Hl. lia.
    + eapply Forall_impl; [exact HS |]. by intros k [? ?].
    + eapply Forall_impl; [exact HS |]. by intros k [? ?].
    + rewrite Hrng, Hl. simpl. by rewrite drop_drop.
Qed.

Lemma for_acc_total (sel : list (AudioSegment -> M Mem AudioSegment)) :
  Forall kernel_total sel ->
  forall a w,
    0 < frame_rate a ->
    outcome (for_acc sel (fun augmentation result => augmentation result) a) w
      (fun r _ => exists a', r = inr a' /\ 0 < frame_rate a').
Proof.
  induction 1 as [| k sel Hk _ IH]; intros a w Hfr; simpl.
  - apply outcome_ret. eauto.
  - apply outcome_bind. eapply outcome_weaken; [by apply Hk |].
    intros r w1 (a1 & -> & Hfr1). by apply IH.
Qed.

(** [augment_audio] returns a clip and leaves the exported files alone. *)
Lemma augment_audio_total audio w :
  0 < frame_rate audio ->
  outcome (augment_audio lib audio) w
    (fun r _ => exists a', r = inr a' /\ 0 < frame_rate a').
Proof.
  intros Hfr. unfold augment_audio.
  apply outcome_bind, outcome_select_effects.
  intros sel w1 _ Htotal _ _ _ _. by apply for_acc_total.
Qed.

Lemma augment_audio_pure audio : pure_mem (augment_audio lib audio).
Proof.
  intros w. unfold augment_audio, bind.
  pose proof (outcome_select_effects w (fun r w1 =>
                match r with
                | inr sel =>
                    mem w1 = mem w
                    /\ Forall (fun k => forall a, pure_mem (k a)) sel
                | inl _ => False
                end)) as H.
  unfold outcome in H.
  destruct (select_augmentations lib w) as [[e | sel] w1]; simpl in *.
  - exfalso. apply H. auto.
  - destruct H as [Hm Hp]; [auto |].
    rewrite <- Hm. apply pure_mem_for_acc.
    eapply Forall_impl; [exact Hp |]. auto.
Qed.

(** ** The driver *)

Variable os : OS.

(** Every augmented file that the loop exports is made from the clip as
    it was loaded. *)
Lemma make_augmentations_from_original audio filename output_folder
  base_name file_ext num_augmentations w :
  outcome
    (make_augmentations lib os audio filename output_folder base_name
       file_ext num_augmentations) w
    (fun r w' =>
       r = inr tt
       /\ exists added,
           mem w' = mem w ++ added
           /\ Forall (fun entry => augmented_from lib audio (snd entry)) added).
Proof.
  unfold make_augmentations.
  set (Inv := fun w1 : World Mem =>
         exists added,
           mem w1 = mem w ++ added
           /\ Forall (fun entry => augmented_from lib audio (snd entry)) added).
  eapply outcome_weaken.
  - apply (outcome_for_each _ _ w (fun _ => Inv) (fun _ _ => False)).
    + exists []. by rewrite app_nil_r.
    + intros pre i suf w1 _ (added & Hmem & Hadded).
      apply outcome_try_except, outcome_bind, outcome_of_run.
      intros r w2 Hrun.
      assert (Hmem2 : mem w2 = mem w1).
      { pose proof (augment_audio_pure audio w1) as Hp.
        by rewrite Hrun in Hp. }
      destruct r as [e | a].
      * apply outcome_print. exists added. simpl. by rewrite Hmem2.
      * unfold export_to. destruct (export lib a _ _) as [e |].
        -- apply outcome_raise, outcome_print. exists added. simpl.
           by rewrite Hmem2.
        -- unfold outcome, bind, get_mem, put_mem; simpl.
           eexists (added ++ [(_, a)]). split.
           ++ simpl. rewrite Hmem2, Hmem. by rewrite app_assoc.
           ++ apply Forall_app. split; [done |].
              apply List.Forall_cons; [| apply List.Forall_nil].
              simpl. by exists w1, w2.
  - intros [e | []] w'; [done |]. intros HI. by split.
Qed.

End WithLibrary.

End SpeechaugFacts.

(* ===================================================================== *)
(** * The image kernels and the image composer *)
(* ===================================================================== *)

Module ImageClaims.

Import Py PIL Imgaug ImgaugSpec PyFacts PILFacts ImgaugFacts Fixtures.
Local Open Scope py_scope.

(** ** Rotation *)

(** C4, as the code has it: four quarter turns give back a square image,
    pixel for pixel. *)
Theorem rotate_90_four_times_square (img : Image) :
  wf_image img = true ->
  width img = height img ->
  Nat.iter 4 (fun v => rotate v deg90) img = img.
Proof.
  intros Hwf Hsq. cbv [Nat.iter nat_rect].
  assert (Hsize : forall v, width v = height v ->
            width (transpose v ROTATE_90) = height (transpose v ROTATE_90)).
  { intros v Hv. unfold transpose, build, width, height in *; simpl. done. }
  rewrite (rotate_square_90 img) by done.
  rewrite (rotate_square_90 (transpose img ROTATE_90)) by auto.
  rewrite (rotate_square_90 (transpose (transpose img ROTATE_90) ROTATE_90))
    by auto.
  rewrite (rotate_square_90
             (transpose (transpose (transpose img ROTATE_90) ROTATE_90)
                ROTATE_90)) by auto.
  by apply transpose_90_four.
Qed.

Lemma rotate_90_four_times_square_witness :
  Nat.iter 4 (fun v => rotate v deg90) rgb_2x2 = rgb_2x2.
Proof.
  apply (rotate_90_four_times_square rgb_2x2); reflexivity.
Defined.

(** C4, as the specification has it, fails on an image that is not square:
    a quarter turn keeps the frame of two by one, one pixel turns out of
    it at each turn, and after four turns both are black. *)
Lemma rotate_90_four_times_wide :
  rotate rgb_2x1 deg90
    = mkImage "RGB" (2%nat, 1%nat) [[[0; 128; 255]; [0; 0; 0]]]
  /\ Nat.iter 4 (fun v => rotate v deg90) rgb_2x1
     = mkImage "RGB" (2%nat, 1%nat) [[[0; 0; 0]; [0; 0; 0]]]
  /\ Nat.iter 4 (fun v => rotate v deg90) rgb_2x1 <> rgb_2x1.
Proof.
  split; [| split].
  - vm_compute. reflexivity.
  - vm_compute. reflexivity.
  - vm_compute. discriminate.
Qed.

(** A quarter turn of an image that is not square keeps the size of the
    frame. *)
Lemma rotate_keeps_frame (img : Image) (t : QuarterTurn) :
  width img <> height img -> size (rotate img t) = size img.
Proof.
  intros Hne. destruct img as [m [w h] rows]. unfold width, height in *.
  simpl in *. destruct t; unfold rotate, width, height; simpl;
    try (destruct (Nat.eqb_spec w h); [done |]); reflexivity.
Qed.

(** ** Noise injection *)

Section WithLibrary.

Variable lib : Library.

(** C2, as the code has it: on an RGB image [add_noise] draws once for
    each pixel, column by column, and adds that one noise to the three
    channels of the pixel; the noise is between -20 and 20 and each sum is
    clamped to 0..255.  It works on the object it was given and returns
    it. *)
Theorem add_noise_one_draw_per_pixel (image : ref) (w : World Mem)
  (v : Image) :
  hp w !! image = Some v ->
  mode v = "RGB" ->
  (forall x y, (x < width v)%nat -> (y < height v)%nat ->
     exists r g b, getpixel v x y = Some [r; g; b]) ->
  exists v',
    add_noise lib image w
      = (inr image,
         mkWorld (mkMem (<[image := v']> (hp w)) (files (mem w)))
           (drop (width v * height v) (rng w)) (stdout w))
    /\ size v' = size v
    /\ forall x y, (x < width v)%nat -> (y < height v)%nat ->
         exists r g b n,
           getpixel v x y = Some [r; g; b]
           /\ n = noise_of (nth (x * height v + y) (rng w) 0)
           /\ -20 <= n <= 20
           /\ getpixel v' x y
              = Some [clamp (r + n); clamp (g + n); clamp (b + n)].
Proof.
  intros Hv Hmode Hread.
  pose proof (add_noise_rgb lib image w v Hv Hmode Hread) as Hout.
  unfold outcome in Hout.
  destruct (add_noise lib image w) as [r w'] eqn:Erun. simpl in Hout.
  destruct Hout as (-> & v' & -> & _ & Hsize & Hpx).
  exists v'. split; [done |]. split; [done |].
  intros x y Hx Hy. destruct (Hread x y Hx Hy) as (r & g & b & Hrgb).
  exists r, g, b, (noise_of (nth (x * height v + y) (rng w) 0)).
  split; [done |]. split; [done |]. split; [apply noise_of_range |].
  rewrite Hpx. destruct (decide _) as [_ | Hn].
  - unfold px. by rewrite Hrgb.
  - exfalso. apply Hn. repeat split; auto. nia.
Qed.

(** C8: whatever the image and the draws, a channel of a pixel of the
    image that [add_noise] returns is between 0 and 255. *)
Theorem add_noise_channels_in_range (image : ref) (w : World Mem)
  (r : ref) (w' : World Mem) (out : Image) (x y : nat) :
  add_noise lib image w = (inr r, w') ->
  hp w' !! r = Some out ->
  (x < width out)%nat -> (y < height out)%nat ->
  exists a b c,
    getpixel out x y = Some [a; b; c]
    /\ 0 <= a <= 255 /\ 0 <= b <= 255 /\ 0 <= c <= 255.
Proof.
  intros Hrun Hout Hx Hy.
  assert (Hpost : outcome (add_noise lib image) w (fun r w' =>
            match r with
            | inl _ => True
            | inr r =>
                exists out, hp w' !! r = Some out
                  /\ forall x y, (x < width out)%nat -> (y < height out)%nat ->
                       in_byte_range (getpixel out x y)
            end)).
  { apply outcome_add_noise; [| done].
    intros image1 w1 v1 Hv1 _.
    eapply outcome_weaken; [by apply add_noise_loops_range |].
    intros [e | []] w2; [done |].
    intros (o & Ho & _ & Hpx). by exists o. }
  apply (outcome_run _ _ _ _ _ Hpost) in Hrun as (out' & Hout' & Hpx).
  rewrite Hout in Hout'. injection Hout' as <-. by apply Hpx.
Qed.

(** ** The failure policy of the image composer *)

(** C1, as the code has it: when a kernel of the chain raises,
    [augment_image] prints the error and returns the buffer that the
    kernels before the failing one produced: [cur], the result of running
    [pre], the part of the chain before the kernel [k] that raises.  What
    those kernels did is kept. *)
Theorem augment_image_returns_buffer_at_failure (image : ref)
  (w : World Mem) (sel : list (ref -> M Mem ref)) (w1 : World Mem)
  (pre : list (ref -> M Mem ref)) (k : ref -> M Mem ref)
  (suf : list (ref -> M Mem ref)) (cur : ref) (w2 : World Mem) (e : exn)
  (w3 : World Mem) :
  select_augmentations lib w = (inr sel, w1) ->
  sel = pre ++ k :: suf ->
  for_acc pre (fun augmentation image => augmentation image) image w1
    = (inr cur, w2) ->
  k cur w2 = (inl e, w3) ->
  augment_image lib image w
    = (inr cur,
       mkWorld (mem w3) (rng w3)
         (stdout w3 ++ ["Error applying augmentation: " +:+ exn_msg e])).
Proof.
  intros Hsel -> Hpre Hk.
  rewrite (augment_image_unfold lib image w _ w1 Hsel).
  by rewrite (chain_raise pre k suf image w1 cur w2 e w3 Hpre Hk).
Qed.

End WithLibrary.

Lemma augment_image_returns_buffer_at_failure_witness :
  augment_image pil0 0%nat (img_world [palette_2x1] [1; 5; 0])
    = (inr 1%nat,
       mkWorld
         (mkMem [palette_2x1; transpose palette_2x1 FLIP_LEFT_RIGHT] []) []
         ([] ++ ["Error applying augmentation: " +:+ exn_msg wrong_mode])).
Proof.
  apply (augment_image_returns_buffer_at_failure pil0 0%nat
           (img_world [palette_2x1] [1; 5; 0])
           mirror_then_blur
           (img_world [palette_2x1] [])
           [fun img => mirror_image img]
           (fun img =>
              let* radius := uniform (5 # 10) (15 # 10) in
              method img (filter_GaussianBlur pil0 radius))
           [] 1%nat
           (img_world [palette_2x1; transpose palette_2x1 FLIP_LEFT_RIGHT] [])
           wrong_mode
           (img_world [palette_2x1; transpose palette_2x1 FLIP_LEFT_RIGHT] [])).
  - reflexivity.
  - reflexivity.
  - vm_compute. reflexivity.
  - vm_compute. reflexivity.
Defined.

(** C1, as the specification has it, fails on that run: the second kernel
    raises, and what [augment_image] returns is the mirrored image that
    the first kernel made, not the image as it was before the chain. *)
Lemma augment_image_keeps_earlier_effects :
  exists w1 w2 w3,
    select_augmentations pil0 (img_world [palette_2x1] [1; 5; 0])
      = (inr mirror_then_blur, w1)
    /\ mirror_image 0%nat w1 = (inr 1%nat, w2)
    /\ (let* radius := uniform (5 # 10) (15 # 10) in
        method 1%nat (filter_GaussianBlur pil0 radius)) w2
       = (inl wrong_mode, w3)
    /\ augment_image pil0 0%nat (img_world [palette_2x1] [1; 5; 0])
       = (inr 1%nat,
          mkWorld
            (mkMem [palette_2x1;
                    mkImage "P" (2%nat, 1%nat) [[[2]; [1]]]] []) []
            ["Error applying augmentation: image has wrong mode"])
    /\ mkImage "P" (2%nat, 1%nat) [[[2]; [1]]] <> palette_2x1.
Proof.
  exists (img_world [palette_2x1] []),
    (img_world [palette_2x1; transpose palette_2x1 FLIP_LEFT_RIGHT] []),
    (img_world [palette_2x1; transpose palette_2x1 FLIP_LEFT_RIGHT] []).
  split; [reflexivity |].
  split; [vm_compute; reflexivity |].
  split; [vm_compute; reflexivity |].
  split; [vm_compute; reflexivity | discriminate].
Qed.

(** C2, as the specification has it, fails on a grey pixel with the raw
    outcomes 0, 20 and 40, which stand for the noises -20, 0 and 20: three
    independent draws give (80, 100, 120) and use up the three outcomes;
    [add_noise] gives (80, 80, 80) and uses one.  Whatever the draws, the
    three channels of the grey pixel stay equal. *)
Lemma add_noise_shares_one_draw :
  add_noise pil0 0%nat (img_world [gray_1x1] [0; 20; 40])
    = (inr 0%nat,
       img_world [mkImage "RGB" (1%nat, 1%nat) [[[80; 80; 80]]]] [20; 40])
  /\ NoiseInjection_independent gray_1x1 [0; 20; 40]
     = (mkImage "RGB" (1%nat, 1%nat) [[[80; 100; 120]]], [])
  /\ forall tape r w' out a b c,
       add_noise pil0 0%nat (img_world [gray_1x1] tape) = (inr r, w') ->
       hp w' !! r = Some out ->
       getpixel out 0 0 = Some [a; b; c] ->
       a = b /\ b = c.
Proof.
  split; [vm_compute; reflexivity |]. split; [vm_compute; reflexivity |].
  intros tape r w' out a b c Hrun Hout Hpx.
  assert (Hspec : outcome (add_noise pil0 0%nat)
                    (img_world [gray_1x1] tape) (fun r w' =>
            r = inr 0%nat
            /\ noised_upto 0%nat gray_1x1 (img_world [gray_1x1] tape)
                 (width gray_1x1 * height gray_1x1) w')).
  { apply add_noise_rgb; [reflexivity | reflexivity |].
    intros [| x] [| y] Hx Hy; vm_compute in Hx, Hy; try lia.
    do 3 eexists; reflexivity. }
  apply (outcome_run _ _ _ _ _ Hspec) in Hrun
    as ([= ->] & v' & -> & _ & _ & Hv').
  unfold hp in Hout; simpl in Hout. injection Hout as <-.
  rewrite Hv' in Hpx. simpl in Hpx.
  injection Hpx as <- <- <-. done.
Qed.

(** The run used below: the four pixels of [rgb_2x2] with the raw
    outcomes 0, 40, 20 and 41, which stand for the noises -20, 20, 0 and
    -20. *)
Lemma add_noise_one_draw_per_pixel_witness :
  exists v',
    add_noise pil0 0%nat (img_world [rgb_2x2] [0; 40; 20; 41; 7])
      = (inr 0%nat,
         mkWorld (mkMem (<[0%nat := v']> [rgb_2x2]) []) [7] [])
    /\ size v' = (2%nat, 2%nat)
    /\ forall x y, (x < 2)%nat -> (y < 2)%nat ->
         exists r g b n,
           getpixel rgb_2x2 x y = Some [r; g; b]
           /\ n = noise_of (nth (x * 2 + y) [0; 40; 20; 41; 7] 0)
           /\ -20 <= n <= 20
           /\ getpixel v' x y
              = Some [clamp (r + n); clamp (g + n); clamp (b + n)].
Proof.
  apply (add_noise_one_draw_per_pixel pil0 0%nat
           (img_world [rgb_2x2] [0; 40; 20; 41; 7]) rgb_2x2).
  - reflexivity.
  - reflexivity.
  - intros [| [| x]] [| [| y]] Hx Hy; vm_compute in Hx, Hy; try lia;
      do 3 eexists; reflexivity.
Defined.

Lemma add_noise_channels_in_range_witness :
  exists a b c,
    getpixel
      (mkImage "RGB" (2%nat, 2%nat)
         [[[230; 0; 80]; [0; 128; 255]]; [[21; 22; 23]; [0; 0; 0]]])
      0 1 = Some [a; b; c]
    /\ 0 <= a <= 255 /\ 0 <= b <= 255 /\ 0 <= c <= 255.
Proof.
  apply (add_noise_channels_in_range pil0 0%nat
           (img_world [rgb_2x2] [0; 40; 20; 41; 7]) 0%nat
           (mkWorld
              (mkMem
                 [mkImage "RGB" (2%nat, 2%nat)
                    [[[230; 0; 80]; [0; 128; 255]]; [[21; 22; 23]; [0; 0; 0]]]]
                 []) [7] [])).
  - vm_compute. reflexivity.
  - reflexivity.
  - vm_compute. lia.
  - vm_compute. lia.
Defined.

End ImageClaims.

(* ===================================================================== *)
(** * The two composers and the two drivers *)
(* ===================================================================== *)

Module ComposerClaims.

Import Py PyFacts Fixtures.
Import ImgaugSpec SpeechaugSpec.
Local Open Scope py_scope.

(** Prove the premise of [H] and keep its conclusion. *)
Ltac feed_premise H :=
  match type of H with
  | ?P -> _ =>
      let Hp := fresh in
      assert (Hp : P); [| specialize (H Hp); clear Hp]
  end.

(** ** The number of kernels *)

(** C3, as the code has it: the image composer applies
    [1 + raw mod 4] kernels, one of 1, 2, 3, 4, and the audio composer
    [1 + raw mod 3], one of 1, 2, 3, where [raw] is the raw outcome of the
    first draw; each number stands for one residue of [raw], so the draw
    is uniform.  The pools have 7 and 5 kernels, so [min] never cuts the
    number. *)
Theorem composers_draw_the_number_of_kernels (plib : PIL.Library)
  (alib : Pydub.Library) (wi : World Imgaug.Mem) (wa : World Speechaug.Mem) :
  (exists sel w',
      Imgaug.select_augmentations plib wi = (inr sel, w')
      /\ len sel = 1 + nth 0 (rng wi) 0 mod 4
      /\ 1 <= len sel <= 4
      /\ len (Imgaug.augmentations plib) = 7)
  /\ (exists sel w',
         Speechaug.select_augmentations alib wa = (inr sel, w')
         /\ len sel = 1 + nth 0 (rng wa) 0 mod 3
         /\ 1 <= len sel <= 3
         /\ len (Speechaug.augmentations alib) = 5).
Proof.
  split.
  - pose proof (ImgaugFacts.outcome_select_augmentations plib wi
                  (fun r _ => exists sel, r = inr sel
                     /\ len sel = num_of (nth 0 (rng wi) 0))) as H.
    unfold outcome in H.
    destruct (Imgaug.select_augmentations plib wi) as [r w']. simpl in H.
    feed_premise H; [by eauto |]. destruct H as (sel & -> & Hlen).
    exists sel, w'. unfold num_of in Hlen.
    pose proof (Z.mod_pos_bound (nth 0 (rng wi) 0) 4 ltac:(lia)).
    repeat split; auto; lia.
  - pose proof (SpeechaugFacts.outcome_select_effects alib wa
                  (fun r _ => exists sel, r = inr sel
                     /\ len sel = num_effects_of (nth 0 (rng wa) 0))) as H.
    unfold outcome in H.
    destruct (Speechaug.select_augmentations alib wa) as [r w']. simpl in H.
    feed_premise H; [by eauto |]. destruct H as (sel & -> & Hlen).
    exists sel, w'. unfold num_effects_of in Hlen.
    pose proof (Z.mod_pos_bound (nth 0 (rng wa) 0) 3 ltac:(lia)).
    repeat split; auto; lia.
Qed.

(** C3, as the specification has it, fails for the audio composer: with
    the raw outcome 3 the image composer draws 4 kernels and the audio
    composer 1, and no draw makes the audio composer apply 4. *)
Lemma audio_composer_draws_at_most_three :
  (exists sel w',
      Imgaug.select_augmentations pil0 (img_world [] [3; 0; 0; 0; 0])
        = (inr sel, w')
      /\ len sel = 4)
  /\ (exists sel w',
         Speechaug.select_augmentations pydub0 (world0 [] [3; 0; 0; 0; 0])
           = (inr sel, w')
         /\ len sel = 1)
  /\ forall lib w sel w',
       Speechaug.select_augmentations lib w = (inr sel, w') ->
       len sel <= 3 /\ len sel <> Z.min 4 (len (Speechaug.augmentations lib)).
Proof.
  split; [| split].
  - do 2 eexists. split; reflexivity.
  - do 2 eexists. split; reflexivity.
  - intros lib w sel w' Hrun.
    pose proof (SpeechaugFacts.outcome_select_effects lib w
                  (fun r _ => forall sel, r = inr sel ->
                     len sel = num_effects_of (nth 0 (rng w) 0))) as H.
    unfold outcome in H. rewrite Hrun in H. simpl in H.
    assert (Hlen : len sel = num_effects_of (nth 0 (rng w) 0)).
    { apply H; [| done]. by intros ? ? Hl ? ? ? ? ? ? [= <-]. }
    unfold num_effects_of in Hlen.
    pose proof (Z.mod_pos_bound (nth 0 (rng w) 0) 3 ltac:(lia)).
    change (len (Speechaug.augmentations lib)) with 5. lia.
Qed.

(** ** No exception leaves a composer *)

(** C5: given a buffer (an image object, a clip with a positive frame
    rate), [augment_image] and [augment_audio] return a buffer, whatever
    the draws and whatever the calls to the libraries do. *)
Theorem augment_returns_a_buffer (plib : PIL.Library) (alib : Pydub.Library)
  (image : Imgaug.ref) (wi : World Imgaug.Mem)
  (audio : Pydub.AudioSegment) (wa : World Speechaug.Mem) :
  is_Some (hp wi !! image) ->
  0 < Pydub.frame_rate audio ->
  (exists r w',
      Imgaug.augment_image plib image wi = (inr r, w')
      /\ is_Some (hp w' !! r))
  /\ (exists a w',
         Speechaug.augment_audio alib audio wa = (inr a, w')
         /\ 0 < Pydub.frame_rate a).
Proof.
  intros Himg Hfr. split.
  - pose proof (ImgaugFacts.augment_image_safe plib 0%nat image image wi
                  ltac:(lia) ltac:(by left) Himg) as H.
    unfold outcome in H.
    destruct (Imgaug.augment_image plib image wi) as [r w']. simpl in H.
    destruct H as (_ & r' & -> & Hs). by exists r', w'.
  - pose proof (SpeechaugFacts.augment_audio_total alib audio wa Hfr) as H.
    unfold outcome in H.
    destruct (Speechaug.augment_audio alib audio wa) as [r w']. simpl in H.
    destruct H as (a & -> & Ha). by exists a, w'.
Qed.

Lemma augment_returns_a_buffer_witness :
  (exists r w',
      Imgaug.augment_image pil0 0%nat (img_world [palette_2x1] [1; 5; 0])
        = (inr r, w')
      /\ is_Some (hp w' !! r))
  /\ (exists a w',
         Speechaug.augment_audio pydub0 (ramp 30) (world0 [] [2; 4; 1; 0])
           = (inr a, w')
         /\ 0 < Pydub.frame_rate a).
Proof.
  apply (augment_returns_a_buffer pil0 pydub0 0%nat
           (img_world [palette_2x1] [1; 5; 0]) (ramp 30)
           (world0 [] [2; 4; 1; 0])).
  - by eexists.
  - simpl. lia.
Defined.

(** ** The original survives *)

(** C9: while the copies of one file are made, the loaded image is never
    changed: every call to [augment_image] is given another object that
    holds a copy, and the loaded image is the same before and after it.
    The clip that the audio driver loaded is a value that no kernel can
    change, and every augmented file is made from it, not from an earlier
    variant. *)
Theorem drivers_keep_the_original (plib : PIL.Library) (alib : Pydub.Library)
  (os : OS) (img : Imgaug.ref) (v : PIL.Image) (wi : World Imgaug.Mem)
  (audio : Pydub.AudioSegment) (wa : World Speechaug.Mem)
  (image_name audio_name output_folder base_name file_ext : string) (n : Z) :
  hp wi !! img = Some v ->
  outcome (Imgaug.make_copies plib os img image_name output_folder n) wi
    (fun _ w' =>
       hp w' !! img = Some v
       /\ exists added,
           Imgaug.files (mem w') = Imgaug.files (mem wi) ++ added
           /\ Forall (fun entry => variant_of_copy plib img v (snd entry))
                added)
  /\ outcome
       (Speechaug.make_augmentations alib os audio audio_name output_folder
          base_name file_ext n) wa
       (fun r w' =>
          r = inr tt
          /\ exists added,
              mem w' = mem wa ++ added
              /\ Forall (fun entry => augmented_from alib audio (snd entry))
                   added).
Proof.
  intros Hv. split.
  - by apply ImgaugFacts.make_copies_keeps.
  - apply SpeechaugFacts.make_augmentations_from_original.
Qed.

Lemma drivers_keep_the_original_witness :
  outcome (Imgaug.make_copies pil0 os0 0%nat "a.png" "out" 2)
    (img_world [rgb_2x2] [0; 3; 7; 1; 2; 30; 4; 11])
    (fun _ w' =>
       hp w' !! 0%nat = Some rgb_2x2
       /\ exists added,
           Imgaug.files (mem w') = [] ++ added
           /\ Forall (fun entry =>
                        variant_of_copy pil0 0%nat rgb_2x2 (snd entry)) added)
  /\ outcome
       (Speechaug.make_augmentations pydub0 os0 (ramp 30) "a.wav" "out" "a"
          ".wav" 2) (world0 [] [2; 4; 1; 0])
       (fun r w' =>
          r = inr tt
          /\ exists added,
              mem w' = [] ++ added
              /\ Forall (fun entry =>
                           augmented_from pydub0 (ramp 30) (snd entry)) added).
Proof.
  apply (drivers_keep_the_original pil0 pydub0 os0 0%nat rgb_2x2
           (img_world [rgb_2x2] [0; 3; 7; 1; 2; 30; 4; 11]) (ramp 30)
           (world0 [] [2; 4; 1; 0]) "a.png" "a.wav" "out" "a" ".wav" 2).
  reflexivity.
Defined.

End ComposerClaims.

(* ===================================================================== *)
(** * The audio kernels *)
(* ===================================================================== *)

Module AudioClaims.

Import Py Pydub Speechaug SpeechaugSpec PyFacts PydubFacts SpeechaugFacts.
Import Fixtures.
Local Open Scope py_scope.

Section WithLibrary.

Variable lib : Library.

(** ** Pitch shift and time stretch *)

(** C6: [pitch_shift(a, s)] returns what [time_stretch(a, ratio)] returns
    for [ratio = 2 ** (s / 12)]: the raw data read at
    [int(frame_rate * ratio)] and then set back to the frame rate of [a],
    or [a] itself when that fails.  Neither draws nor exports; only the
    line printed on a failure names the kernel. *)
Theorem pitch_shift_is_time_stretch (audio : AudioSegment)
  (semitones ratio : pyfloat) (w : World Mem) :
  pow lib (Fin 2) (fdiv_int semitones 12) = inr ratio ->
  fst (pitch_shift lib audio semitones w) = fst (time_stretch lib audio ratio w)
  /\ mem (snd (pitch_shift lib audio semitones w))
     = mem (snd (time_stretch lib audio ratio w))
  /\ rng (snd (pitch_shift lib audio semitones w))
     = rng (snd (time_stretch lib audio ratio w))
  /\ (forall a',
        int_of_float (fmul_int (frame_rate audio) ratio) = inr a' ->
        forall r,
          set_frame_rate lib (_spawn_frame_rate audio (raw_data audio) a')
            (frame_rate audio) = inr r ->
          pitch_shift lib audio semitones w = (inr r, w)
          /\ time_stretch lib audio ratio w = (inr r, w)).
Proof.
  intros Hpow. unfold pitch_shift, time_stretch, try_except, bind.
  rewrite Hpow. simpl.
  destruct (int_of_float (fmul_int (frame_rate audio) ratio)) as [e | fr];
    simpl.
  - repeat split; try done.
  - destruct (set_frame_rate lib _ _) as [e | r] eqn:Eset; simpl.
    + do 3 (split; [done |]). intros a' [= <-] r'. by rewrite Eset.
    + do 3 (split; [done |]). intros a' [= <-] r'. rewrite Eset.
      by intros [= <-].
Qed.

(** When the ratio cannot be computed [pitch_shift] returns the clip it
    was given. *)
Lemma pitch_shift_without_ratio (audio : AudioSegment) (semitones : pyfloat)
  (w : World Mem) e :
  pow lib (Fin 2) (fdiv_int semitones 12) = inl e ->
  fst (pitch_shift lib audio semitones w) = inr audio.
Proof.
  intros Hpow. unfold pitch_shift, try_except, bind. by rewrite Hpow.
Qed.

(** ** Noise overlay *)


(** ** Reverb *)

(** C10, as the code has it: for a clip of at least 11025 Hz and 16 bit
    and a delay that is not negative, the clip that [reverb_effect]
    returns lasts as many milliseconds as the clip it was given; it is the
    clip itself (when a step failed), or it has the format of the clip
    and a number of frames that is within one millisecond of frames of
    that of the clip, and need not be equal to it. *)
Theorem reverb_keeps_the_length_in_ms (audio : AudioSegment) (d : Q)
  (w : World Mem) :
  11025 <= frame_rate audio ->
  2 <= sample_width audio ->
  1 <= channels audio ->
  (0 <= d)%Q ->
  exists result w' l,
    reverb_effect lib audio (Fin d) w = (inr result, w')
    /\ __len__ audio = inr l
    /\ __len__ result = inr l
    /\ (result = audio
        \/ (same_format audio result
            /\ 1000 * Z.abs (frame_count result - frame_count audio)
               <= frame_rate audio)).
Proof.
  intros Hfr Hsw Hch Hd.
  destruct (__len___ok audio ltac:(lia)) as (l & Hlen & Hl).
  unfold reverb_effect, try_except.
  match goal with
  | |- context [match ?body w with _ => _ end] =>
      destruct (body w) as [[e | result] w1] eqn:Ebody
  end.
  { exists audio. do 2 eexists. split; [reflexivity |].
    split; [exact Hlen |]. split; [exact Hlen |]. by left. }
  exists result, w1, l. split; [reflexivity |]. split; [done |].
  apply bind_inr in Ebody as (echo & w2 & Hecho & H).
  apply lift_inr in Hecho as [Hecho _].
  apply bind_inr in H as (delay & w3 & Hdelay & H).
  apply lift_inr in Hdelay as [Hdelay _].
  apply bind_inr in H as (echo' & w4 & Happ & H).
  apply lift_inr in Happ as [Happ _].
  apply bind_inr in H as (r & w5 & Hover & H).
  apply lift_inr in Hover as [Hover _].
  apply ret_inr in H as [-> _].
  apply apply_gain_meta in Hecho as (Hefr & Hech & Hesw).
  assert (Hdelay0 : 0 <= delay).
  { simpl in Hdelay. injection Hdelay as <-.
    apply Z.quot_pos; [| lia].
    unfold Qle in Hd. simpl in *. lia. }
  assert (Hmeta : frame_rate echo' = frame_rate audio
                  /\ channels echo' = channels audio
                  /\ sample_width echo' = sample_width audio).
  { unfold append in Happ.
    apply bindE_inr in Happ as ([s1 s2] & Hs & [= <-]).
    apply _sync_meta in Hs as (Hf1 & Hc1 & Hw1 & _). simpl in *.
    rewrite Hf1, Hc1, Hw1, Hefr, Hech, Hesw. lia. }
  destruct Hmeta as (Hf' & Hc' & Hw').
  pose proof (overlay_meta lib audio echo' delay r Hover) as (Mf & Mc & Ms).
  apply (overlay_frame_count lib audio echo' delay l r) in Hover
    as [Hcount Hrate]; try lia; [| done].
  assert (Hlen' : __len__ r = inr l).
  { apply __len___near; try lia; rewrite Hcount, Hrate;
      pose proof (div_1000_bounds (l * frame_rate audio)); nia. }
  split; [done |]. right. split.
  - unfold same_format. rewrite Mf, Mc, Ms, Hf', Hc', Hw'. lia.
  - pose proof (__len___inv audio l ltac:(lia) Hlen) as (_ & Hlo & Hhi).
    pose proof (div_1000_bounds (l * frame_rate audio)) as Hdiv.
    rewrite Hcount. lia.
Qed.

End WithLibrary.

Lemma reverb_keeps_the_length_in_ms_witness :
  exists result w' l,
    reverb_effect pydub0 (ramp 1110) (Fin (1 # 10)) (world0 [] [])
      = (inr result, w')
    /\ __len__ (ramp 1110) = inr l
    /\ __len__ result = inr l
    /\ (result = ramp 1110
        \/ (same_format (ramp 1110) result
            /\ 1000 * Z.abs (frame_count result - frame_count (ramp 1110))
               <= frame_rate (ramp 1110))).
Proof.
  apply (reverb_keeps_the_length_in_ms pydub0 (ramp 1110) (1 # 10)
           (world0 [] [])).
  - simpl. lia.
  - simpl. lia.
  - simpl. lia.
  - unfold Qle. simpl. lia.
Defined.

(** C10, as the specification has it, fails on a mono clip of 1110
    frames at 11025 Hz with the decay 0.1: the clip lasts 101 ms, the
    overlay cuts it at that many milliseconds, which stand for 1113
    frames, and the clip that comes back has three frames more than the
    clip that went in. *)
Lemma reverb_changes_the_number_of_frames :
  frame_count (ramp 1110) = 1110
  /\ __len__ (ramp 1110) = inr 101
  /\ exists result,
       fst (reverb_effect pydub0 (ramp 1110) (Fin (1 # 10)) (world0 [] []))
         = inr result
       /\ frame_count result = 1113
       /\ __len__ result = inr 101.
Proof.
  split; [vm_compute; reflexivity |]. split; [vm_compute; reflexivity |].
  eexists. split; [vm_compute; reflexivity |].
  split; vm_compute; reflexivity.
Qed.

(** The theorem of C6 an octave up: the ratio is 2, the data of
    [ramp 30] are read at 22050 Hz and set back to 11025 Hz, and both
    kernels return the same clip of 15 frames. *)
Lemma pitch_shift_is_time_stretch_witness :
  pow pydub0 (Fin 2) (fdiv_int (Fin 12) 12) = inr (Fin 2)
  /\ int_of_float (fmul_int (frame_rate (ramp 30)) (Fin 2)) = inr 22050
  /\ pitch_shift pydub0 (ramp 30) (Fin 12) (world0 [] [])
     = (inr ramp_octave_up, world0 [] [])
  /\ time_stretch pydub0 (ramp 30) (Fin 2) (world0 [] [])
     = (inr ramp_octave_up, world0 [] [])
  /\ frame_count ramp_octave_up = 15
  /\ ramp_octave_up <> ramp 30.
Proof.
  split; [reflexivity |]. split; [reflexivity |].
  destruct (pitch_shift_is_time_stretch pydub0 (ramp 30) (Fin 12) (Fin 2)
              (world0 [] []) eq_refl) as (_ & _ & _ & H).
  destruct (H 22050 eq_refl ramp_octave_up eq_refl) as [Hp Ht].
  split; [exact Hp |]. split; [exact Ht |].
  split; [reflexivity | discriminate].
Defined.



End AudioClaims.

(* ===================================================================== *)
(** * More about imgaug.py: the geometric kernels and the frame *)
(* ===================================================================== *)

Module ImageExtras.

Import Py PIL Imgaug ImgaugSpec PyFacts PILFacts ImgaugFacts Fixtures.
Local Open Scope py_scope.

(** ** Mirror and rotation *)

(** X1: mirroring twice gives the image back.  [mirror_image] returns a
    new object each time: after two calls the object given first is as it
    was, the second object holds the flipped image and the third holds the
    first image again, pixel for pixel. *)
Theorem mirror_image_twice (image : ref) (w : World Mem) (v : Image) :
  hp w !! image = Some v ->
  wf_image v = true ->
  (let* m := mirror_image image in mirror_image m) w
    = (inr (S (length (hp w))),
       set_mem
         (mkMem (hp w ++ [transpose v FLIP_LEFT_RIGHT; v]) (files (mem w)))
         w).
Proof.
  intros Hv Hwf.
  unfold bind, mirror_image.
  rewrite (method_run image (fun v => inr (transpose v FLIP_LEFT_RIGHT)) w v
             _ Hv eq_refl).
  rewrite (method_run (length (hp w))
             (fun v => inr (transpose v FLIP_LEFT_RIGHT))
             (set_mem
                (mkMem (hp w ++ [transpose v FLIP_LEFT_RIGHT]) (files (mem w)))
                w)
             (transpose v FLIP_LEFT_RIGHT) _
             ltac:(by apply list_lookup_middle) eq_refl).
  rewrite transpose_flip_twice by done.
  unfold set_mem, hp. simpl.
  rewrite length_app, <- app_assoc. simpl.
  f_equal. f_equal. lia.
Qed.

Lemma mirror_image_twice_witness :
  (let* m := mirror_image 0%nat in mirror_image m) (img_world [rgb_2x1] [])
    = (inr 2%nat,
       img_world
         [rgb_2x1;
          mkImage "RGB" (2%nat, 1%nat) [[[0; 128; 255]; [250; 10; 100]]];
          rgb_2x1] []).
Proof.
  exact (mirror_image_twice 0%nat (img_world [rgb_2x1] []) rgb_2x1
           eq_refl eq_refl).
Defined.

(** X2: the half turn is its own inverse on every image, and on a square
    image the quarter turn to the left and the one to the right undo each
    other: [rotate] by 180 twice, by 90 then 270, or by 270 then 90 gives
    the image back, pixel for pixel. *)
Theorem rotate_is_undone (img : Image) :
  wf_image img = true ->
  rotate (rotate img deg180) deg180 = img
  /\ (width img = height img ->
      rotate (rotate img deg90) deg270 = img
      /\ rotate (rotate img deg270) deg90 = img).
Proof.
  intros Hwf. split.
  - apply transpose_180_twice, Hwf.
  - intros Hsq.
    assert (E : forall t,
               (width (transpose img t) =? height (transpose img t))%nat
               = true).
    { intros t. apply Nat.eqb_eq.
      pose proof (size_transpose_square img t Hsq) as Hs.
      unfold width, height. rewrite Hs. exact Hsq. }
    unfold rotate at 2 4. rewrite Hsq, Nat.eqb_refl.
    unfold rotate. rewrite !E.
    split; [apply transpose_90_270 | apply transpose_270_90]; done.
Qed.

Lemma rotate_is_undone_witness :
  rotate (rotate rgb_2x1 deg180) deg180 = rgb_2x1
  /\ (width rgb_2x2 = height rgb_2x2 ->
      rotate (rotate rgb_2x2 deg90) deg270 = rgb_2x2
      /\ rotate (rotate rgb_2x2 deg270) deg90 = rgb_2x2).
Proof.
  split.
  - exact (proj1 (rotate_is_undone rgb_2x1 eq_refl)).
  - exact (proj2 (rotate_is_undone rgb_2x2 eq_refl)).
Defined.

Section WithLibrary.

Variable lib : Library.

(** X3: the three geometric kernels (the mirror, the shift, and the
    rotation, which is the fifth kernel of the pool) never write to the
    image they are given and never change its size or mode: each returns
    a new object, the last of the heap, that holds a well-formed image of
    the size and mode of the given one; every object there was is as it
    was, nothing is saved and nothing is printed. *)
Theorem geometric_kernels_build_a_new_image (k : ref -> M Mem ref)
  (shift_x shift_y : Z) (image : ref) (w : World Mem) (v : Image) :
  k = mirror_image
  \/ k = (fun img => shift_image img shift_x shift_y)
  \/ augmentations lib !! 4%nat = Some k ->
  hp w !! image = Some v ->
  exists v' w',
    k image w = (inr (length (hp w)), w')
    /\ hp w' = hp w ++ [v']
    /\ files (mem w') = files (mem w)
    /\ stdout w' = stdout w
    /\ size v' = size v /\ mode v' = mode v /\ wf_image v' = true.
Proof.
  intros Hk Hv.
  destruct Hk as [-> | [-> | Hk]].
  - eexists _, _. split.
    { unfold mirror_image. by apply method_run with (v := v). }
    simpl. repeat split; try done.
    + by destruct v as [m [a b] rows].
    + apply wf_build.
  - eexists _, _. split.
    { unfold shift_image. by apply method_run with (v := v). }
    simpl. repeat split; try done.
    + by destruct v as [m [a b] rows].
    + apply wf_build.
  - injection Hk as <-.
    pose proof (outcome_choice (Mem := Mem) [deg90; deg180; deg270] w
                  (fun r w1 =>
                     exists t, r = inr t /\ w1 = set_rng (drop 1 (rng w)) w))
      as Hc.
    unfold outcome in Hc.
    destruct Hc as (t & Ht & Hw1); [done | by eauto |].
    unfold bind.
    destruct (choice [deg90; deg180; deg270] w) as [rt w1]. simpl in Ht, Hw1.
    subst rt w1.
    eexists _, _. split.
    { rewrite (method_run image (fun v => inr (rotate v t))
                 (set_rng (drop 1 (rng w)) w) v _ Hv eq_refl).
      reflexivity. }
    simpl. repeat split; try done.
    + apply size_rotate.
    + apply mode_rotate.
    + apply wf_rotate.
Qed.

(** The run of [shift_image] and the pixels of its result. *)
Lemma shift_image_run (image : ref) (w : World Mem)
  (v : Image) (shift_x shift_y : Z) :
  hp w !! image = Some v ->
  exists v',
    shift_image image shift_x shift_y w
      = (inr (length (hp w)),
         set_mem (mkMem (hp w ++ [v']) (files (mem w))) w)
    /\ size v' = size v
    /\ forall x y, (x < width v)%nat -> (y < height v)%nat ->
         getpixel v' x y =
           Some (if decide (0 <= Z.of_nat x + shift_x < Z.of_nat (width v)
                            /\ 0 <= Z.of_nat y + shift_y
                                 < Z.of_nat (height v))
                 then px v (Z.to_nat (Z.of_nat x + shift_x))
                        (Z.to_nat (Z.of_nat y + shift_y))
                 else zero_pixel (mode v)).
Proof.
  intros Hv. eexists. split; [| split].
  - unfold shift_image. by apply method_run with (v := v).
  - by destruct v as [m [a b] rows].
  - intros x y Hx Hy. unfold transform_AFFINE.
    change (fst (size v)) with (width v). change (snd (size v)) with (height v).
    rewrite getpixel_build by done.
    rewrite affine_source_shift. f_equal.
    destruct (decide _) as [Hin | Hout].
    + destruct Hin as [[H1 H2] [H3 H4]].
      apply Z.leb_le in H1, H3. apply Z.ltb_lt in H2, H4.
      by rewrite H1, H2, H3, H4.
    + destruct (_ && _) eqn:E; [| done].
      exfalso. apply Hout.
      apply andb_prop in E as [E H4]. apply andb_prop in E as [E H3].
      apply andb_prop in E as [H1 H2].
      apply Z.leb_le in H1, H3. apply Z.ltb_lt in H2, H4. lia.
Qed.

(** X4: [shift_image] moves the picture to the left by [shift_x] and up by
    [shift_y]: the pixel [(x, y)] of the new image is the pixel
    [(x + shift_x, y + shift_y)] of the given one, and black (all bands
    zero) where that is outside the given image. *)
Theorem shift_image_moves_left_and_up (image : ref) (w : World Mem)
  (v : Image) (shift_x shift_y : Z) :
  hp w !! image = Some v ->
  exists v',
    shift_image image shift_x shift_y w
      = (inr (length (hp w)),
         set_mem (mkMem (hp w ++ [v']) (files (mem w))) w)
    /\ size v' = size v
    /\ forall x y, (x < width v)%nat -> (y < height v)%nat ->
         getpixel v' x y =
           Some (if decide (0 <= Z.of_nat x + shift_x < Z.of_nat (width v)
                            /\ 0 <= Z.of_nat y + shift_y
                                 < Z.of_nat (height v))
                 then px v (Z.to_nat (Z.of_nat x + shift_x))
                        (Z.to_nat (Z.of_nat y + shift_y))
                 else zero_pixel (mode v)).
Proof. apply shift_image_run. Qed.

(** X5: the AffineShift kernel (the seventh of the pool) draws [shift_x]
    from 20..30, so it blanks an image at most 20 pixels wide: whatever
    the draws, every pixel of the image it returns is black. *)
Theorem affine_shift_blanks_narrow_images (k : ref -> M Mem ref)
  (image : ref) (w : World Mem) (v : Image) :
  augmentations lib !! 6%nat = Some k ->
  hp w !! image = Some v ->
  (width v <= 20)%nat ->
  exists v' w',
    k image w = (inr (length (hp w)), w')
    /\ hp w' = hp w ++ [v']
    /\ size v' = size v
    /\ forall x y, (x < width v)%nat -> (y < height v)%nat ->
         getpixel v' x y = Some (zero_pixel (mode v)).
Proof.
  intros Hk Hv Hnarrow. injection Hk as <-.
  set (sx := 20 + nth 0 (rng w) 0 mod (30 + 1 - 20)).
  set (w1 := set_rng (drop 1 (rng w)) w).
  set (sy := -10 + nth 0 (rng w1) 0 mod (10 + 1 - -10)).
  set (w2 := set_rng (drop 1 (rng w1)) w1).
  assert (E1 : randint (Mem := Mem) 20 30 w = (inr sx, w1)).
  { by apply run_randint. }
  assert (E2 : randint (Mem := Mem) (-10) 10 w1 = (inr sy, w2)).
  { by apply run_randint. }
  assert (Hsx : 20 <= sx).
  { unfold sx. pose proof (Z.mod_pos_bound (nth 0 (rng w) 0) (30 + 1 - 20)).
    lia. }
  destruct (shift_image_run image w2 v sx sy Hv)
    as (v' & Erun & Hsize & Hpx).
  exists v', (set_mem (mkMem (hp w2 ++ [v']) (files (mem w2))) w2).
  split; [| split; [| split]].
  - unfold bind at 1. rewrite E1. unfold bind at 1. rewrite E2.
    exact Erun.
  - reflexivity.
  - exact Hsize.
  - intros x y Hx Hy. rewrite Hpx by done.
    destruct (decide _) as [Hin | _]; [lia | done].
Qed.

(** ** Noise injection *)

(** X6: given an image that is not RGB, [add_noise] never writes to it:
    it converts the image into a new object, the last of the heap, and
    works on that one; every object there was, the given one among them,
    is as it was, and the new object is what it returns.  When the
    conversion raises, [add_noise] raises the same exception and nothing
    has changed. *)
Theorem add_noise_converts_into_a_new_object (image : ref) (w : World Mem)
  (v : Image) :
  hp w !! image = Some v ->
  mode v <> "RGB" ->
  match convert_RGB lib v with
  | inl e => add_noise lib image w = (inl e, w)
  | inr v1 =>
      outcome (add_noise lib image) w (fun r w' =>
        (forall o, (o < length (hp w))%nat -> hp w' !! o = hp w !! o)
        /\ files (mem w') = files (mem w)
        /\ forall r', r = inr r' ->
             r' = length (hp w) /\ length (hp w') = S (length (hp w)))
  end.
Proof.
  intros Hv Hmode.
  destruct (convert_RGB lib v) as [e | v1] eqn:Ec.
  - unfold add_noise, bind, deref. fold (hp w). rewrite Hv.
    destruct (String.eqb_spec (mode v) "RGB") as [E | _]; [done |]. simpl.
    unfold method, bind, deref, lift. fold (hp w). by rewrite Hv, Ec.
  - apply outcome_add_noise.
    + intros image1 w1 v1' Hv1 [(-> & -> & Hm) | (v0 & Hv0 & _ & Hc & -> & ->)].
      { congruence. }
      set (w1 := set_mem _ w) in *.
      set (I := fun w2 : World Mem =>
                  (forall o, (o < length (hp w))%nat -> hp w2 !! o = hp w !! o)
                  /\ length (hp w2) = S (length (hp w))
                  /\ files (mem w2) = files (mem w)).
      eapply outcome_weaken.
      * apply (outcome_add_noise_loops (length (hp w)) (width v1')
                 (height v1') w1 (fun _ => I) (fun _ => I)).
        -- unfold I, w1, hp; simpl. split; [| split; [| done]].
           ++ intros o Ho. by rewrite lookup_app_l.
           ++ rewrite length_app. simpl. lia.
        -- intros i j w2 _ _ (Hold & Hlen & Hfiles).
           apply outcome_add_noise_pixel.
           ++ intros v2 r g b v2' _ _ _. unfold I, hp; simpl.
              split; [| split; [| done]].
              ** intros o Ho. rewrite list_lookup_insert_ne by lia.
                 by apply Hold.
              ** by rewrite length_insert.
           ++ intros e w3 Hmem _. unfold I, hp in *. by rewrite Hmem.
      * intros [e | []] w2 (Hold & Hlen & Hfiles);
          (split; [done | split; [done |]]); intros r' Hr';
          [discriminate | by injection Hr' as <-].
    + intros e _. split; [done | split; [done |]]. intros r' Hr'.
      discriminate.
Qed.

(** X7: on an RGB image whose channels are between 0 and 255,
    [add_noise] moves no channel by more than 20, whatever the draws. *)
Theorem add_noise_moves_a_channel_by_at_most_20 (image : ref)
  (w : World Mem) (v : Image) :
  hp w !! image = Some v ->
  mode v = "RGB" ->
  (forall x y, (x < width v)%nat -> (y < height v)%nat ->
     in_byte_range (getpixel v x y)) ->
  outcome (add_noise lib image) w (fun r w' =>
    r = inr image
    /\ exists v',
        hp w' !! image = Some v'
        /\ forall x y, (x < width v)%nat -> (y < height v)%nat ->
             exists r g b r' g' b',
               getpixel v x y = Some [r; g; b]
               /\ getpixel v' x y = Some [r'; g'; b']
               /\ -20 <= r' - r <= 20
               /\ -20 <= g' - g <= 20
               /\ -20 <= b' - b <= 20).
Proof.
  intros Hv Hmode Hrange.
  eapply outcome_weaken.
  - apply (add_noise_rgb lib image w v Hv Hmode).
    intros x y Hx Hy. destruct (Hrange x y Hx Hy) as (r & g & b & E & _).
    eauto.
  - intros r w' [-> (v2 & -> & _ & _ & Hpx)]. split; [done |].
    exists v2. split.
    { unfold hp; simpl. apply list_lookup_insert_eq.
      by apply lookup_lt_Some in Hv. }
    intros x y Hx Hy.
    destruct (Hrange x y Hx Hy) as (r & g & b & E & Hr & Hg & Hb).
    rewrite Hpx.
    destruct (decide _) as [_ | Hn].
    2:{ exfalso. apply Hn. repeat split; try done. nia. }
    unfold px. rewrite E. simpl.
    pose proof (noise_of_range (nth (x * height v + y) (rng w) 0)) as Hn.
    set (n := noise_of _) in *.
    exists r, g, b, (clamp (r + n)), (clamp (g + n)), (clamp (b + n)).
    unfold clamp. repeat split; try done; lia.
Qed.

(** ** The frame of the composer *)

(** X8: [augment_image] writes to the object it is given and to those it
    creates, and to nothing else: whatever kernels it draws and whatever
    they do, it returns an object, no object is lost, every other object
    there was is as it was, and nothing is saved. *)
Theorem augment_image_changes_no_other_object (image : ref)
  (w : World Mem) :
  is_Some (hp w !! image) ->
  exists r w',
    augment_image lib image w = (inr r, w')
    /\ is_Some (hp w' !! r)
    /\ (length (hp w) <= length (hp w'))%nat
    /\ (forall o, (o < length (hp w))%nat -> o <> image ->
          hp w' !! o = hp w !! o)
    /\ files (mem w') = files (mem w).
Proof.
  intros Himg.
  pose proof (augment_image_safe lib (length (hp w)) image image w
                (le_n _) (or_introl eq_refl) Himg) as H.
  unfold outcome in H.
  destruct (augment_image lib image w) as [r w'].
  destruct H as ((Hlen & Hold & Hfiles) & r' & Hr & Hsome).
  simpl in Hr. subst r.
  exists r', w'. auto.
Qed.


(** ** What the composer prints *)

Lemma silent_deref r : silent (deref r).
Proof. intros w. unfold deref. by destruct (_ !! _). Qed.

Lemma silent_method r f : silent (method r f).
Proof.
  unfold method.
  apply silent_bind; [apply silent_deref | intros v].
  apply silent_bind; [apply silent_lift | intros v']. done.
Qed.

Lemma silent_add_noise_pixel image i j : silent (add_noise_pixel image i j).
Proof.
  unfold add_noise_pixel, pixel_get, pixel_set, unpack3.
  repeat first
    [ apply silent_ret | apply silent_raise | apply silent_deref
    | apply silent_randint
    | apply silent_bind; [| intros]
    | match goal with
      | |- silent (match ?x with _ => _ end) => destruct x
      | |- silent (assign _ _) => done
      end ].
Qed.

Lemma silent_add_noise image : silent (add_noise lib image).
Proof.
  unfold add_noise.
  apply silent_bind; [apply silent_deref | intros v].
  apply silent_bind.
  { destruct (negb _); [apply silent_method | apply silent_ret]. }
  intros image1.
  apply silent_bind; [apply silent_deref | intros v1].
  apply silent_bind; [| intros; apply silent_ret].
  apply silent_for_each. intros i. apply silent_for_each. intros j.
  apply silent_add_noise_pixel.
Qed.

Lemma silent_enhance degenerate image : silent (enhance lib degenerate image).
Proof.
  unfold enhance.
  repeat first
    [ apply silent_deref | apply silent_lift | apply silent_uniform
    | apply silent_bind; [| intros] ].
  done.
Qed.

Lemma augmentations_silent :
  Forall (fun k => forall img, silent (k img)) (augmentations lib).
Proof.
  unfold augmentations.
  repeat apply List.Forall_cons; try apply List.Forall_nil; intros img.
  - apply silent_bind; [apply silent_uniform | intros; apply silent_method].
  - apply silent_enhance.
  - apply silent_enhance.
  - apply silent_add_noise.
  - apply silent_bind; [apply silent_choice | intros; apply silent_method].
  - apply silent_method.
  - apply silent_bind; [apply silent_randint | intros].
    apply silent_bind; [apply silent_randint | intros].
    apply silent_method.
Qed.

(** X22: [augment_image] prints at most one line.  Whatever image it is
    given, whatever kernels it draws and whatever they do, it prints
    nothing, or the one line ["Error applying augmentation: "] followed by
    the message of the exception: the kernels of the image script print
    nothing themselves, and the chain ends at the first exception. *)
Theorem augment_image_prints_at_most_one_line (image : ref)
  (w : World Mem) :
  outcome (augment_image lib image) w (fun _ w' =>
    stdout w' = stdout w
    \/ exists e,
        stdout w'
        = stdout w ++ ["Error applying augmentation: " +:+ exn_msg e]).
Proof.
  destruct (select_augmentations lib w) as [rs w1] eqn:Hsel.
  assert (Hs : exists sel, rs = inr sel /\ stdout w1 = stdout w).
  { pose proof (outcome_select_augmentations lib w
                  (fun r w' => exists sel, r = inr sel
                                           /\ stdout w' = stdout w)) as Ho.
    unfold outcome in Ho. rewrite Hsel in Ho. apply Ho. by eauto. }
  destruct Hs as (sel & -> & Hout1).
  assert (Hsilent : Forall (fun k => forall img, silent (k img)) sel).
  { pose proof Hsel as Hsel'. unfold select_augmentations in Hsel'.
    apply bind_inr in Hsel' as (n & w0 & _ & Hsel').
    apply sample_submseteq in Hsel' as [Hsub _].
    apply Forall_forall. intros k Hk.
    pose proof augmentations_silent as Hall.
    rewrite Forall_forall in Hall. apply Hall.
    by eapply elem_of_submseteq. }
  unfold outcome. rewrite (augment_image_unfold lib image w sel w1 Hsel).
  pose proof (silent_for_var sel (fun augmentation image => augmentation image)
                Hsilent image w1) as Hchain.
  unfold chain.
  destruct (for_var sel _ image w1) as [[image' [e |]] w2]; simpl in *.
  - right. exists e. by rewrite Hchain, Hout1.
  - left. by rewrite Hchain, Hout1.
Qed.

End WithLibrary.

(** ** The theorems above on concrete runs *)

Lemma geometric_kernels_build_a_new_image_witness :
  exists v' w',
    (fun img => shift_image img 1 0) 0%nat (img_world [rgb_2x1] [])
      = (inr (length (hp (img_world [rgb_2x1] []))), w')
    /\ hp w' = hp (img_world [rgb_2x1] []) ++ [v']
    /\ files (mem w') = files (mem (img_world [rgb_2x1] []))
    /\ stdout w' = stdout (img_world [rgb_2x1] [])
    /\ size v' = size rgb_2x1 /\ mode v' = mode rgb_2x1
    /\ wf_image v' = true.
Proof.
  apply (geometric_kernels_build_a_new_image pil0 _ 1 0 0%nat
           (img_world [rgb_2x1] []) rgb_2x1).
  - right. left. reflexivity.
  - reflexivity.
Defined.

Lemma shift_image_moves_left_and_up_witness :
  exists v',
    shift_image 0%nat 1 0 (img_world [rgb_2x1] [])
      = (inr 1%nat, img_world [rgb_2x1; v'] [])
    /\ size v' = (2%nat, 1%nat)
    /\ forall x y, (x < 2)%nat -> (y < 1)%nat ->
         getpixel v' x y =
           Some (if decide (0 <= Z.of_nat x + 1 < 2
                            /\ 0 <= Z.of_nat y + 0 < 1)
                 then px rgb_2x1 (Z.to_nat (Z.of_nat x + 1))
                        (Z.to_nat (Z.of_nat y + 0))
                 else [0; 0; 0]).
Proof.
  exact (shift_image_moves_left_and_up 0%nat (img_world [rgb_2x1] []) rgb_2x1
           1 0 eq_refl).
Defined.

Lemma affine_shift_blanks_narrow_images_witness :
  exists v' w',
    (fun img =>
       let* shift_x := randint 20 30 in
       let* shift_y := randint (-10) 10 in
       shift_image img shift_x shift_y) 0%nat (img_world [rgb_2x2] [3; 4])
      = (inr (length (hp (img_world [rgb_2x2] [3; 4]))), w')
    /\ hp w' = hp (img_world [rgb_2x2] [3; 4]) ++ [v']
    /\ size v' = size rgb_2x2
    /\ forall x y, (x < width rgb_2x2)%nat -> (y < height rgb_2x2)%nat ->
         getpixel v' x y = Some (zero_pixel (mode rgb_2x2)).
Proof.
  apply (affine_shift_blanks_narrow_images pil0 _ 0%nat
           (img_world [rgb_2x2] [3; 4]) rgb_2x2).
  - reflexivity.
  - reflexivity.
  - unfold width, rgb_2x2. simpl. lia.
Defined.

Lemma add_noise_converts_into_a_new_object_witness :
  outcome (add_noise pil0 0%nat) (img_world [palette_2x1] [0; 40])
    (fun r w' =>
       (forall o, (o < 1)%nat -> hp w' !! o = [palette_2x1] !! o)
       /\ files (mem w') = []
       /\ forall r', r = inr r' ->
            r' = 1%nat /\ length (hp w') = 2%nat).
Proof.
  exact (add_noise_converts_into_a_new_object pil0 0%nat
           (img_world [palette_2x1] [0; 40]) palette_2x1 eq_refl
           ltac:(discriminate)).
Defined.

Lemma add_noise_moves_a_channel_by_at_most_20_witness :
  outcome (add_noise pil0 0%nat) (img_world [rgb_2x2] [0; 40; 20; 41; 7])
    (fun r w' =>
       r = inr 0%nat
       /\ exists v',
           hp w' !! 0%nat = Some v'
           /\ forall x y, (x < width rgb_2x2)%nat -> (y < height rgb_2x2)%nat ->
                exists r g b r' g' b',
                  getpixel rgb_2x2 x y = Some [r; g; b]
                  /\ getpixel v' x y = Some [r'; g'; b']
                  /\ -20 <= r' - r <= 20
                  /\ -20 <= g' - g <= 20
                  /\ -20 <= b' - b <= 20).
Proof.
  apply (add_noise_moves_a_channel_by_at_most_20 pil0 0%nat
           (img_world [rgb_2x2] [0; 40; 20; 41; 7]) rgb_2x2).
  - reflexivity.
  - reflexivity.
  - intros [| [| x]] [| [| y]] Hx Hy;
      try (unfold width, rgb_2x2 in Hx; simpl in Hx; lia);
      try (unfold height, rgb_2x2 in Hy; simpl in Hy; lia);
      unfold in_byte_range; simpl; do 3 eexists;
      (split; [reflexivity | lia]).
Defined.

Lemma augment_image_changes_no_other_object_witness :
  exists r w',
    augment_image pil0 1%nat (img_world [rgb_2x1; rgb_2x2] [0; 3; 7; 1; 2])
      = (inr r, w')
    /\ is_Some (hp w' !! r)
    /\ (2 <= length (hp w'))%nat
    /\ (forall o, (o < 2)%nat -> o <> 1%nat ->
          hp w' !! o = [rgb_2x1; rgb_2x2] !! o)
    /\ files (mem w') = [].
Proof.
  apply (augment_image_changes_no_other_object pil0 1%nat
           (img_world [rgb_2x1; rgb_2x2] [0; 3; 7; 1; 2])).
  by eexists.
Defined.

End ImageExtras.

(* ===================================================================== *)
(** * More about speechaug.py: the kernels *)
(* ===================================================================== *)

Module AudioExtras.

Import Py Pydub Speechaug SpeechaugSpec PyFacts PydubFacts SpeechaugFacts.
Import Fixtures.
Local Open Scope py_scope.

(** ** Computations that export nothing and print nothing *)

Lemma quiet_ret {A} (a : A) : quiet (ret a).
Proof. done. Qed.

Lemma quiet_raise {A} e : quiet (A := A) (raise e).
Proof. done. Qed.

Lemma quiet_lift {A} (r : exn + A) : quiet (lift r).
Proof. by destruct r. Qed.

Lemma quiet_bind {A B} (c : M Mem A) (k : A -> M Mem B) :
  quiet c -> (forall a, quiet (k a)) -> quiet (bind c k).
Proof.
  intros Hc Hk w. unfold bind. specialize (Hc w).
  destruct (c w) as [[e | a] w1]; simpl in *; [done |].
  destruct (Hk a w1) as [-> ->]. done.
Qed.

Lemma quiet_to_audio_segment lib kind duration :
  quiet (to_audio_segment lib kind duration).
Proof.
  intros w. unfold to_audio_segment. by destruct (noise_segment _ _ _ _).
Qed.

Ltac quiet_steps :=
  repeat first
    [ apply quiet_ret | apply quiet_raise | apply quiet_lift
    | apply quiet_to_audio_segment
    | apply quiet_bind; [| intros]
    | match goal with
      | |- quiet (if ?b then _ else _) => destruct b
      end ].

(** [try: body / except: print(prefix + message); return audio] around a
    quiet body. *)
Lemma guarded_passes_or_logs (body : M Mem AudioSegment) (prefix : string)
  (audio : AudioSegment) (w : World Mem) :
  quiet body ->
  outcome
    (try_except body (fun e => print (prefix +:+ exn_msg e) ;;; ret audio)) w
    (passes_or_logs prefix audio w).
Proof.
  intros Hq. unfold outcome, try_except, passes_or_logs.
  destruct (Hq w) as [Hm Ho].
  destruct (body w) as [[e | a] w1]; simpl in *.
  - split; [done |]. right. exists e. by rewrite Ho.
  - split; [done |]. left. by exists a.
Qed.

Section WithLibrary.

Variable lib : Library.

(** ** The failure policy of the kernels *)

(** X12: a kernel that fails passes the clip on.  Each of the five
    kernels, whatever its arguments and whatever the library does, either
    returns a clip and prints nothing, or returns the very clip it was
    given and prints one line: its own prefix followed by the message of
    the exception.  It exports nothing in either case.  ([add_noise]
    measures the clip before its [try], hence the positive frame
    rate.) *)
Theorem kernels_pass_the_clip_on_when_they_fail (audio : AudioSegment)
  (w : World Mem) (noise_type : string)
  (noise_level rate semitones db_change decay : pyfloat) :
  0 < frame_rate audio ->
  outcome (add_noise lib audio noise_type noise_level) w
    (passes_or_logs "Error adding noise: " audio w)
  /\ outcome (time_stretch lib audio rate) w
       (passes_or_logs "Error in time stretching: " audio w)
  /\ outcome (pitch_shift lib audio semitones) w
       (passes_or_logs "Error in pitch shifting: " audio w)
  /\ outcome (volume_adjust lib audio db_change) w
       (passes_or_logs "Error adjusting volume: " audio w)
  /\ outcome (reverb_effect lib audio decay) w
       (passes_or_logs "Error adding reverb: " audio w).
Proof.
  intros Hfr. split; [| split; [| split; [| split]]].
  - unfold add_noise.
    destruct (__len___ok audio Hfr) as (l & Hl & _). rewrite Hl.
    apply outcome_bind, outcome_lift.
    apply guarded_passes_or_logs. quiet_steps.
  - apply guarded_passes_or_logs. quiet_steps.
  - apply guarded_passes_or_logs. quiet_steps.
  - apply guarded_passes_or_logs. quiet_steps.
  - apply guarded_passes_or_logs. quiet_steps.
Qed.

(** X13: [add_noise] with a noise type other than white, pink and brown
    returns the clip it was given, prints
    ["Error adding noise: Invalid noise type: <type>"], and draws
    nothing. *)
Theorem add_noise_rejects_an_unknown_noise_type (audio : AudioSegment)
  (noise_type : string) (noise_level : pyfloat) (w : World Mem) :
  0 < frame_rate audio ->
  noise_type <> "white" -> noise_type <> "pink" -> noise_type <> "brown" ->
  add_noise lib audio noise_type noise_level w
    = (inr audio,
       mkWorld (mem w) (rng w)
         (stdout w
          ++ ["Error adding noise: Invalid noise type: " +:+ noise_type])).
Proof.
  intros Hfr Hw Hp Hb. unfold add_noise.
  destruct (__len___ok audio Hfr) as (l & Hl & _). rewrite Hl.
  apply String.eqb_neq in Hw, Hp, Hb. rewrite Hw, Hp, Hb.
  reflexivity.
Qed.

(** ** The format of the clip *)

Lemma time_stretch_same_format (audio : AudioSegment) (w : World Mem)
  (rate : pyfloat) :
  outcome (time_stretch lib audio rate) w
    (fun r _ => exists a, r = inr a /\ same_format audio a).
Proof.
  apply outcome_guarded; [done |].
  intros a' w1 H.
  apply bind_inr in H as (fr & w2 & _ & H).
  apply lift_inr in H as [H _].
  apply set_frame_rate_meta in H as (E1 & E2 & E3).
  unfold same_format. by rewrite E1, E2, E3.
Qed.

Lemma pitch_shift_same_format (audio : AudioSegment) (w : World Mem)
  (semitones : pyfloat) :
  outcome (pitch_shift lib audio semitones) w
    (fun r _ => exists a, r = inr a /\ same_format audio a).
Proof.
  apply outcome_guarded; [done |].
  intros a' w1 H.
  apply bind_inr in H as (ratio & w2 & _ & H).
  apply bind_inr in H as (fr & w3 & _ & H).
  apply lift_inr in H as [H _].
  apply set_frame_rate_meta in H as (E1 & E2 & E3).
  unfold same_format. by rewrite E1, E2, E3.
Qed.

Lemma volume_adjust_same_format (audio : AudioSegment) (w : World Mem)
  (db_change : pyfloat) :
  outcome (volume_adjust lib audio db_change) w
    (fun r _ => exists a, r = inr a /\ same_format audio a).
Proof.
  apply outcome_guarded; [done |].
  intros a' w1 H. apply lift_inr in H as [H _].
  apply apply_gain_meta in H as (E1 & E2 & E3).
  unfold same_format. by rewrite E1, E2, E3.
Qed.

(** X14: [time_stretch], [pitch_shift] and [volume_adjust] return a clip
    with the frame rate, the channels and the sample width of the clip
    they were given, whatever their arguments: the two that change the
    speed resample back to the frame rate of the clip. *)
Theorem rate_and_gain_kernels_keep_the_format (audio : AudioSegment)
  (w : World Mem) (rate semitones db_change : pyfloat) :
  outcome (time_stretch lib audio rate) w
    (fun r _ => exists a, r = inr a /\ same_format audio a)
  /\ outcome (pitch_shift lib audio semitones) w
       (fun r _ => exists a, r = inr a /\ same_format audio a)
  /\ outcome (volume_adjust lib audio db_change) w
       (fun r _ => exists a, r = inr a /\ same_format audio a).
Proof.
  split; [| split].
  - apply time_stretch_same_format.
  - apply pitch_shift_same_format.
  - apply volume_adjust_same_format.
Qed.

Lemma at_least_refl a : at_least a a.
Proof. unfold at_least. lia. Qed.

Lemma at_least_trans a b c : at_least a b -> at_least b c -> at_least a c.
Proof. unfold at_least. lia. Qed.

Lemma augmentations_keep_format :
  Forall kernel_keeps_format (augmentations lib).
Proof.
  unfold augmentations.
  repeat apply List.Forall_cons; try apply List.Forall_nil.
  - intros a w Hfr.
    apply outcome_bind, outcome_choice; [done |]. intros noise_type _.
    apply outcome_bind, outcome_uniform. intros noise_level.
    unfold add_noise.
    destruct (__len___ok a Hfr) as (l & Hl & _). rewrite Hl.
    apply outcome_bind, outcome_lift.
    apply outcome_guarded; [apply at_least_refl |].
    intros a' w1 H.
    apply bind_inr in H as (noise & w2 & _ & H).
    apply bind_inr in H as (l' & w3 & _ & H).
    destruct (l' =? 0).
    + apply ret_inr in H as [-> _]. apply at_least_refl.
    + apply bind_inr in H as (nd & w4 & _ & H).
      apply bind_inr in H as (ad & w5 & _ & H).
      apply bind_inr in H as (noise' & w6 & _ & H).
      apply lift_inr in H as [H _].
      apply overlay_meta in H as (E1 & E2 & E3). unfold at_least. lia.
  - intros a w Hfr. apply outcome_bind, outcome_uniform. intros rate.
    eapply outcome_weaken;
      [apply time_stretch_same_format |].
    intros r _ (a' & -> & E1 & E2 & E3). exists a'. split; [done |].
    unfold at_least. lia.
  - intros a w Hfr. apply outcome_bind, outcome_uniform. intros semitones.
    eapply outcome_weaken;
      [apply pitch_shift_same_format |].
    intros r _ (a' & -> & E1 & E2 & E3). exists a'. split; [done |].
    unfold at_least. lia.
  - intros a w Hfr. apply outcome_bind, outcome_uniform. intros db_change.
    eapply outcome_weaken;
      [apply volume_adjust_same_format |].
    intros r _ (a' & -> & E1 & E2 & E3). exists a'. split; [done |].
    unfold at_least. lia.
  - intros a w Hfr. apply outcome_bind, outcome_uniform. intros decay.
    unfold reverb_effect.
    apply outcome_guarded; [apply at_least_refl |].
    intros a' w1 H.
    apply bind_inr in H as (echo & w2 & _ & H).
    apply bind_inr in H as (delay & w3 & _ & H).
    apply bind_inr in H as (echo' & w4 & _ & H).
    apply bind_inr in H as (result & w5 & H & H').
    apply ret_inr in H' as [-> _].
    apply lift_inr in H as [H _].
    apply overlay_meta in H as (E1 & E2 & E3). unfold at_least. lia.
Qed.

Lemma for_acc_keeps_format (sel : list (AudioSegment -> M Mem AudioSegment)) :
  Forall kernel_keeps_format sel ->
  forall a w,
    0 < frame_rate a ->
    outcome (for_acc sel (fun augmentation result => augmentation result) a) w
      (fun r _ => exists a', r = inr a' /\ at_least a a').
Proof.
  induction 1 as [| k sel Hk _ IH]; intros a w Hfr; simpl.
  - apply outcome_ret. exists a. split; [done | apply at_least_refl].
  - apply outcome_bind. eapply outcome_weaken; [by apply Hk |].
    intros r w1 (a1 & -> & H1).
    eapply outcome_weaken; [apply IH; unfold at_least in H1; lia |].
    intros r w2 (a2 & -> & H2). exists a2. split; [done |].
    by eapply at_least_trans.
Qed.

(** X15: the audio composer never lowers the format of a clip: the clip
    that [augment_audio] returns has at least the frame rate, the number
    of channels and the sample width of the clip it was given, whatever
    kernels are drawn and whatever they do; and [augment_audio] exports
    nothing. *)
Theorem augment_audio_never_lowers_the_format (audio : AudioSegment)
  (w : World Mem) :
  0 < frame_rate audio ->
  exists a w',
    augment_audio lib audio w = (inr a, w')
    /\ frame_rate audio <= frame_rate a
    /\ channels audio <= channels a
    /\ sample_width audio <= sample_width a
    /\ mem w' = mem w.
Proof.
  intros Hfr.
  pose proof (augment_audio_pure lib audio w) as Hpure.
  assert (H : outcome (augment_audio lib audio) w
                (fun r _ => exists a', r = inr a' /\ at_least audio a')).
  { unfold augment_audio. apply outcome_bind, outcome_of_run.
    intros r w1 Hsel.
    assert (Hr : exists sel, r = inr sel).
    { pose proof (outcome_select_effects lib w
                    (fun r _ => exists sel, r = inr sel)) as Ho.
      unfold outcome in Ho. rewrite Hsel in Ho. apply Ho. by eauto. }
    destruct Hr as [sel ->].
    apply for_acc_keeps_format; [| done].
    unfold select_augmentations in Hsel.
    apply bind_inr in Hsel as (n & w0 & _ & Hsel).
    apply sample_submseteq in Hsel as [Hsub _].
    apply Forall_forall. intros k Hk.
    pose proof augmentations_keep_format as Hall.
    rewrite Forall_forall in Hall. apply Hall.
    by eapply elem_of_submseteq. }
  unfold outcome in H.
  destruct (augment_audio lib audio w) as [r w'].
  destruct H as (a & Hr & H1 & H2 & H3). simpl in Hr, Hpure. subst r.
  exists a, w'. auto.
Qed.

(** ** Reverberation of a short clip *)

(** X16: a clip that is not longer than the delay gets no echo.  For a
    clip in a format at least that of pydub's silence (mono, 16 bit,
    11025 Hz) and of at most [delay] milliseconds, where [delay] is
    [int(decay * 1000)], what [reverb_effect] returns is the clip itself
    or its slice [audio[:delay]]: the echo lies entirely after the end of
    the clip and nothing of it is mixed in. *)
Theorem reverb_effect_adds_no_echo_to_a_short_clip (audio : AudioSegment)
  (decay : pyfloat) (delay L : Z) (w : World Mem) :
  1 <= channels audio -> 11025 <= frame_rate audio ->
  2 <= sample_width audio ->
  int_of_float (fmul_int 1000 decay) = inr delay ->
  __len__ audio = inr L ->
  L <= delay ->
  outcome (reverb_effect lib audio decay) w
    (fun r _ =>
       r = inr audio
       \/ exists hd,
           __getitem__ audio None (Some delay) = inr hd /\ r = inr hd).
Proof.
  intros Hch Hfr Hsw Hdelay Hlen HL. unfold reverb_effect.
  eapply outcome_weaken.
  - apply (outcome_guarded _ _ audio w
             (fun a => a = audio
                       \/ exists hd,
                           __getitem__ audio None (Some delay) = inr hd
                           /\ a = hd)); [by left |].
    intros a w1 H.
    apply bind_inr in H as (echo & w2 & Hecho & H).
    apply bind_inr in H as (delay' & w3 & Hd & H).
    apply bind_inr in H as (echo' & w4 & Happ & H).
    apply bind_inr in H as (result & w5 & H & H').
    apply ret_inr in H' as [-> _].
    apply lift_inr in Hecho as [Hecho _].
    apply lift_inr in Hd as [Hd _].
    apply lift_inr in Happ as [Happ _].
    apply lift_inr in H as [H _].
    rewrite Hdelay in Hd. injection Hd as <-.
    apply apply_gain_meta in Hecho as (Ef & Ec & Es).
    (* the echo with its silence has the format of the clip *)
    unfold append in Happ.
    apply bindE_inr in Happ as ([s1 s2] & Hsync & [= <-]).
    apply _sync_meta in Hsync as (Sf & Sc & Ss & _).
    simpl in Sf, Sc, Ss.
    (* so the clip is overlaid as it is *)
    pose proof (__len___inv audio L ltac:(lia) Hlen) as (HL0 & _).
    unfold overlay in H.
    apply bindE_inr in H as ([t1 t2] & Hs & H).
    apply _sync_left_same in Hs as ->; simpl; [| lia ..].
    apply bindE_inr in H as (hd & Hhd & H).
    apply bindE_inr in H as (tl & Htl & H).
    pose proof (__getitem___meta _ _ _ _ Hhd) as (Mf & Mc & Ms).
    apply (__getitem___tail audio delay L tl ltac:(lia) ltac:(lia) Hlen)
      in Htl.
    rewrite Z.min_r, Z.sub_diag in Htl by lia.
    assert (Etl : _data tl = []).
    { destruct (_data tl); [done | unfold len in Htl; simpl in Htl; lia]. }
    rewrite Etl in H. simpl in H.
    assert (Hlen2 : 0 <= len (_data t2)) by (unfold len; lia).
    destruct (Z.leb_spec 0 (len (_data t2))); [| lia].
    apply bindE_inr in H as (added & Hadd & [= <-]).
    apply audioop_add_len in Hadd.
    assert (added = []) as ->.
    { destruct added; [done |].
      unfold py_slice in Hadd. rewrite drop_nil, take_nil in Hadd.
      unfold len in Hadd. simpl in Hadd. lia. }
    right. exists hd. split; [done |].
    destruct hd as [d sw fr ch]. simpl in *. subst.
    unfold _spawn, py_slice. rewrite drop_nil, take_nil. simpl.
    by rewrite app_nil_r.
  - intros r _ (a & -> & [-> | (hd & Hhd & ->)]); [by left |].
    right. by exists hd.
Qed.

(** ** What the composer prints *)

Lemma passes_or_logs_printed prefix audio (w0 w : World Mem) r w' :
  stdout w = stdout w0 ->
  passes_or_logs prefix audio w r w' -> printed_at_most 1 w0 w'.
Proof.
  intros E (_ & [(a & _ & Ho) | (e & _ & Ho)]); unfold printed_at_most;
    rewrite Ho, E.
  - exists []. rewrite app_nil_r. split; [done | simpl; lia].
  - eexists [_]. split; [done | simpl; lia].
Qed.

Lemma augmentations_log : Forall kernel_logs (augmentations lib).
Proof.
  unfold augmentations.
  repeat apply List.Forall_cons; try apply List.Forall_nil; intros a w Hfr.
  - apply outcome_bind, outcome_choice; [done |]. intros noise_type _.
    apply outcome_bind, outcome_uniform. intros noise_level.
    unfold add_noise.
    destruct (__len___ok a Hfr) as (l & Hl & _). rewrite Hl.
    apply outcome_bind, outcome_lift.
    eapply outcome_weaken;
      [apply guarded_passes_or_logs; quiet_steps |].
    intros r w'. by apply passes_or_logs_printed.
  - apply outcome_bind, outcome_uniform. intros rate.
    eapply outcome_weaken;
      [apply guarded_passes_or_logs; quiet_steps |].
    intros r w'. by apply passes_or_logs_printed.
  - apply outcome_bind, outcome_uniform. intros semitones.
    eapply outcome_weaken;
      [apply guarded_passes_or_logs; quiet_steps |].
    intros r w'. by apply passes_or_logs_printed.
  - apply outcome_bind, outcome_uniform. intros db_change.
    eapply outcome_weaken;
      [apply guarded_passes_or_logs; quiet_steps |].
    intros r w'. by apply passes_or_logs_printed.
  - apply outcome_bind, outcome_uniform. intros decay.
    eapply outcome_weaken;
      [apply guarded_passes_or_logs; quiet_steps |].
    intros r w'. by apply passes_or_logs_printed.
Qed.

Lemma for_acc_logs (sel : list (AudioSegment -> M Mem AudioSegment)) :
  Forall kernel_total sel -> Forall kernel_logs sel ->
  forall a w,
    0 < frame_rate a ->
    outcome (for_acc sel (fun augmentation result => augmentation result) a) w
      (fun r w' =>
         (exists a', r = inr a') /\ printed_at_most (length sel) w w').
Proof.
  induction 1 as [| k sel Hk _ IH]; intros Hlogs a w Hfr; simpl.
  - apply outcome_ret. split; [by eauto |].
    exists []. rewrite app_nil_r. split; [done | simpl; lia].
  - apply Forall_cons in Hlogs as [Hl Hlogs].
    apply outcome_bind. unfold outcome at 1.
    pose proof (Hk a w Hfr) as H1. pose proof (Hl a w Hfr) as H2.
    unfold outcome in H1, H2.
    destruct (k a w) as [r1 w1]. simpl in *.
    destruct H1 as (a1 & -> & Hfr1).
    destruct H2 as (l1 & Ho1 & Hn1).
    eapply outcome_weaken; [by apply IH |].
    intros r w2 (Hr & l2 & Ho2 & Hn2). split; [done |].
    exists (l1 ++ l2). rewrite Ho2, Ho1, app_assoc. split; [done |].
    rewrite length_app. lia.
Qed.

(** X23: the audio composer prints at most one line for each kernel it
    applies, so at most three: given a clip with a positive frame rate,
    [augment_audio] returns a clip and the lines it printed are at most
    three, whatever the kernels and the library do. *)
Theorem augment_audio_prints_at_most_three_lines (audio : AudioSegment)
  (w : World Mem) :
  0 < frame_rate audio ->
  exists a w' lines,
    augment_audio lib audio w = (inr a, w')
    /\ stdout w' = stdout w ++ lines
    /\ (length lines <= 3)%nat.
Proof.
  intros Hfr.
  assert (H : outcome (augment_audio lib audio) w
                (fun r w' => (exists a', r = inr a')
                             /\ printed_at_most 3 w w')).
  { unfold augment_audio. apply outcome_bind, outcome_of_run.
    intros r w1 Hsel.
    assert (Hr : exists sel,
               r = inr sel /\ Forall kernel_total sel
               /\ stdout w1 = stdout w /\ (length sel <= 3)%nat).
    { pose proof (outcome_select_effects lib w
                    (fun r w' => exists sel,
                         r = inr sel /\ Forall kernel_total sel
                         /\ stdout w' = stdout w
                         /\ (length sel <= 3)%nat)) as Ho.
      unfold outcome in Ho. rewrite Hsel in Ho. apply Ho.
      intros sel w' Hlen Htot _ _ Hout _. exists sel.
      repeat split; try done.
      unfold num_effects_of, len in Hlen.
      pose proof (Z.mod_pos_bound (nth 0 (rng w) 0) 3 ltac:(lia)). lia. }
    destruct Hr as (sel & -> & Htot & Hout & Hlen).
    assert (Hlogs : Forall kernel_logs sel).
    { unfold select_augmentations in Hsel.
      apply bind_inr in Hsel as (n & w0 & _ & Hsel).
      apply sample_submseteq in Hsel as [Hsub _].
      apply Forall_forall. intros k Hk.
      pose proof augmentations_log as Hall.
      rewrite Forall_forall in Hall. apply Hall.
      by eapply elem_of_submseteq. }
    eapply outcome_weaken; [by apply for_acc_logs |].
    intros r w2 (Hr & lines & Ho & Hn). split; [done |].
    exists lines. rewrite Ho, Hout. split; [done | lia]. }
  unfold outcome in H.
  destruct (augment_audio lib audio w) as [r w'].
  destruct H as ((a & Hr) & lines & Ho & Hn). simpl in Hr. subst r.
  by exists a, w', lines.
Qed.

End WithLibrary.


(** ** The theorems above on concrete runs *)

Lemma kernels_pass_the_clip_on_when_they_fail_witness :
  outcome (add_noise pydub0 (ramp 30) "white" (Fin (- (15)))) (world0 [] [])
    (passes_or_logs "Error adding noise: " (ramp 30) (world0 [] []))
  /\ outcome (time_stretch pydub0 (ramp 30) (Fin 1)) (world0 [] [])
       (passes_or_logs "Error in time stretching: " (ramp 30) (world0 [] []))
  /\ outcome (pitch_shift pydub0 (ramp 30) (Fin 0)) (world0 [] [])
       (passes_or_logs "Error in pitch shifting: " (ramp 30) (world0 [] []))
  /\ outcome (volume_adjust pydub0 (ramp 30) (Fin 3)) (world0 [] [])
       (passes_or_logs "Error adjusting volume: " (ramp 30) (world0 [] []))
  /\ outcome (reverb_effect pydub0 (ramp 30) (Fin (1 # 2))) (world0 [] [])
       (passes_or_logs "Error adding reverb: " (ramp 30) (world0 [] [])).
Proof.
  apply (kernels_pass_the_clip_on_when_they_fail pydub0 (ramp 30)
           (world0 [] []) "white" (Fin (- (15))) (Fin 1) (Fin 0) (Fin 3)
           (Fin (1 # 2))).
  reflexivity.
Defined.

Lemma add_noise_rejects_an_unknown_noise_type_witness :
  add_noise pydub0 (ramp 30) "grey" (Fin (- (15))) (world0 [] [5])
    = (inr (ramp 30),
       mkWorld [] [5]
         ([] ++ ["Error adding noise: Invalid noise type: grey"])).
Proof.
  apply (add_noise_rejects_an_unknown_noise_type pydub0 (ramp 30) "grey"
           (Fin (- (15))) (world0 [] [5])).
  - reflexivity.
  - discriminate.
  - discriminate.
  - discriminate.
Defined.

Lemma augment_audio_never_lowers_the_format_witness :
  exists a w',
    augment_audio pydub0 (ramp 30) (world0 [] [2; 4; 1; 0]) = (inr a, w')
    /\ 11025 <= frame_rate a
    /\ 1 <= channels a
    /\ 2 <= sample_width a
    /\ mem w' = [].
Proof.
  apply (augment_audio_never_lowers_the_format pydub0 (ramp 30)
           (world0 [] [2; 4; 1; 0])).
  reflexivity.
Defined.

Lemma reverb_effect_adds_no_echo_to_a_short_clip_witness :
  outcome (reverb_effect pydub0 (ramp 30) (Fin (1 # 10))) (world0 [] [])
    (fun r _ =>
       r = inr (ramp 30)
       \/ exists hd,
           __getitem__ (ramp 30) None (Some 100) = inr hd /\ r = inr hd).
Proof.
  apply (reverb_effect_adds_no_echo_to_a_short_clip pydub0 (ramp 30)
           (Fin (1 # 10)) 100 3 (world0 [] [])).
  - simpl. lia.
  - simpl. lia.
  - simpl. lia.
  - reflexivity.
  - vm_compute. reflexivity.
  - lia.
Defined.


Lemma augment_audio_prints_at_most_three_lines_witness :
  exists a w' lines,
    augment_audio pydub0 (ramp 30) (world0 [] [2; 4; 1; 0]) = (inr a, w')
    /\ stdout w' = [] ++ lines
    /\ (length lines <= 3)%nat.
Proof.
  apply (augment_audio_prints_at_most_three_lines pydub0 (ramp 30)
           (world0 [] [2; 4; 1; 0])).
  reflexivity.
Defined.

End AudioExtras.

(* ===================================================================== *)
(** * More about the composers and the drivers *)
(* ===================================================================== *)

Module DriverExtras.

Import Py PyFacts Fixtures.
Import ImgaugSpec SpeechaugSpec.
Local Open Scope py_scope.

(** ** Sampling *)

(** X9: no kernel is applied twice in one chain.  What either composer
    selects is, up to its order, a sub-list of its pool ([⊆+]): every
    place of the pool is selected at most once. *)
Theorem composers_never_repeat_a_kernel (plib : PIL.Library)
  (alib : Pydub.Library) (wi : World Imgaug.Mem) (wa : World Speechaug.Mem) :
  (exists sel w',
      Imgaug.select_augmentations plib wi = (inr sel, w')
      /\ sel ⊆+ Imgaug.augmentations plib)
  /\ (exists sel w',
         Speechaug.select_augmentations alib wa = (inr sel, w')
         /\ sel ⊆+ Speechaug.augmentations alib).
Proof.
  split.
  - destruct (Imgaug.select_augmentations plib wi) as [r w'] eqn:E.
    assert (H : exists sel, r = inr sel).
    { pose proof (ImgaugFacts.outcome_select_augmentations plib wi
                    (fun r _ => exists sel, r = inr sel)) as H.
      unfold outcome in H. rewrite E in H. apply H. by eauto. }
    destruct H as [sel ->].
    exists sel, w'. split; [done |].
    unfold Imgaug.select_augmentations in E.
    apply bind_inr in E as (n & w1 & _ & E).
    by apply sample_submseteq in E as [? _].
  - destruct (Speechaug.select_augmentations alib wa) as [r w'] eqn:E.
    assert (H : exists sel, r = inr sel).
    { pose proof (SpeechaugFacts.outcome_select_effects alib wa
                    (fun r _ => exists sel, r = inr sel)) as H.
      unfold outcome in H. rewrite E in H. apply H. by eauto. }
    destruct H as [sel ->].
    exists sel, w'. split; [done |].
    unfold Speechaug.select_augmentations in E.
    apply bind_inr in E as (n & w1 & _ & E).
    by apply sample_submseteq in E as [? _].
Qed.


(** ** The image driver *)

Section ImageDriver.

Variable plib : PIL.Library.
Variable os : OS.

(** One round of the loop over the copies, up to the call to [save]: the
    copy is a new object, [augment_image] returns an object that holds an
    image, and neither the loaded image nor the saved files change. *)
Lemma copy_round (img : Imgaug.ref) (v : PIL.Image) (w1 : World Imgaug.Mem) :
  hp w1 !! img = Some v ->
  exists c w2 r w3 saved,
    Imgaug.copy_object img w1 = (inr c, w2)
    /\ Imgaug.augment_image plib c w2 = (inr r, w3)
    /\ hp w3 !! img = Some v
    /\ hp w3 !! r = Some saved
    /\ Imgaug.files (mem w3) = Imgaug.files (mem w1).
Proof.
  intros Hv1.
  set (c := length (hp w1)).
  set (w2 := set_mem (Imgaug.mkMem (hp w1 ++ [v]) (Imgaug.files (mem w1))) w1).
  assert (Himg : (img < c)%nat) by (by eapply lookup_lt_Some).
  assert (Hc : hp w2 !! c = Some v).
  { unfold w2, hp; simpl. rewrite lookup_app_r by done.
    by rewrite Nat.sub_diag. }
  pose proof (ImgaugFacts.augment_image_safe plib (length (hp w2)) c c w2
                ltac:(done) ltac:(by left) ltac:(by eexists)) as Hsafe.
  unfold outcome in Hsafe.
  destruct (Imgaug.augment_image plib c w2) as [r3 w3] eqn:Hrun.
  destruct Hsafe as ((Hlen & Hsame & Hfiles3) & r' & Hr & [saved Hsaved]).
  simpl in Hr. subst r3.
  exists c, w2, r', w3, saved. repeat split; try done.
  - unfold Imgaug.copy_object.
    by rewrite (ImgaugFacts.method_run img (fun v => inr (PIL.copy v)) w1 v v
                  Hv1 eq_refl).
  - rewrite Hsame.
    + unfold w2, hp; simpl. rewrite lookup_app_l by done. exact Hv1.
    + unfold w2, hp; simpl. rewrite length_app. simpl.
      unfold c, hp in Himg. lia.
    + lia.
Qed.

(** The rounds for [idxs], when every one of them can save. *)
Lemma copies_loop (img : Imgaug.ref) (v : PIL.Image)
  (filename output_folder : string) (idxs : list nat) :
  (forall i v', In i idxs ->
     PIL.save_JPEG plib v' (copy_path os filename output_folder i) = None) ->
  forall w : World Imgaug.Mem,
    hp w !! img = Some v ->
    exists w',
      for_each idxs
        (fun i =>
           let* c := Imgaug.copy_object img in
           let* augmented_img := Imgaug.augment_image plib c in
           Imgaug.save plib augmented_img
             (copy_path os filename output_folder i)) w
        = (inr tt, w')
      /\ hp w' !! img = Some v
      /\ map fst (Imgaug.files (mem w'))
         = map fst (Imgaug.files (mem w))
           ++ map (copy_path os filename output_folder) idxs.
Proof.
  induction idxs as [| i idxs IH]; intros Hsave w Hv; simpl.
  - exists w. by rewrite app_nil_r.
  - destruct (copy_round img v w Hv)
      as (c & w2 & r & w3 & saved & Hcopy & Haug & Hv3 & Hsaved & Hfiles).
    set (w4 := set_mem
                 (Imgaug.mkMem (hp w3)
                    (Imgaug.files (mem w3)
                     ++ [(copy_path os filename output_folder i, saved)]))
                 w3).
    destruct (IH (fun j v' Hj => Hsave j v' (or_intror Hj)) w4)
      as (w' & Hrest & Hv' & Hfiles'); [exact Hv3 |].
    exists w'. split; [| split; [done |]].
    + unfold bind at 1. unfold bind at 1. rewrite Hcopy.
      unfold bind at 1. rewrite Haug.
      unfold Imgaug.save, bind at 1, Imgaug.deref. fold (hp w3).
      rewrite Hsaved, (Hsave i saved (or_introl eq_refl)).
      exact Hrest.
    + rewrite Hfiles'. unfold w4; simpl.
      rewrite map_app, Hfiles. simpl. by rewrite <- app_assoc.
Qed.

(** X10: when writing a JPEG never fails, the loop over the copies of one
    file ends without an exception and saves exactly [num_copies] files,
    in order, under the names [<base>_aug_1.jpg], [<base>_aug_2.jpg], ...
    in the output folder: whatever happens inside [augment_image], there
    is an image to save at every round. *)
Theorem make_copies_saves_each_copy (img : Imgaug.ref) (v : PIL.Image)
  (filename output_folder : string) (num_copies : Z)
  (w : World Imgaug.Mem) :
  hp w !! img = Some v ->
  (forall v' path, PIL.save_JPEG plib v' path = None) ->
  exists w',
    Imgaug.make_copies plib os img filename output_folder num_copies w
      = (inr tt, w')
    /\ map fst (Imgaug.files (mem w'))
       = map fst (Imgaug.files (mem w))
         ++ map (copy_path os filename output_folder)
              (range (Z.to_nat num_copies)).
Proof.
  intros Hv Hsave.
  destruct (copies_loop img v filename output_folder
              (range (Z.to_nat num_copies)) (fun i v' _ => Hsave v' _) w Hv)
    as (w' & Hrun & _ & Hfiles).
  exists w'. by split.
Qed.

(** X21: a file that is counted as skipped can leave copies behind.  When
    the file opens, the first [k] copies can be written and the next one
    cannot, the round of the driver prints the error, counts the file as
    skipped, and the [k] copies written before stay in the output
    folder: nothing is undone. *)
Theorem failed_save_leaves_the_earlier_copies
  (input_folder output_folder : string) (num_copies : Z) (filename : string)
  (processed skipped : nat) (v : PIL.Image) (k : nat) (e : exn)
  (w : World Imgaug.Mem) :
  supported filename = true ->
  PIL.open plib (join os input_folder filename) = inr v ->
  (k < Z.to_nat num_copies)%nat ->
  (forall i v', (i < k)%nat ->
     PIL.save_JPEG plib v' (copy_path os filename output_folder i) = None) ->
  (forall v',
     PIL.save_JPEG plib v' (copy_path os filename output_folder k) = Some e) ->
  exists w1 w' : World Imgaug.Mem,
    Imgaug.main_file plib os input_folder output_folder num_copies filename
      (processed, skipped) w
      = (inr (processed, S skipped), w')
    /\ map fst (Imgaug.files (mem w'))
       = map fst (Imgaug.files (mem w))
         ++ map (copy_path os filename output_folder) (range k)
    /\ stdout w'
       = stdout w1
         ++ ["Error processing " +:+ filename +:+ ": " +:+ exn_msg e].
Proof.
  intros Hsupp Hopen Hk Hbefore Hat.
  set (img := length (hp w)).
  set (w0 := set_mem (Imgaug.mkMem (hp w ++ [v]) (Imgaug.files (mem w))) w).
  assert (Hv0 : hp w0 !! img = Some v).
  { unfold w0, hp; simpl. rewrite lookup_app_r by done.
    by rewrite Nat.sub_diag. }
  destruct (copies_loop img v filename output_folder (range k)
              (fun i v' Hi => Hbefore i v' ltac:(apply in_seq in Hi; lia))
              w0 Hv0)
    as (w1 & Hpre & Hv1 & Hfiles1).
  destruct (copy_round img v w1 Hv1)
    as (c & w2 & r & w3 & saved & Hcopy & Haug & Hv3 & Hsaved & Hfiles3).
  assert (Hloop :
            Imgaug.make_copies plib os img filename output_folder num_copies
              w0 = (inl e, w3)).
  { unfold Imgaug.make_copies.
    assert (Hsplit : range (Z.to_nat num_copies)
                     = range k ++ k :: seq (S k) (Z.to_nat num_copies - S k)).
    { unfold range.
      replace (Z.to_nat num_copies)
        with (k + S (Z.to_nat num_copies - S k))%nat at 1 by lia.
      by rewrite seq_app. }
    rewrite Hsplit.
    apply for_each_raise with (w1 := w1); [exact Hpre |].
    unfold bind at 1. rewrite Hcopy.
    unfold bind at 1. rewrite Haug.
    unfold Imgaug.save, bind at 1, Imgaug.deref. fold (hp w3).
    by rewrite Hsaved, Hat. }
  exists w3,
    (mkWorld (mem w3) (rng w3)
       (stdout w3
        ++ ["Error processing " +:+ filename +:+ ": " +:+ exn_msg e])).
  split; [| split; [| done]].
  - unfold Imgaug.main_file. fold (supported filename). rewrite Hsupp.
    unfold try_except. unfold bind at 1. rewrite Hopen.
    unfold lift, ret. unfold bind at 1, Imgaug.new_object. fold (hp w).
    fold w0. fold img. unfold bind at 1. rewrite Hloop.
    unfold bind, print, ret. simpl. by rewrite Nat.add_1_r.
  - simpl. rewrite Hfiles3, Hfiles1. reflexivity.
Qed.

(** One round of the loop over the names: the name is counted once, as
    processed only if it is the name of an image, and files are only
    added. *)
Lemma image_main_file_counts (input_folder output_folder : string)
  (num_copies : Z) (filename : string) (processed skipped : nat)
  (w : World Imgaug.Mem) :
  outcome
    (Imgaug.main_file plib os input_folder output_folder num_copies filename
       (processed, skipped)) w
    (fun r w' =>
       exists processed' skipped',
         r = inr (processed', skipped')
         /\ (processed' + skipped' = processed + skipped + 1)%nat
         /\ (processed <= processed')%nat /\ (skipped <= skipped')%nat
         /\ (supported filename = false -> processed' = processed)
         /\ exists added,
             Imgaug.files (mem w') = Imgaug.files (mem w) ++ added).
Proof.
  unfold Imgaug.main_file. fold (supported filename).
  destruct (supported filename) eqn:Hs.
  - apply outcome_try_except, outcome_bind, outcome_lift.
    destruct (PIL.open plib _) as [e | v].
    { apply outcome_bind, outcome_print, outcome_ret.
      exists processed, (skipped + 1)%nat. simpl.
      repeat split; try done; try lia. exists []. by rewrite app_nil_r. }
    apply outcome_bind, ImgaugFacts.outcome_new_object.
    apply outcome_bind.
    eapply outcome_weaken.
    { apply (ImgaugFacts.make_copies_keeps plib os (length (hp w)) v).
      unfold hp; simpl. rewrite lookup_app_r by done.
      by rewrite Nat.sub_diag. }
    intros r w1 (_ & added & Hfiles & _). simpl in Hfiles.
    destruct r as [e | []].
    + apply outcome_bind, outcome_print, outcome_ret.
      exists processed, (skipped + 1)%nat. simpl.
      repeat split; try done; try lia. by exists added.
    + apply outcome_bind, outcome_print, outcome_ret.
      exists (processed + 1)%nat, skipped. simpl.
      repeat split; try done; try lia. by exists added.
  - apply outcome_bind, outcome_print, outcome_ret.
    exists processed, (skipped + 1)%nat. simpl.
    repeat split; try done; try lia. exists []. by rewrite app_nil_r.
Qed.

(** X11: the image driver counts every name of the input folder exactly
    once.  Whatever the library and the draws do, [main] ends without an
    exception; the last line it prints is the summary, whose two numbers
    add up to the number of names listed; a name that does not end in one
    of the four extensions (whatever its case) is never counted as
    processed; and files are only added to those saved before. *)
Theorem image_main_counts_every_name (input_folder output_folder : string)
  (num_copies : Z) (w : World Imgaug.Mem) :
  exists (processed skipped : nat) (w1 w' : World Imgaug.Mem) added,
    Imgaug.main plib os input_folder output_folder num_copies w
      = (inr tt, w')
    /\ stdout w' = stdout w1 ++ [summary processed skipped]
    /\ (processed + skipped = length (listdir os input_folder))%nat
    /\ (processed
        <= length (List.filter supported (listdir os input_folder)))%nat
    /\ Imgaug.files (mem w') = Imgaug.files (mem w) ++ added.
Proof.
  set (I := fun (pre : list string) (c : nat * nat)
                (w1 : World Imgaug.Mem) =>
              (fst c + snd c = length pre)%nat
              /\ (fst c <= length (List.filter supported pre))%nat
              /\ exists added,
                  Imgaug.files (mem w1) = Imgaug.files (mem w) ++ added).
  pose proof (outcome_for_acc (listdir os input_folder)
                (Imgaug.main_file plib os input_folder output_folder
                   num_copies) (0%nat, 0%nat) w I (fun _ _ => False)) as H.
  unfold outcome in H. unfold Imgaug.main, bind.
  destruct (for_acc _ _ _ w) as [r w1].
  simpl in H.
  assert (G : match r with
              | inl _ => False
              | inr c => I (listdir os input_folder) c w1
              end).
  { apply H; clear H.
    - repeat split; simpl; try lia. exists []. by rewrite app_nil_r.
    - intros pre x suf [p s] w2 _ (Hsum & Hle & added & Hfiles).
      simpl in Hsum, Hle.
      eapply outcome_weaken; [apply image_main_file_counts |].
      intros r2 w3
        (p' & s' & -> & Hsum' & Hmono & Hmono' & Hskip & added' & Hfiles').
      unfold I. simpl. rewrite length_app, List.filter_app, length_app.
      simpl. repeat split.
      + lia.
      + destruct (supported x) eqn:Hx; simpl; [lia |].
        specialize (Hskip eq_refl). lia.
      + exists (added ++ added'). by rewrite Hfiles', Hfiles, app_assoc. }
  destruct r as [e | [p s]]; [done |].
  destruct G as (Hsum & Hle & added & Hfiles). simpl in *.
  exists p, s, w1, (mkWorld (mem w1) (rng w1)
                      (stdout w1 ++ [summary p s])), added.
  repeat split; done.
Qed.

End ImageDriver.

Lemma make_copies_saves_each_copy_witness :
  exists w',
    Imgaug.make_copies pil1 os0 0%nat "a.png" "out" 2
      (img_world [rgb_2x2] [0; 3; 7; 1; 2; 30; 4; 11])
      = (inr tt, w')
    /\ map fst (Imgaug.files (mem w'))
       = [] ++ ["out/a.png_aug_1.jpg"; "out/a.png_aug_2.jpg"].
Proof.
  apply (make_copies_saves_each_copy pil1 os0 0%nat rgb_2x2 "a.png" "out" 2
           (img_world [rgb_2x2] [0; 3; 7; 1; 2; 30; 4; 11])).
  - reflexivity.
  - intros v' path. reflexivity.
Defined.


(** ** The audio driver *)

Section AudioDriver.

Variable alib : Pydub.Library.
Variable os : OS.

(** X17: when exporting never fails, the loop over the augmentations of
    a clip with a positive frame rate exports exactly
    [num_augmentations] files, in order, under the names
    [<base>_aug_1<ext>], [<base>_aug_2<ext>], ... in the output folder,
    and ends without an exception. *)
Theorem make_augmentations_exports_each_one (audio : Pydub.AudioSegment)
  (filename output_folder base_name file_ext : string)
  (num_augmentations : Z) (w : World Speechaug.Mem) :
  0 < Pydub.frame_rate audio ->
  (forall seg path format, Pydub.export alib seg path format = None) ->
  exists w',
    Speechaug.make_augmentations alib os audio filename output_folder
      base_name file_ext num_augmentations w = (inr tt, w')
    /\ map fst (mem w')
       = map fst (mem w)
         ++ map (augmentation_path os output_folder base_name file_ext)
              (range (Z.to_nat num_augmentations)).
Proof.
  intros Hfr Hexport.
  set (I := fun (pre : list nat) (w1 : World Speechaug.Mem) =>
              map fst (mem w1)
              = map fst (mem w)
                ++ map (augmentation_path os output_folder base_name file_ext)
                     pre).
  pose proof (outcome_for_each (range (Z.to_nat num_augmentations))
                (fun i =>
                   try_except
                     (let* augmented_audio :=
                        Speechaug.augment_audio alib audio in
                      Speechaug.export_to alib augmented_audio
                        (augmentation_path os output_folder base_name
                           file_ext i)
                        (Speechaug.tail_of file_ext))
                     (fun e =>
                        print ("Error creating augmentation " +:+ str (i + 1)
                               +:+ " for " +:+ filename +:+ ": "
                               +:+ exn_msg e)))
                w I (fun _ _ => False)) as H.
  unfold outcome in H. unfold Speechaug.make_augmentations.
  match type of H with
  | _ -> _ -> match fst (?c w) with _ => _ end =>
      match goal with
      | |- exists w', ?c' w = _ /\ _ => change c' with c
      end
  end.
  destruct (for_each _ _ w) as [r w'].
  simpl in H.
  assert (G : match r with
              | inl _ => False
              | inr _ => I (range (Z.to_nat num_augmentations)) w'
              end).
  { apply H; clear H.
    - unfold I. simpl. by rewrite app_nil_r.
    - intros pre i suf w1 _ Hfiles.
      apply outcome_try_except, outcome_bind, outcome_of_run.
      intros r1 w2 Hrun.
      assert (Hmem2 : mem w2 = mem w1).
      { pose proof (SpeechaugFacts.augment_audio_pure alib audio w1) as Hp.
        by rewrite Hrun in Hp. }
      pose proof (SpeechaugFacts.augment_audio_total alib audio w1 Hfr) as Ht.
      unfold outcome in Ht. rewrite Hrun in Ht.
      destruct Ht as (a & Hr & _). simpl in Hr. subst r1.
      unfold Speechaug.export_to. rewrite Hexport.
      unfold outcome, bind, get_mem, put_mem, I; simpl.
      rewrite Hmem2, !map_app, Hfiles. simpl. by rewrite <- app_assoc. }
  destruct r as [e | []]; [done |].
  exists w'. by split.
Qed.

(** One round of the loop over the files: the file is counted once, and
    files are only added to those exported. *)
Lemma audio_main_file_counts (input_folder output_folder : string)
  (num_augmentations : Z) (total_files : nat) (filename : string)
  (processed skipped : nat) (audio_var : option Pydub.AudioSegment)
  (w : World Speechaug.Mem) :
  outcome
    (Speechaug.main_file alib os input_folder output_folder num_augmentations
       total_files filename (processed, skipped, audio_var)) w
    (fun r w' =>
       exists processed' skipped' audio_var',
         r = inr (processed', skipped', audio_var')
         /\ (processed' + skipped' = processed + skipped + 1)%nat
         /\ exists added, mem w' = mem w ++ added).
Proof.
  unfold Speechaug.main_file.
  apply outcome_try_except, outcome_bind, outcome_lift.
  destruct (Speechaug.load alib _ _ _) as [e | audio].
  { apply outcome_bind, outcome_print, outcome_ret.
    exists processed, (skipped + 1)%nat, audio_var. simpl.
    repeat split; try lia. exists []. by rewrite app_nil_r. }
  apply outcome_bind. unfold Speechaug.export_to at 1.
  destruct (Pydub.export alib audio _ _) as [e |].
  { apply outcome_raise, outcome_bind, outcome_print, outcome_ret.
    exists processed, (skipped + 1)%nat, (Some audio). simpl.
    repeat split; try lia. exists []. by rewrite app_nil_r. }
  unfold outcome at 1, bind at 1, get_mem, put_mem. simpl.
  apply outcome_bind.
  eapply outcome_weaken;
    [apply SpeechaugFacts.make_augmentations_from_original |].
  intros r w1 (-> & added & Hmem & _). simpl in Hmem.
  apply outcome_bind, outcome_print, outcome_ret.
  exists (processed + 1)%nat, skipped, (Some audio). simpl.
  repeat split; try lia.
  eexists (_ ++ added). rewrite Hmem. by rewrite app_assoc.
Qed.

(** X18: the audio driver counts every file it found exactly once.
    Whatever the library and the draws do, [main] ends without an
    exception; the last two lines it prints are the summary, whose two
    numbers add up to the number of files found, and the total, which is
    the number of processed files times [num_augmentations]; and files
    are only added to those exported before. *)
Theorem audio_main_counts_every_file (input_folder output_folder : string)
  (num_augmentations : Z) (w : World Speechaug.Mem) :
  exists (processed skipped : nat) (w1 w' : World Speechaug.Mem) added,
    Speechaug.main alib os input_folder output_folder num_augmentations w
      = (inr tt, w')
    /\ stdout w'
       = stdout w1
         ++ [audio_summary processed skipped;
             total_line processed num_augmentations]
    /\ (processed + skipped = length (audio_files os input_folder))%nat
    /\ mem w' = mem w ++ added.
Proof.
  set (w0 := mkWorld (mem w) (rng w)
               (stdout w
                ++ ["Found " +:+ str (length (audio_files os input_folder))
                    +:+ " audio files to process"])).
  set (I := fun (pre : list string)
                (c : nat * nat * option Pydub.AudioSegment)
                (w1 : World Speechaug.Mem) =>
              (fst (fst c) + snd (fst c) = length pre)%nat
              /\ exists added, mem w1 = mem w ++ added).
  pose proof (outcome_for_acc (audio_files os input_folder)
                (Speechaug.main_file alib os input_folder output_folder
                   num_augmentations (length (audio_files os input_folder)))
                (0%nat, 0%nat, None) w0 I (fun _ _ => False)) as H.
  unfold outcome in H. unfold Speechaug.main.
  fold (audio_files os input_folder).
  unfold bind at 1, print at 1. fold w0. unfold bind at 1.
  destruct (for_acc _ _ _ w0) as [r w1].
  simpl in H.
  assert (G : match r with
              | inl _ => False
              | inr c => I (audio_files os input_folder) c w1
              end).
  { apply H; clear H.
    - split; [done |]. exists []. by rewrite app_nil_r.
    - intros pre x suf [[p s] v] w2 _ (Hsum & added & Hmem). simpl in Hsum.
      eapply outcome_weaken; [apply audio_main_file_counts |].
      intros r2 w3 (p' & s' & v' & -> & Hsum' & added' & Hmem').
      unfold I. simpl. rewrite length_app. simpl. split; [lia |].
      exists (added ++ added'). by rewrite Hmem', Hmem, app_assoc. }
  destruct r as [e | [[p s] v]]; [done |].
  destruct G as (Hsum & added & Hmem). simpl in *.
  exists p, s, w1,
    (mkWorld (mem w1) (rng w1)
       ((stdout w1 ++ [audio_summary p s])
        ++ [total_line p num_augmentations])), added.
  repeat split; try done.
  simpl. by rewrite <- app_assoc.
Qed.

(** X19: a file is counted as processed as soon as it is loaded and its
    original is exported, whatever becomes of its augmentations: the
    exceptions of the inner loop are caught one by one, so the round of
    the driver ends with [processed + 1] even when no augmentation could
    be made. *)
Theorem audio_file_is_processed_once_its_original_is_exported
  (input_folder output_folder : string) (num_augmentations : Z)
  (total_files : nat) (filename file_ext base_name : string)
  (processed skipped : nat) (audio_var : option Pydub.AudioSegment)
  (audio : Pydub.AudioSegment) (w : World Speechaug.Mem) :
  file_ext = lower (snd (splitext os filename)) ->
  base_name = fst (splitext os filename) ->
  Speechaug.load alib (join os input_folder filename) file_ext audio_var
    = inr audio ->
  Pydub.export alib audio
    (join os output_folder (base_name +:+ "_original" +:+ file_ext))
    (Speechaug.tail_of file_ext) = None ->
  exists w',
    Speechaug.main_file alib os input_folder output_folder num_augmentations
      total_files filename (processed, skipped, audio_var) w
      = (inr (S processed, skipped, Some audio), w')
    /\ exists added,
        mem w'
        = mem w
          ++ (join os output_folder (base_name +:+ "_original" +:+ file_ext),
              audio) :: added.
Proof.
  intros -> -> Hload Hexport.
  unfold Speechaug.main_file, try_except.
  rewrite Hload.
  unfold bind at 1, lift, ret.
  unfold bind at 1, Speechaug.export_to at 1. rewrite Hexport.
  unfold bind at 1, get_mem, put_mem.
  set (w0 := set_mem _ w).
  pose proof (SpeechaugFacts.make_augmentations_from_original alib os audio
                filename output_folder (fst (splitext os filename))
                (lower (snd (splitext os filename))) num_augmentations
                w0) as H.
  unfold outcome in H. unfold bind at 1.
  destruct (Speechaug.make_augmentations _ _ _ _ _ _ _ _ w0) as [r w1].
  destruct H as (Hr & added & Hmem & _). simpl in Hr, Hmem. subst r.
  unfold bind, print. simpl.
  eexists. split.
  - rewrite Nat.add_1_r. reflexivity.
  - simpl. exists added. rewrite Hmem. unfold w0. simpl.
    by rewrite <- app_assoc.
Qed.

End AudioDriver.

(** ** The names the drivers take *)

(** X20: the drivers take a name whatever the case of its extension: a
    name that ends in an extension whose lower case is one of
    [.jpg .jpeg .png .bmp] passes the filter of the image driver, and one
    whose lower case is one of [.mp3 .wav .flac .ogg] that of the audio
    driver. *)
Theorem drivers_take_extensions_in_any_case (stem ext : string) :
  (In (lower ext) Imgaug.valid_extensions ->
   supported (stem +:+ ext) = true)
  /\ (In (lower ext) Speechaug.valid_extensions ->
      endswith_any (lower (stem +:+ ext)) Speechaug.valid_extensions = true).
Proof. split; apply endswith_any_lower. Qed.

Lemma drivers_take_extensions_in_any_case_witness :
  supported ("Photo" +:+ ".JPG") = true
  /\ endswith_any (lower ("Take1" +:+ ".Wav")) Speechaug.valid_extensions
     = true.
Proof.
  split.
  - apply (proj1 (drivers_take_extensions_in_any_case "Photo" ".JPG")).
    simpl. auto.
  - apply (proj2 (drivers_take_extensions_in_any_case "Take1" ".Wav")).
    simpl. auto.
Defined.

Lemma make_augmentations_exports_each_one_witness :
  exists w',
    Speechaug.make_augmentations pydub0 os0 (ramp 30) "a.wav" "out" "a" ".wav"
      2 (world0 [] [2; 4; 1; 0]) = (inr tt, w')
    /\ map fst (mem w') = [] ++ ["out/a_aug_1.wav"; "out/a_aug_2.wav"].
Proof.
  apply (make_augmentations_exports_each_one pydub0 os0 (ramp 30) "a.wav"
           "out" "a" ".wav" 2 (world0 [] [2; 4; 1; 0])).
  - reflexivity.
  - intros seg path format. reflexivity.
Defined.

Lemma audio_file_is_processed_once_its_original_is_exported_witness :
  exists w',
    Speechaug.main_file pydub1 os1 "in" "out" 1 1 "b.wav"
      (0%nat, 0%nat, None) (world0 [] [2; 4; 1; 0])
      = (inr (1%nat, 0%nat, Some (ramp 30)), w')
    /\ exists added,
        mem w' = [] ++ ("out/b_original.wav", ramp 30) :: added.
Proof.
  apply (audio_file_is_processed_once_its_original_is_exported pydub1 os1
           "in" "out" 1 1 "b.wav" ".wav" "b" 0%nat 0%nat None (ramp 30)
           (world0 [] [2; 4; 1; 0])).
  - reflexivity.
  - reflexivity.
  - reflexivity.
  - reflexivity.
Defined.

Lemma failed_save_leaves_the_earlier_copies_witness :
  exists w1 w' : World Imgaug.Mem,
    Imgaug.main_file (pil_refusing rgb_2x2 "out/b_aug_2.jpg") os1 "in" "out" 3
      "a.PNG" (0%nat, 0%nat) (img_world [] [0; 3; 7; 1; 2; 30; 4; 11])
      = (inr (0%nat, 1%nat), w')
    /\ map fst (Imgaug.files (mem w')) = [] ++ ["out/b_aug_1.jpg"]
    /\ stdout w'
       = stdout w1 ++ ["Error processing " +:+ "a.PNG" +:+ ": " +:+ "disk full"].
Proof.
  apply (failed_save_leaves_the_earlier_copies
           (pil_refusing rgb_2x2 "out/b_aug_2.jpg") os1 "in" "out" 3 "a.PNG"
           0%nat 0%nat rgb_2x2 1%nat (PyExc "OSError" "disk full")
           (img_world [] [0; 3; 7; 1; 2; 30; 4; 11])).
  - reflexivity.
  - reflexivity.
  - simpl. lia.
  - intros [| i] v' Hi; [reflexivity | lia].
  - intros v'. reflexivity.
Defined.

End DriverExtras.
